(** * Scene lifecycle utilities of the three.js portfolio: a shallow embedding

    The development follows the TypeScript sources component by component:
    [ReducedMotion], [PerformanceMonitor], [ResourceDisposer],
    [CameraController], [AssetLoader], the [SceneManager] protocol and
    [InputHandler].

    Conventions.
    - A JavaScript [number] is a rational [Q]; the functions embedded here
      only select, compare, add and divide the numbers they are given.
    - Browser and library state that the code reads (the media query, the
      clock, the renderer counters, the outcome of a network load, the
      animation engine finishing a timeline) is an explicit input or an
      explicit event of a step function.
    - A mutable class instance is a record that every method takes and
      returns. *)

From Stdlib Require Import QArith Qround Qminmax Lqa.
From stdpp Require Import gmap strings list.

Local Open Scope Q_scope.
Local Set Warnings "-register-all,-clear-no-such-hyp".

(** Math.round: the nearest integer, ties towards +infinity. *)
Definition js_round (x : Q) : Q := inject_Z (Qfloor (x + (1 # 2))).

(** [x || 0] on a number that may be missing. *)
Definition or_zero (x : option Q) : Q :=
  match x with Some v => v | None => 0 end.

(* ===================================================================== *)
(** ** ReducedMotion.ts *)
(* ===================================================================== *)

Module ReducedMotion.

(** What the browser exposes: [window] may be missing (server side
    rendering); when present, the media query
    [(prefers-reduced-motion: reduce)] has a live [matches] flag. *)
Record Browser := mkBrowser {
  has_window : bool;
  prefers_reduced : bool
}.

(** The static fields of the class.  [mediaQuery] is either [null] or the
    cached query object; the object is live, so only its presence is state. *)
Record Statics := mkStatics {
  mediaQuery : bool;
  listeners : list nat
}.

Definition initial : Statics := mkStatics false [].

(** [static isReduced(): boolean] *)
Definition isReduced (b : Browser) (s : Statics) : bool * Statics :=
  if negb (has_window b) then (false, s)
  else
    let s' := if mediaQuery s then s else mkStatics true (listeners s) in
    (prefers_reduced b, s').

(** [static getDurationMultiplier(): number] *)
Definition getDurationMultiplier (b : Browser) (s : Statics) : Q * Statics :=
  let '(r, s') := isReduced b s in
  ((if r then 1 # 100 else 1), s').

(** The default value of the parameter [reducedDuration]. *)
Definition default_reducedDuration : Q := 1 # 100.

(** [static getAdjustedDuration(normalDuration, reducedDuration = 0.01)];
    an omitted second argument is [None]. *)
Definition getAdjustedDuration (b : Browser) (s : Statics)
    (normalDuration : Q) (reducedDuration : option Q) : Q * Statics :=
  let rd := match reducedDuration with
            | Some d => d
            | None => default_reducedDuration
            end in
  let '(r, s') := isReduced b s in
  ((if r then rd else normalDuration), s').

(** The preference is active: there is a window and the query matches. *)
Definition active (b : Browser) : bool := has_window b && prefers_reduced b.

Lemma isReduced_active b s : fst (isReduced b s) = active b.
Proof.
  unfold isReduced, active. destruct (has_window b); reflexivity.
Qed.

Lemma one_percent_iff (normal : Q) :
  default_reducedDuration <= (1 # 100) * normal <-> 1 <= normal.
Proof.
  unfold default_reducedDuration. destruct normal as [n d].
  unfold Qle, Qmult. simpl. lia.
Qed.

(** C4, as the claim states it, fails: with the preference active and no
    override, a normal duration of half a second is mapped to the fixed
    0.01 s, which is more than 1% of 0.5 s. *)
Lemma getAdjustedDuration_default_exceeds_one_percent :
  let b := mkBrowser true true in
  let normal := 1 # 2 in
  0 <= normal /\ active b = true /\
  fst (getAdjustedDuration b initial normal None) == 1 # 100 /\
  ~ fst (getAdjustedDuration b initial normal None) <= (1 # 100) * normal.
Proof.
  cbv zeta. split; [discriminate|]. split; [reflexivity|].
  split; [reflexivity|]. vm_compute. intros H; apply H; reflexivity.
Qed.

(** C4 (amended): when the preference is active the result is the
    [reducedDuration] argument, or the fixed default 0.01 when it is
    omitted; that default is at most 1% of [normal] exactly when [normal]
    is at least one second.  When the preference is not active the result
    is exactly [normal]. *)
Theorem getAdjustedDuration_spec (b : Browser) (s : Statics)
    (normal : Q) (override : option Q) :
  (active b = false ->
     fst (getAdjustedDuration b s normal override) = normal) /\
  (active b = true ->
     fst (getAdjustedDuration b s normal override) =
       match override with Some d => d | None => 1 # 100 end) /\
  (active b = true ->
     (fst (getAdjustedDuration b s normal None) <= (1 # 100) * normal
      <-> 1 <= normal)).
Proof.
  assert (E : forall o, fst (getAdjustedDuration b s normal o) =
            if active b
            then match o with Some d => d | None => 1 # 100 end
            else normal).
  { intros o. unfold getAdjustedDuration.
    pose proof (isReduced_active b s) as Ha.
    destruct (isReduced b s) as [r s']. simpl in Ha. subst r.
    destruct (active b); reflexivity. }
  repeat split; try (intros Ha; rewrite E, Ha; reflexivity).
  - rewrite E, H. apply one_percent_iff.
  - rewrite E, H. apply one_percent_iff.
Qed.

Lemma getAdjustedDuration_spec_witness :
  fst (getAdjustedDuration (mkBrowser true false) initial (3 # 5) None)
    = 3 # 5 /\
  fst (getAdjustedDuration (mkBrowser true true) initial (3 # 5) (Some (1 # 20)))
    = 1 # 20.
Proof.
  split.
  - apply (getAdjustedDuration_spec (mkBrowser true false) initial (3 # 5) None).
    reflexivity.
  - apply (getAdjustedDuration_spec (mkBrowser true true) initial (3 # 5)
             (Some (1 # 20))).
    reflexivity.
Defined.

(** *** Subscriptions *)

(** The page state: the class statics and whether [handleChange] is
    registered as the ['change'] listener of the cached media query object.
    ([mediaQuery] is only replaced after [cleanup] has removed the listener
    from the old object, so one flag suffices.) *)
Record Page := mkPage {
  statics : Statics;
  change_listener : bool
}.

Definition initial_page : Page := mkPage initial false.

(** [Set.add] and [Set.delete] on a set that iterates in insertion order. *)
Definition set_add (cb : nat) (l : list nat) : list nat :=
  if decide (cb ∈ l) then l else l ++ [cb].

Definition set_delete (cb : nat) (l : list nat) : list nat :=
  filter (fun x => x <> cb) l.

(** [static subscribe(callback)], up to the returned closure. *)
Definition subscribe (b : Browser) (callback : nat) (p : Page) : Page :=
  if negb (has_window b) then p
  else
    let ls := set_add callback (listeners (statics p)) in
    mkPage (mkStatics true ls)
      (if Nat.eqb (length ls) 1 then true else change_listener p).

(** The closure returned by [subscribe(callback)]: a no-op when there was
    no window, otherwise the function that deletes the callback and removes
    the listener when nobody is left. *)
Definition unsubscribe (b : Browser) (callback : nat) (p : Page) : Page :=
  if negb (has_window b) then p
  else
    let ls := set_delete callback (listeners (statics p)) in
    mkPage (mkStatics (mediaQuery (statics p)) ls)
      (if Nat.eqb (length ls) 0 && mediaQuery (statics p) then false
       else change_listener p).



(** [static cleanup()] *)
Definition cleanup (p : Page) : Page :=
  mkPage (mkStatics false [])
    (if mediaQuery (statics p) then false else change_listener p).

Inductive Call :=
| CSubscribe (callback : nat)
| CUnsubscribe (callback : nat)
| CCleanup
| CIsReduced.

Definition perform (b : Browser) (p : Page) (c : Call) : Page :=
  match c with
  | CSubscribe cb => subscribe b cb p
  | CUnsubscribe cb => unsubscribe b cb p
  | CCleanup => cleanup p
  | CIsReduced => mkPage (snd (isReduced b (statics p))) (change_listener p)
  end.

Definition run (b : Browser) (calls : list Call) (p : Page) : Page :=
  fold_left (perform b) calls p.

(** The listener is registered exactly while the set of subscribers is not
    empty; the set has no duplicates; subscribers imply a cached query. *)
Record page_ok (p : Page) : Prop := mkPageOk {
  listener_iff :
    change_listener p = negb (Nat.eqb (length (listeners (statics p))) 0);
  listeners_nodup : NoDup (listeners (statics p));
  query_cached :
    listeners (statics p) <> [] -> mediaQuery (statics p) = true
}.

Lemma set_add_nodup cb l : NoDup l -> NoDup (set_add cb l).
Proof.
  intros H. unfold set_add. destruct (decide (cb ∈ l)); [exact H|].
  apply NoDup_app. split; [exact H|]. split.
  - intros x Hx Hin. apply list_elem_of_singleton in Hin. subst. contradiction.
  - apply NoDup_singleton.
Qed.

Lemma set_add_length cb l :
  length (set_add cb l) = length l \/ length (set_add cb l) = S (length l).
Proof.
  unfold set_add. destruct (decide (cb ∈ l)); [left; reflexivity|].
  right. rewrite length_app. simpl. lia.
Qed.

Lemma set_add_nonempty cb l : set_add cb l <> [].
Proof.
  unfold set_add. destruct (decide (cb ∈ l)) as [Hin|].
  - intros ->. inversion Hin.
  - destruct l; discriminate.
Qed.

Lemma page_ok_initial : page_ok initial_page.
Proof. split; simpl; [reflexivity | constructor | easy]. Qed.

Lemma page_ok_perform b p c : page_ok p -> page_ok (perform b p c).
Proof.
  intros [Hl Hn Hq]. destruct p as [[mq ls] att]. simpl in *.
  destruct c as [cb|cb| |]; simpl.
  - unfold subscribe. destruct (has_window b); simpl; [|split; assumption].
    split; simpl.
    + pose proof (set_add_nonempty cb ls) as Hne.
      destruct (set_add_length cb ls) as [E|E]; rewrite E.
      * destruct ls as [|x ls]; [simpl in *; destruct (set_add cb []); easy|].
        simpl in *. destruct ls; simpl; [reflexivity | exact Hl].
      * destruct ls as [|x ls]; simpl; [reflexivity|exact Hl].
    + apply set_add_nodup, Hn.
    + reflexivity.
  - unfold unsubscribe. destruct (has_window b); simpl; [|split; assumption].
    split; simpl.
    + destruct (set_delete cb ls) as [|y l'] eqn:E; simpl.
      * destruct mq; [reflexivity|]. simpl.
        destruct ls as [|x ls]; [exact Hl|].
        discriminate (Hq ltac:(discriminate)).
      * rewrite Hl. destruct ls; [discriminate E | reflexivity].
    + apply NoDup_filter, Hn.
    + intros Hne. apply Hq. intros ->. apply Hne. reflexivity.
  - split; simpl; [|constructor|easy].
    destruct mq; [reflexivity|]. rewrite Hl.
    destruct ls; [reflexivity|]. discriminate (Hq ltac:(discriminate)).
  - unfold isReduced. destruct (has_window b); simpl; [|split; assumption].
    destruct mq; simpl; split; simpl; auto.
Qed.

Lemma page_ok_run b calls : forall p, page_ok p -> page_ok (run b calls p).
Proof.
  induction calls as [|c calls IH]; intros p H; [exact H|].
  simpl. apply IH, page_ok_perform, H.
Qed.

(** The ['change'] listener is registered on the media query exactly while
    at least one subscriber exists, whatever sequence of [subscribe],
    unsubscribe, [cleanup] and [isReduced] calls has been made. *)
Theorem change_listener_iff_subscribers (b : Browser) (calls : list Call) :
  let p := run b calls initial_page in
  change_listener p = true <-> listeners (statics p) <> [].
Proof.
  intros p.
  destruct (page_ok_run b calls initial_page page_ok_initial) as [Hl _ _].
  fold p in Hl. rewrite Hl. destruct (listeners (statics p)); simpl.
  - split; [discriminate | intros H; destruct (H eq_refl)].
  - split; [discriminate | reflexivity].
Qed.


End ReducedMotion.

(* ===================================================================== *)
(** ** PerformanceMonitor.ts *)
(* ===================================================================== *)

Module PerformanceMonitor.

Record PerformanceMetrics := mkMetrics {
  currentFPS : Q;
  averageFPS : Q;
  medianFPS : Q;
  minFPS : Q;
  maxFPS : Q;
  drawCalls : Q;
  triangles : Q;
  geometries : Q;
  textures : Q;
  programs : Q;
  memoryMB : Q;
  frameTime : Q
}.

Record ConstitutionBudgets := mkBudgets {
  targetFPS : Q;
  maxFrameTime : Q;
  maxDrawCallsLanding : Q;
  maxDrawCallsTypical : Q;
  maxTextureMB : Q;
  maxStutterDuration : Q
}.

(** [renderer.info] as one frame sees it; a field that is missing on the
    renderer object is [None]. *)
Record RendererInfo := mkInfo {
  render_calls : option Q;
  render_triangles : option Q;
  memory_geometries : option Q;
  memory_textures : option Q;
  programs_length : option Q
}.

Inductive Warning :=
| FpsBelowTarget (median target : Q)
| FrameTimeExceeded (ft limit : Q)
| DrawCallsExceeded (calls limit : Q) (landing : bool)
| TextureMemoryExceeded (mb limit : Q)
| StutterDetected (ft limit : Q).

(** The private fields of a monitor.  [renderer] is what
    [this.renderer?.info] evaluates to at each read and is therefore an
    input of the methods, not a field here. *)
Record Monitor := mkMonitor {
  frameTimeHistory : list Q;
  fpsHistory : list Q;
  lastFrameTime : Q;
  historySize : nat;
  budgets : ConstitutionBudgets;
  isLandingScene : bool;
  warningThrottleTime : Q;
  lastWarningTime : Q
}.

Definition default_budgets : ConstitutionBudgets :=
  mkBudgets 60 (167 # 10) 150 300 64 250.

(** [constructor(renderer)]; [now] is the reading of [performance.now()]
    that initialises [lastFrameTime]. *)
Definition create (now : Q) : Monitor :=
  mkMonitor [] [] now 120 default_budgets true 5000 0.

Definition Qltb (x y : Q) : bool := negb (Qle_bool y x).

(** [calculateAverage] *)
Definition calculateAverage (arr : list Q) : Q :=
  match arr with
  | [] => 0
  | _ => js_round (fold_left Qplus arr 0 / inject_Z (Z.of_nat (length arr)))
  end.

(** [[...arr].sort((a, b) => a - b)]: ascending and stable. *)
Fixpoint insert_sorted (x : Q) (l : list Q) : list Q :=
  match l with
  | [] => [x]
  | y :: l' => if Qltb x y then x :: l else y :: insert_sorted x l'
  end.

Definition sort_ascending (arr : list Q) : list Q :=
  fold_left (fun acc x => insert_sorted x acc) arr [].

(** [calculateMedian] *)
Definition calculateMedian (arr : list Q) : Q :=
  match arr with
  | [] => 0
  | _ =>
    let sorted := sort_ascending arr in
    let mid := Nat.div (length sorted) 2 in
    if Nat.eqb (Nat.modulo (length sorted) 2) 0
    then js_round ((nth (mid - 1) sorted 0 + nth mid sorted 0) / 2)
    else js_round (nth mid sorted 0)
  end.

(** [Math.min(...arr)] and [Math.max(...arr)].  Both callers pass a
    history that holds at least one sample; the value on the empty list
    (an infinity in JavaScript) is never read. *)
Definition math_min (arr : list Q) : Q :=
  match arr with [] => 0 | x :: xs => fold_left Qmin xs x end.

Definition math_max (arr : list Q) : Q :=
  match arr with [] => 0 | x :: xs => fold_left Qmax xs x end.

(** [estimateMemoryUsage] *)
Definition estimateMemoryUsage (renderer : option RendererInfo) : Q :=
  let geos := or_zero (r ← renderer; memory_geometries r) in
  let texs := or_zero (r ← renderer; memory_textures r) in
  texs * 1 + geos * (1 # 2).

(** [validateBudgets]; [now] is its own reading of the clock.  The result
    is the list of warnings sent to the console and the updated monitor. *)
Definition validateBudgets (now : Q) (metrics : PerformanceMetrics)
    (m : Monitor) : list Warning * Monitor :=
  if Qltb (now - lastWarningTime m) (warningThrottleTime m) then ([], m)
  else
    let b := budgets m in
    let maxDrawCalls :=
      if isLandingScene m then maxDrawCallsLanding b
      else maxDrawCallsTypical b in
    let warnings :=
      (if Qltb (medianFPS metrics) (targetFPS b * (9 # 10))
       then [FpsBelowTarget (medianFPS metrics) (targetFPS b)] else []) ++
      (if Qltb (maxFrameTime b) (frameTime metrics)
       then [FrameTimeExceeded (frameTime metrics) (maxFrameTime b)] else []) ++
      (if Qltb maxDrawCalls (drawCalls metrics)
       then [DrawCallsExceeded (drawCalls metrics) maxDrawCalls
               (isLandingScene m)] else []) ++
      (if Qltb (maxTextureMB b) (memoryMB metrics)
       then [TextureMemoryExceeded (memoryMB metrics) (maxTextureMB b)]
       else []) ++
      (if Qltb (maxStutterDuration b) (frameTime metrics)
       then [StutterDetected (frameTime metrics) (maxStutterDuration b)]
       else []) in
    match warnings with
    | [] => ([], m)
    | _ =>
      (warnings,
       mkMonitor (frameTimeHistory m) (fpsHistory m) (lastFrameTime m)
         (historySize m) (budgets m) (isLandingScene m)
         (warningThrottleTime m) now)
    end.

(** What one call of [update] reads from its environment: the two clock
    readings (in [update] and in [validateBudgets]) and the renderer. *)
Record Frame := mkFrame {
  now : Q;
  now_validate : Q;
  renderer : option RendererInfo
}.

(** The two samples that [update] computes from the clock. *)
Definition sample_frameTime (f : Frame) (m : Monitor) : Q :=
  now f - lastFrameTime m.

Definition sample_fps (f : Frame) (m : Monitor) : Q :=
  let ft := sample_frameTime f m in
  if Qltb 0 ft then 1000 / ft else 60.

(** [update(): PerformanceMetrics] *)
Definition update (f : Frame) (m : Monitor)
  : PerformanceMetrics * list Warning * Monitor :=
  let ft := sample_frameTime f m in
  let fps := sample_fps f m in
  let fts := frameTimeHistory m ++ [ft] in
  let fpss := fpsHistory m ++ [fps] in
  let over := Nat.ltb (historySize m) (length fts) in
  let fts' := if over then tl fts else fts in
  let fpss' := if over then tl fpss else fpss in
  let m1 := mkMonitor fts' fpss' (now f) (historySize m) (budgets m)
              (isLandingScene m) (warningThrottleTime m)
              (lastWarningTime m) in
  let r := renderer f in
  let metrics := mkMetrics
    (js_round fps)
    (calculateAverage fpss')
    (calculateMedian fpss')
    (math_min fpss')
    (math_max fpss')
    (or_zero (i ← r; render_calls i))
    (or_zero (i ← r; render_triangles i))
    (or_zero (i ← r; memory_geometries i))
    (or_zero (i ← r; memory_textures i))
    (or_zero (i ← r; programs_length i))
    (estimateMemoryUsage r)
    (js_round (ft * 100) / 100) in
  let '(ws, m2) := validateBudgets (now_validate f) metrics m1 in
  (metrics, ws, m2).

(** [setIsLandingScene] *)
Definition setIsLandingScene (isLanding : bool) (m : Monitor) : Monitor :=
  mkMonitor (frameTimeHistory m) (fpsHistory m) (lastFrameTime m)
    (historySize m) (budgets m) isLanding
    (warningThrottleTime m) (lastWarningTime m).

(** [getMetrics(): PerformanceMetrics | null] *)
Definition getMetrics (renderer : option RendererInfo) (m : Monitor)
  : option PerformanceMetrics :=
  match fpsHistory m with
  | [] => None
  | _ =>
    Some (mkMetrics
      (js_round (List.last (fpsHistory m) 0))
      (calculateAverage (fpsHistory m))
      (calculateMedian (fpsHistory m))
      (math_min (fpsHistory m))
      (math_max (fpsHistory m))
      (or_zero (i ← renderer; render_calls i))
      (or_zero (i ← renderer; render_triangles i))
      (or_zero (i ← renderer; memory_geometries i))
      (or_zero (i ← renderer; memory_textures i))
      (or_zero (i ← renderer; programs_length i))
      (estimateMemoryUsage renderer)
      (List.last (frameTimeHistory m) 0))
  end.

(** [reset()] *)
Definition reset (now : Q) (m : Monitor) : Monitor :=
  mkMonitor [] [] now (historySize m) (budgets m) (isLandingScene m)
    (warningThrottleTime m) (lastWarningTime m).

(** The calls a client can make, with what each reads from outside. *)
Inductive Call :=
| CUpdate (f : Frame)
| CReset (now : Q)
| CSetLanding (isLanding : bool).

Definition perform (m : Monitor) (c : Call) : Monitor :=
  match c with
  | CUpdate f => snd (update f m)
  | CReset t => reset t m
  | CSetLanding b => setIsLandingScene b m
  end.

Definition run (calls : list Call) (m : Monitor) : Monitor :=
  fold_left perform calls m.

(** The number of [update] calls since construction or since the most
    recent [reset], read off the call sequence alone. *)
Definition count_call (n : nat) (c : Call) : nat :=
  match c with
  | CUpdate _ => S n
  | CReset _ => O
  | CSetLanding _ => n
  end.

Definition updates_since_reset (calls : list Call) : nat :=
  fold_left count_call calls O.

(** *** Invariants of the histories *)

Lemma validateBudgets_histories t metrics m :
  let m' := snd (validateBudgets t metrics m) in
  frameTimeHistory m' = frameTimeHistory m /\
  fpsHistory m' = fpsHistory m /\
  historySize m' = historySize m.
Proof.
  unfold validateBudgets.
  destruct (Qltb _ _); [easy|].
  match goal with |- context [match ?w with [] => _ | _ => _ end] =>
    destruct w end; easy.
Qed.

Lemma update_histories f m :
  let m' := snd (update f m) in
  let over := Nat.ltb (historySize m)
                (length (frameTimeHistory m ++ [sample_frameTime f m])) in
  frameTimeHistory m' =
    (if over then tl (frameTimeHistory m ++ [sample_frameTime f m])
     else frameTimeHistory m ++ [sample_frameTime f m]) /\
  fpsHistory m' =
    (if over then tl (fpsHistory m ++ [sample_fps f m])
     else fpsHistory m ++ [sample_fps f m]) /\
  historySize m' = historySize m.
Proof.
  unfold update. cbv zeta.
  match goal with |- context [validateBudgets ?t ?mt ?m1] =>
    pose proof (validateBudgets_histories t mt m1) as Hv;
    destruct (validateBudgets t mt m1) as [ws m2] end.
  cbv zeta in Hv. simpl in *. destruct Hv as (-> & -> & ->). easy.
Qed.

(** The state invariant: the capacity is the constant 120, both histories
    have the same length, and that length is within the capacity. *)
Definition well_formed (m : Monitor) : Prop :=
  historySize m = 120%nat /\
  length (frameTimeHistory m) = length (fpsHistory m) /\
  (length (fpsHistory m) <= 120)%nat.

Lemma tl_length {A} (l : list A) : length (tl l) = (length l - 1)%nat.
Proof. destruct l; simpl; lia. Qed.

Lemma well_formed_create t0 : well_formed (create t0).
Proof. unfold well_formed; simpl. lia. Qed.

Lemma well_formed_perform m c : well_formed m -> well_formed (perform m c).
Proof.
  intros (Hs & Hl & Hb). destruct c as [f|t|b]; simpl.
  - destruct (update_histories f m) as (Hft & Hfps & Hsz).
    unfold well_formed. rewrite Hft, Hfps, Hsz, Hs.
    rewrite Hs in *. rewrite length_app. simpl.
    destruct (Nat.ltb_spec 120 (length (frameTimeHistory m) + 1)).
    + rewrite !tl_length, !length_app. simpl. lia.
    + rewrite !length_app. simpl. lia.
  - unfold well_formed; simpl. lia.
  - unfold well_formed; simpl. lia.
Qed.

Lemma well_formed_run calls m : well_formed m -> well_formed (run calls m).
Proof.
  revert m. induction calls as [|c calls IH]; intros m Hm; simpl; [easy|].
  apply IH, well_formed_perform, Hm.
Qed.

Lemma update_nonempty f m :
  well_formed m -> fpsHistory (snd (update f m)) <> [].
Proof.
  intros (Hs & Hl & Hb).
  destruct (update_histories f m) as (_ & Hfps & _). rewrite Hfps, Hs.
  rewrite length_app. simpl.
  destruct (Nat.ltb_spec 120 (length (frameTimeHistory m) + 1)).
  - intros E. apply (f_equal (@length Q)) in E.
    rewrite tl_length, length_app in E. simpl in E. lia.
  - destruct (fpsHistory m); discriminate.
Qed.

Lemma empty_iff_no_update calls : forall m n,
  well_formed m ->
  (fpsHistory m = [] <-> n = O) ->
  (fpsHistory (run calls m) = [] <-> fold_left count_call calls n = O).
Proof.
  induction calls as [|c calls IH]; intros m n Hm Hn; simpl; [easy|].
  apply IH; [apply well_formed_perform, Hm|].
  destruct c as [f|t|b]; simpl.
  - split; [|discriminate]. intros E. destruct (update_nonempty f m Hm E).
  - easy.
  - exact Hn.
Qed.

(** C9: whatever sequence of calls a monitor has served, neither history
    holds more than 120 samples; and when the histories hold 120 samples, a
    further [update] drops exactly the oldest sample of each and appends the
    new one at the end. *)
Theorem histories_bounded_fifo (t0 : Q) (calls : list Call) (f : Frame) :
  let m := run calls (create t0) in
  let m' := snd (update f m) in
  (length (fpsHistory m) <= 120)%nat /\
  (length (frameTimeHistory m) <= 120)%nat /\
  (length (fpsHistory m) = 120%nat ->
     fpsHistory m' = tl (fpsHistory m) ++ [sample_fps f m] /\
     frameTimeHistory m' =
       tl (frameTimeHistory m) ++ [sample_frameTime f m]) /\
  ((length (fpsHistory m) < 120)%nat ->
     fpsHistory m' = fpsHistory m ++ [sample_fps f m] /\
     frameTimeHistory m' = frameTimeHistory m ++ [sample_frameTime f m]).
Proof.
  intros m m'.
  destruct (well_formed_run calls (create t0) (well_formed_create t0))
    as (Hs & Hl & Hb). fold m in Hs, Hl, Hb.
  destruct (update_histories f m) as (Hft & Hfps & _). fold m' in Hft, Hfps.
  rewrite Hs, length_app in Hft, Hfps. simpl in Hft, Hfps.
  split; [exact Hb|]. split; [lia|]. split; intros Hlen.
  - destruct (Nat.ltb_spec 120 (length (frameTimeHistory m) + 1)); [|lia].
    rewrite Hft, Hfps.
    destruct (fpsHistory m); [discriminate|].
    destruct (frameTimeHistory m); [discriminate|]. easy.
  - destruct (Nat.ltb_spec 120 (length (frameTimeHistory m) + 1)); [lia|].
    easy.
Qed.

Lemma histories_bounded_fifo_witness :
  let f := mkFrame 16 16 None in
  let m := run (repeat (CUpdate f) 120) (create 0) in
  fpsHistory (snd (update f m)) = tl (fpsHistory m) ++ [sample_fps f m] /\
  frameTimeHistory (snd (update f m)) =
    tl (frameTimeHistory m) ++ [sample_frameTime f m].
Proof.
  cbv zeta.
  apply (histories_bounded_fifo 0 (repeat (CUpdate (mkFrame 16 16 None)) 120)
           (mkFrame 16 16 None)).
  vm_compute. reflexivity.
Defined.

(** C10: [getMetrics] answers [null] exactly when no [update] has been
    served since the monitor was constructed or last reset; in particular
    it answers [null] right after [reset]. *)
Theorem getMetrics_null_iff (t0 : Q) (calls : list Call)
    (r : option RendererInfo) :
  (getMetrics r (run calls (create t0)) = None
     <-> updates_since_reset calls = O) /\
  (forall t, getMetrics r (reset t (run calls (create t0))) = None).
Proof.
  split; [|reflexivity].
  pose proof (empty_iff_no_update calls (create t0) O
                (well_formed_create t0)) as H.
  unfold updates_since_reset. rewrite <- H by easy.
  unfold getMetrics. destruct (fpsHistory (run calls (create t0))); easy.
Qed.

End PerformanceMonitor.

(* ===================================================================== *)
(** ** ResourceDisposer.ts *)
(* ===================================================================== *)

Module ResourceDisposer.

Local Open Scope nat_scope.

(** A GPU-backed resource (geometry, material, texture) is known by the
    identity of its JavaScript object.  Two slots that hold the same handle
    hold the same object. *)
Definition Handle := nat.

Inductive Kind := KGeometry | KMaterial | KTexture.

(** A property of a JavaScript object as the [in] operator and a truthiness
    test see it: not there, there but [null]/[undefined], or a value. *)
Inductive JsProp (A : Type) :=
| Absent
| Nullish
| Present (a : A).
Arguments Absent {A}.
Arguments Nullish {A}.
Arguments Present {A} a.

Definition truthy {A} (p : JsProp A) : option A :=
  match p with Present a => Some a | _ => None end.

(** The value of one own property of a material: an object that carries
    [isTexture], or anything else (numbers, colours, [null], ...). *)
Inductive PropValue :=
| VTexture (t : Handle)
| VOther.

(** A material: its identity and its own enumerable properties in the order
    [Object.keys] lists them. *)
Record Material := mkMaterial {
  mat_id : Handle;
  mat_props : list (string * PropValue)
}.

(** [mesh.material] is one material or an array of them. *)
Inductive MaterialSlot :=
| Single (m : Material)
| Multi (ms : list Material).

(** An [Object3D] with the fields the disposer reads.  [children] is the
    array as it was when the graph was built; which of them are still
    attached is part of the [World] below. *)
Inductive Object3D := mkObject3D {
  uuid : nat;
  geometry : JsProp Handle;
  material : JsProp MaterialSlot;
  children : list Object3D
}.

(** What a run leaves behind: the [dispose()] calls received by resource
    handles, the messages sent to [console.error], and the
    [removeFromParent()] calls. *)
Inductive Event :=
| Dispose (k : Kind) (h : Handle)
| ConsoleError (msg : string)
| RemovedFromParent (o : nat).

(** The mutable world: the events so far, and the objects that have left
    their parent's [children] array (by [removeFromParent]). *)
Record World := mkWorld {
  log : list Event;
  detached : gset nat
}.

Definition fresh : World := mkWorld [] ∅.

(** A statement either completes or throws; effects made before a throw
    stay. *)
Inductive Outcome := Normal | Thrown.

Definition Eff := World -> Outcome * World.

Definition skip : Eff := fun w => (Normal, w).

Definition seq (a b : Eff) : Eff :=
  fun w => match a w with
           | (Normal, w') => b w'
           | (Thrown, w') => (Thrown, w')
           end.

Definition try_catch (body handler : Eff) : Eff :=
  fun w => match body w with
           | (Normal, w') => (Normal, w')
           | (Thrown, w') => handler w'
           end.

Definition emit (e : Event) : Eff :=
  fun w => (Normal, mkWorld (log w ++ [e]) (detached w)).

Definition console_error (msg : string) : Eff := emit (ConsoleError msg).

(** [array.forEach(f)]: a throw in one iteration ends the loop. *)
Fixpoint for_each {A} (f : A -> Eff) (l : list A) : Eff :=
  match l with
  | [] => skip
  | x :: l' => seq (f x) (for_each f l')
  end.

Infix ">>" := seq (at level 62, right associativity).

Section Disposer.

(** Which handles have a [dispose()] that throws. *)
Variable faulty : Handle -> bool.

(** [resource.dispose()] *)
Definition call_dispose (k : Kind) (h : Handle) : Eff :=
  fun w => (if faulty h then Thrown else Normal,
            mkWorld (log w ++ [Dispose k h]) (detached w)).

(** [object.removeFromParent()]: the object leaves its parent's [children]
    array and its [parent] becomes [null]; nothing happens if it had none. *)
Definition removeFromParent (o : nat) : Eff :=
  fun w => (Normal,
            mkWorld (log w ++ [RemovedFromParent o]) (detached w ∪ {[o]})).

(** [static disposeGeometry(geometry)] *)
Definition disposeGeometry (geometry : option Handle) : Eff :=
  match geometry with
  | None => skip
  | Some g =>
    try_catch (call_dispose KGeometry g)
              (console_error "Error disposing geometry:")
  end.

(** [static disposeTexture(texture)] *)
Definition disposeTexture (texture : option Handle) : Eff :=
  match texture with
  | None => skip
  | Some t =>
    try_catch (call_dispose KTexture t)
              (console_error "Error disposing texture:")
  end.

(** [static disposeMaterial(material)] *)
Definition disposeMaterial (material : option MaterialSlot) : Eff :=
  match material with
  | None => skip
  | Some slot =>
    let materials := match slot with Single m => [m] | Multi ms => ms end in
    for_each
      (fun mat =>
         try_catch
           (for_each
              (fun kv : string * PropValue =>
                 match snd kv with
                 | VTexture t => disposeTexture (Some t)
                 | VOther => skip
                 end)
              (mat_props mat) >>
            call_dispose KMaterial (mat_id mat))
           (console_error "Error disposing material:"))
      materials
  end.

(** The body of [static disposeObject3D(object)] for an object that is not
    [null].  [[...object.children]] is the children still attached when
    the copy is taken. *)
Fixpoint disposeObject3D_node (object : Object3D) : Eff :=
  try_catch
    (fun w =>
       let gone := detached w in
       (for_each
          (fun child =>
             if decide (uuid child ∈ gone) then skip
             else disposeObject3D_node child)
          (children object) >>
        match geometry object with
        | Absent => skip
        | g => disposeGeometry (truthy g)
        end >>
        match material object with
        | Absent => skip
        | m => disposeMaterial (truthy m)
        end >>
        removeFromParent (uuid object)) w)
    (console_error "Error disposing Object3D:").

(** [static disposeObject3D(object: THREE.Object3D | null | undefined)] *)
Definition disposeObject3D (object : option Object3D) : Eff :=
  match object with
  | None => skip
  | Some o => disposeObject3D_node o
  end.

(** [static disposeMesh(mesh)] *)
Definition disposeMesh (mesh : option Object3D) : Eff :=
  match mesh with
  | None => skip
  | Some o =>
    try_catch
      (disposeGeometry (truthy (geometry o)) >>
       disposeMaterial (truthy (material o)))
      (console_error "Error disposing mesh:")
  end.

End Disposer.

(** *** Reading a run *)

(** The [dispose()] calls of a log, in order. *)
Definition dispose_calls (es : list Event) : list (Kind * Handle) :=
  omap (fun e => match e with Dispose k h => Some (k, h) | _ => None end) es.

(** How many times handle [h] received [dispose()]. *)
Definition times_disposed (h : Handle) (es : list Event) : nat :=
  length (filter (fun c => snd c = h) (dispose_calls es)).

(** The resource references an object graph holds, slot by slot. *)
Definition material_refs (m : Material) : list (Kind * Handle) :=
  omap (fun kv : string * PropValue =>
          match snd kv with
          | VTexture t => Some (KTexture, t)
          | VOther => None
          end) (mat_props m)
  ++ [(KMaterial, mat_id m)].

Definition own_refs (o : Object3D) : list (Kind * Handle) :=
  match geometry o with Present g => [(KGeometry, g)] | _ => [] end ++
  match material o with
  | Present (Single m) => material_refs m
  | Present (Multi ms) => flat_map material_refs ms
  | _ => []
  end.

(** The order the specification asks for, written without reference to the
    disposer: depth-first, every child subtree in full (in array order)
    before the object's own references. *)
Fixpoint postorder_refs (o : Object3D) : list (Kind * Handle) :=
  flat_map postorder_refs (children o) ++ own_refs o.

Fixpoint uuids (o : Object3D) : list nat :=
  uuid o :: flat_map uuids (children o).

(** *** Induction over object graphs *)

Lemma Object3D_nested_ind (P : Object3D -> Prop) :
  (forall u g m cs, Forall P cs -> P (mkObject3D u g m cs)) ->
  forall o, P o.
Proof.
  intros step. fix self 1. intros [u g m cs]. apply step.
  induction cs as [|c cs IH]; constructor; [apply self | exact IH].
Qed.

(** *** Statements that complete and only add [dispose()] calls *)

(** [e] always completes, makes exactly the calls [cs], detaches nothing. *)
Definition quiet (e : Eff) (cs : list (Kind * Handle)) : Prop :=
  forall w, exists w',
    e w = (Normal, w') /\
    dispose_calls (log w') = dispose_calls (log w) ++ cs /\
    detached w' = detached w.

Lemma dispose_calls_app es1 es2 :
  dispose_calls (es1 ++ es2) = dispose_calls es1 ++ dispose_calls es2.
Proof. unfold dispose_calls. apply omap_app. Qed.

Lemma quiet_skip : quiet skip [].
Proof. intros w. exists w. rewrite app_nil_r. easy. Qed.

Lemma quiet_seq a b cs1 cs2 :
  quiet a cs1 -> quiet b cs2 -> quiet (a >> b) (cs1 ++ cs2).
Proof.
  intros Ha Hb w. destruct (Ha w) as (w1 & E1 & C1 & D1).
  destruct (Hb w1) as (w2 & E2 & C2 & D2).
  exists w2. unfold seq. rewrite E1, E2, C2, C1, D2, D1, app_assoc. easy.
Qed.

Lemma quiet_for_each {A} (f : A -> Eff) (g : A -> list (Kind * Handle)) l :
  (forall x, quiet (f x) (g x)) -> quiet (for_each f l) (flat_map g l).
Proof.
  intros Hf. induction l as [|x l IH]; simpl.
  - apply quiet_skip.
  - apply quiet_seq; [apply Hf | exact IH].
Qed.

Section DisposerFacts.

Variable faulty : Handle -> bool.

(** A guarded [dispose()] after a quiet prefix: the call is made, and a
    throw is turned into a console message. *)
Lemma quiet_guarded_dispose a cs k h msg :
  quiet a cs ->
  quiet (try_catch (a >> call_dispose faulty k h) (console_error msg))
        (cs ++ [(k, h)]).
Proof.
  intros Ha w. destruct (Ha w) as (w1 & E1 & C1 & D1).
  unfold try_catch, seq, call_dispose, console_error, emit. rewrite E1.
  destruct (faulty h); eexists; (split; [reflexivity|]); simpl;
    rewrite ?dispose_calls_app, C1; simpl;
    rewrite ?app_nil_r, <- ?app_assoc; easy.
Qed.

Lemma quiet_disposeGeometry g :
  quiet (disposeGeometry faulty (Some g)) [(KGeometry, g)].
Proof.
  intros w. unfold disposeGeometry, try_catch, call_dispose, console_error, emit.
  destruct (faulty g); eexists; (split; [reflexivity|]); simpl;
    rewrite ?dispose_calls_app; simpl; rewrite ?app_nil_r; easy.
Qed.

Lemma quiet_disposeTexture t :
  quiet (disposeTexture faulty (Some t)) [(KTexture, t)].
Proof.
  intros w. unfold disposeTexture, try_catch, call_dispose, console_error, emit.
  destruct (faulty t); eexists; (split; [reflexivity|]); simpl;
    rewrite ?dispose_calls_app; simpl; rewrite ?app_nil_r; easy.
Qed.

Definition texture_ref (kv : string * PropValue) : list (Kind * Handle) :=
  match snd kv with VTexture t => [(KTexture, t)] | VOther => [] end.

Lemma texture_refs_omap ps :
  flat_map texture_ref ps =
  omap (fun kv : string * PropValue =>
          match snd kv with
          | VTexture t => Some (KTexture, t)
          | VOther => None
          end) ps.
Proof.
  induction ps as [|[k v] ps IH]; [reflexivity|].
  simpl. unfold texture_ref at 1. simpl. destruct v; simpl; rewrite IH; easy.
Qed.

Lemma quiet_one_material mat :
  quiet
    (try_catch
       (for_each
          (fun kv : string * PropValue =>
             match snd kv with
             | VTexture t => disposeTexture faulty (Some t)
             | VOther => skip
             end)
          (mat_props mat) >>
        call_dispose faulty KMaterial (mat_id mat))
       (console_error "Error disposing material:"))
    (material_refs mat).
Proof.
  unfold material_refs. rewrite <- texture_refs_omap.
  apply quiet_guarded_dispose. apply quiet_for_each.
  intros [k v]. unfold texture_ref. simpl. destruct v.
  - apply quiet_disposeTexture.
  - apply quiet_skip.
Qed.

(** The part of [disposeObject3D] that frees the object's own resources. *)
Definition dispose_own (o : Object3D) : Eff :=
  match geometry o with
  | Absent => skip
  | g => disposeGeometry faulty (truthy g)
  end >>
  match material o with
  | Absent => skip
  | m => disposeMaterial faulty (truthy m)
  end.

Lemma quiet_dispose_own o : quiet (dispose_own o) (own_refs o).
Proof.
  unfold dispose_own, own_refs. apply quiet_seq.
  - destruct (geometry o); simpl;
      [apply quiet_skip | apply quiet_skip | apply quiet_disposeGeometry].
  - destruct (material o) as [| |[m|ms]]; simpl; try apply quiet_skip.
    + rewrite <- (app_nil_r (material_refs m)).
      apply quiet_seq; [apply quiet_one_material | apply quiet_skip].
    + apply quiet_for_each. apply quiet_one_material.
Qed.

(** *** Walking the graph *)

(** One iteration of the loop over the copied [children] array. *)
Definition visit (gone : gset nat) (child : Object3D) : Eff :=
  if decide (uuid child ∈ gone) then skip
  else disposeObject3D_node faulty child.

Lemma seq_assoc (a b c : Eff) w : (a >> b >> c) w = ((a >> b) >> c) w.
Proof.
  unfold seq. destruct (a w) as [[] w1]; [|reflexivity].
  destruct (b w1) as [[] w2]; reflexivity.
Qed.

Lemma seq_ext_r (a b b' : Eff) w :
  (forall w1, b w1 = b' w1) -> (a >> b) w = (a >> b') w.
Proof. intros H. unfold seq. destruct (a w) as [[] w1]; [apply H|reflexivity]. Qed.

Lemma node_unfold o w :
  disposeObject3D_node faulty o w =
  try_catch
    (for_each (visit (detached w)) (children o) >>
     dispose_own o >> removeFromParent (uuid o))
    (console_error "Error disposing Object3D:") w.
Proof.
  destruct o as [u g m cs].
  cbn [disposeObject3D_node uuid geometry material children].
  unfold try_catch. fold (visit (detached w)).
  unfold dispose_own. cbn [uuid geometry material children].
  erewrite seq_ext_r; [reflexivity|]. intros w1. apply seq_assoc.
Qed.

(** What a first visit of [o] from world [w] must achieve. *)
Definition first_visit (o : Object3D) (w : World) : Prop :=
  exists w',
    disposeObject3D_node faulty o w = (Normal, w') /\
    dispose_calls (log w') = dispose_calls (log w) ++ postorder_refs o /\
    detached w' = detached w ∪ list_to_set (uuids o).

Lemma finish_node o w w1 :
  for_each (visit (detached w)) (children o) w = (Normal, w1) ->
  exists w',
    disposeObject3D_node faulty o w = (Normal, w') /\
    dispose_calls (log w') = dispose_calls (log w1) ++ own_refs o /\
    detached w' = detached w1 ∪ {[uuid o]}.
Proof.
  intros E1. rewrite node_unfold. unfold try_catch, seq at 1. rewrite E1.
  unfold seq. destruct (quiet_dispose_own o w1) as (w2 & E2 & C2 & D2).
  rewrite E2. unfold removeFromParent. eexists. split; [reflexivity|].
  simpl. rewrite dispose_calls_app, C2, D2. simpl.
  rewrite app_nil_r. easy.
Qed.

Lemma first_visit_children cs :
  Forall (fun c => forall w,
            NoDup (uuids c) ->
            (forall u, u ∈ uuids c -> u ∉ detached w) ->
            first_visit c w) cs ->
  forall gone w,
    NoDup (flat_map uuids cs) ->
    (forall u, u ∈ flat_map uuids cs -> u ∉ detached w) ->
    (forall u, u ∈ flat_map uuids cs -> u ∉ gone) ->
    exists w',
      for_each (visit gone) cs w = (Normal, w') /\
      dispose_calls (log w') =
        dispose_calls (log w) ++ flat_map postorder_refs cs /\
      detached w' = detached w ∪ list_to_set (flat_map uuids cs).
Proof.
  induction 1 as [|c cs Hc _ IH]; intros gone w Hnd Hw Hg; simpl.
  - exists w. rewrite app_nil_r. split; [reflexivity|]. split; [reflexivity|].
    set_solver.
  - simpl in Hnd, Hw, Hg. apply NoDup_app in Hnd as (Hnc & Hdisj & Hncs).
    assert (Hroot : uuid c ∈ uuids c) by (destruct c; simpl; left).
    destruct (Hc w Hnc) as (w1 & E1 & C1 & D1).
    { intros u Hu. apply Hw. set_solver. }
    destruct (IH gone w1 Hncs) as (w2 & E2 & C2 & D2).
    { intros u Hu. rewrite D1. specialize (Hdisj u).
      assert (u ∉ detached w) by (apply Hw; set_solver). set_solver. }
    { intros u Hu. apply Hg. set_solver. }
    exists w2. unfold seq, visit at 1.
    destruct (decide (uuid c ∈ gone)) as [Hin|_].
    { exfalso. apply (Hg (uuid c)); [set_solver | exact Hin]. }
    rewrite E1, E2, C2, C1, D2, D1, <- app_assoc.
    split; [reflexivity|]. split; [reflexivity|].
    rewrite list_to_set_app_L. set_solver.
Qed.

Lemma first_visit_node o : forall w,
  NoDup (uuids o) ->
  (forall u, u ∈ uuids o -> u ∉ detached w) ->
  first_visit o w.
Proof.
  induction o as [u g m cs IH] using Object3D_nested_ind.
  intros w Hnd Hw. simpl in Hnd, Hw.
  apply NoDup_cons in Hnd as (Hu & Hnd).
  destruct (first_visit_children cs IH (detached w) w Hnd)
    as (w1 & E1 & C1 & D1).
  { intros x Hx. apply Hw. set_solver. }
  { intros x Hx. apply Hw. set_solver. }
  destruct (finish_node (mkObject3D u g m cs) w w1 E1) as (w' & E & C & D).
  exists w'. split; [exact E|]. simpl. rewrite C, C1, D, D1, <- app_assoc.
  split; [reflexivity|]. simpl. set_solver.
Qed.

(** A visit of any object from any world completes; afterwards the object
    and every one of its children is detached. *)
Definition visited (o : Object3D) (w w' : World) : Prop :=
  disposeObject3D_node faulty o w = (Normal, w') /\
  detached w ⊆ detached w' /\
  uuid o ∈ detached w' /\
  (forall c, c ∈ children o -> uuid c ∈ detached w').

Lemma visit_children_total cs :
  Forall (fun c => forall w, exists w', visited c w w') cs ->
  forall gone w, gone ⊆ detached w ->
    exists w',
      for_each (visit gone) cs w = (Normal, w') /\
      detached w ⊆ detached w' /\
      (forall c, c ∈ cs -> uuid c ∈ detached w').
Proof.
  induction 1 as [|c cs Hc _ IH]; intros gone w Hg; simpl.
  - exists w. split; [reflexivity|]. split; [reflexivity|]. set_solver.
  - unfold seq, visit at 1. destruct (decide (uuid c ∈ gone)) as [Hin|Hout].
    + destruct (IH gone w Hg) as (w2 & E2 & S2 & A2).
      exists w2. unfold skip. rewrite E2. split; [reflexivity|].
      split; [exact S2|]. intros c' Hc'. set_solver.
    + destruct (Hc w) as (w1 & E1 & S1 & U1 & _).
      destruct (IH gone w1) as (w2 & E2 & S2 & A2); [set_solver|].
      exists w2. rewrite E1, E2. split; [reflexivity|].
      split; [set_solver|]. intros c' Hc'. set_solver.
Qed.

Lemma visit_total o : forall w, exists w', visited o w w'.
Proof.
  induction o as [u g m cs IH] using Object3D_nested_ind. intros w.
  destruct (visit_children_total cs IH (detached w) w) as (w1 & E1 & S1 & A1);
    [reflexivity|].
  destruct (finish_node (mkObject3D u g m cs) w w1 E1) as (w' & E & _ & D).
  exists w'. split; [exact E|]. rewrite D. simpl.
  split; [set_solver|]. split; [set_solver|]. intros c Hc. set_solver.
Qed.

Lemma children_all_skipped cs gone w :
  (forall c, c ∈ cs -> uuid c ∈ gone) ->
  for_each (visit gone) cs w = (Normal, w).
Proof.
  induction cs as [|c cs IH]; intros Hall; simpl; [reflexivity|].
  unfold seq, visit at 1.
  destruct (decide (uuid c ∈ gone)) as [_|Hout].
  - unfold skip. apply IH. intros c' Hc'. apply Hall. set_solver.
  - exfalso. apply Hout, Hall. set_solver.
Qed.

(** A visit of an object whose children have all left it already only
    touches the object's own resources. *)
Lemma childless_visit o w :
  (forall c, c ∈ children o -> uuid c ∈ detached w) ->
  exists w',
    disposeObject3D_node faulty o w = (Normal, w') /\
    dispose_calls (log w') = dispose_calls (log w) ++ own_refs o /\
    detached w' = detached w ∪ {[uuid o]}.
Proof.
  intros Hall.
  apply (finish_node o w w). apply children_all_skipped, Hall.
Qed.

End DisposerFacts.


(** *** The claims about [disposeObject3D] *)

(** How many slots of the graph under [o] hold handle [h]. *)
Definition references (h : Handle) (o : Object3D) : nat :=
  length (filter (fun c => snd c = h) (postorder_refs o)).

(** A parent group with two meshes that share one material object (and
    with it one texture), as instanced or cloned meshes do. *)
Definition shared_material : Material :=
  mkMaterial 20 [("color", VOther); ("map", VTexture 30)].

Definition two_meshes_one_material : Object3D :=
  mkObject3D 0 Absent Absent
    [ mkObject3D 1 (Present 10) (Present (Single shared_material)) [];
      mkObject3D 2 (Present 11) (Present (Single shared_material)) [] ].

(** C5, as the claim states it, fails: in a graph whose two meshes share a
    material, one call of [disposeObject3D] invokes [dispose()] twice on
    the shared material and twice on its texture. *)
Lemma shared_resource_disposed_twice :
  let w := snd (disposeObject3D (fun _ => false)
                  (Some two_meshes_one_material) fresh) in
  NoDup (uuids two_meshes_one_material) /\
  In (KMaterial, 20%nat) (postorder_refs two_meshes_one_material) /\
  In (KTexture, 30%nat) (postorder_refs two_meshes_one_material) /\
  times_disposed 20 (log w) = 2%nat /\
  times_disposed 30 (log w) = 2%nat.
Proof.
  cbv zeta. split.
  { simpl. repeat (constructor; [set_solver|]). constructor. }
  split; [simpl; tauto|]. split; [simpl; tauto|].
  split; vm_compute; reflexivity.
Qed.

(** C5 (amended): for a graph whose objects are pairwise distinct, one call
    of [disposeObject3D] completes and makes its [dispose()] calls in
    post-order: every child subtree in full, in array order, before the
    object's own geometry, then each material's textures followed by the
    material.  Every slot that holds a resource yields exactly one call, so
    a handle receives [dispose()] once per slot holding it, and exactly once
    when a single slot holds it. *)
Theorem disposeObject3D_postorder (faulty : Handle -> bool) (o : Object3D) :
  NoDup (uuids o) ->
  let r := disposeObject3D faulty (Some o) fresh in
  fst r = Normal /\
  dispose_calls (log (snd r)) = postorder_refs o /\
  (forall h, times_disposed h (log (snd r)) = references h o) /\
  (forall h, references h o = 1%nat ->
             times_disposed h (log (snd r)) = 1%nat).
Proof.
  intros Hnd r.
  destruct (first_visit_node faulty o fresh Hnd) as (w' & E & C & _).
  { intros u _. set_solver. }
  subst r. simpl. rewrite E. simpl. simpl in C.
  assert (T : forall h, times_disposed h (log w') = references h o).
  { intros h. unfold times_disposed, references. rewrite C. reflexivity. }
  repeat split; [exact C | exact T |]. intros h Hh. rewrite T. exact Hh.
Qed.

(** Two levels of nested children, each object owning one texture. *)
Definition textured (u : nat) (tex mat : Handle) (cs : list Object3D)
  : Object3D :=
  mkObject3D u Absent
    (Present (Single (mkMaterial mat [("map", VTexture tex)]))) cs.

Definition nested_two_levels : Object3D :=
  textured 0 100 200 [ textured 1 101 201 [ textured 2 102 202 [] ] ].

Lemma disposeObject3D_postorder_witness :
  dispose_calls
    (log (snd (disposeObject3D (fun _ => false) (Some nested_two_levels)
                 fresh))) =
  [ (KTexture, 102); (KMaterial, 202);
    (KTexture, 101); (KMaterial, 201);
    (KTexture, 100); (KMaterial, 200) ]%nat.
Proof.
  apply (disposeObject3D_postorder (fun _ => false) nested_two_levels).
  simpl. repeat (constructor; [set_solver|]). constructor.
Defined.

(** A single mesh that owns a geometry. *)
Definition lone_mesh : Object3D := mkObject3D 0 (Present 10) Absent [].

(** C6, as the claim states it, fails: the second call on the same mesh
    invokes [dispose()] on its geometry again, so two calls leave two calls
    on the handle where one call leaves one. *)
Lemma second_call_disposes_again :
  let once := snd (disposeObject3D (fun _ => false) (Some lone_mesh) fresh) in
  let twice := snd (disposeObject3D (fun _ => false) (Some lone_mesh) once) in
  times_disposed 10 (log once) = 1%nat /\
  times_disposed 10 (log twice) = 2%nat.
Proof. cbv zeta. split; vm_compute; reflexivity. Qed.

(** C6 (amended): [null] input is a no-op; on any graph, from any state,
    the first and the second call both complete without an error escaping;
    the second call does not reach below the root (the first call detached
    every child), but it invokes [dispose()] once more on every resource
    slot of the root object itself. *)
Theorem disposeObject3D_twice (faulty : Handle -> bool) (o : Object3D)
    (w : World) :
  let r1 := disposeObject3D faulty (Some o) w in
  let r2 := disposeObject3D faulty (Some o) (snd r1) in
  disposeObject3D faulty None w = (Normal, w) /\
  fst r1 = Normal /\
  fst r2 = Normal /\
  dispose_calls (log (snd r2)) = dispose_calls (log (snd r1)) ++ own_refs o.
Proof.
  intros r1 r2. split; [reflexivity|].
  destruct (visit_total faulty o w) as (w1 & E1 & _ & _ & Hcs).
  destruct (childless_visit faulty o w1 Hcs) as (w2 & E2 & C2 & _).
  subst r1 r2. simpl. rewrite E1. simpl. rewrite E2. simpl. easy.
Qed.

End ResourceDisposer.

(* ===================================================================== *)
(** ** CameraController.ts *)
(* ===================================================================== *)

Module CameraController.

Record Vector3 := mkVector3 { vx : Q; vy : Q; vz : Q }.

(** [CameraTransitionOptions]; a callback is known by its identity. *)
Record CameraTransitionOptions := mkOptions {
  duration : option Q;
  ease : option string;
  onStart : option nat;
  onUpdate : option nat;
  onComplete : option nat
}.

Definition no_options : CameraTransitionOptions :=
  mkOptions None None None None None.

(** The life of a timeline inside the animation engine: it plays until it
    either reaches its end or is killed. *)
Inductive Status := Running | Killed | Completed.

(** A promise is settled at most once: [resolve] and [reject] act on a
    pending promise only. *)
Inductive PromiseState := Pending | Resolved | Rejected.

Definition resolve (p : PromiseState) : PromiseState :=
  match p with Pending => Resolved | _ => p end.

Definition reject (p : PromiseState) : PromiseState :=
  match p with Pending => Rejected | _ => p end.

(** What the code hands to three.js where a [Vector3] is expected: an
    instance of the class, or an object literal [{ x, y, z }], which has the
    fields of a vector and none of its methods. *)
Inductive JsVector := Vector3Instance | PlainObject.

(** three.js, [getWorldDirection(target)]: the direction is written with
    [target.set(...)] and the result normalised.  The call completes on a
    [Vector3]; on an object without a [set] method it throws a [TypeError].
    The result says whether the call completes. *)
Definition getWorldDirection (target : JsVector) : bool :=
  match target with Vector3Instance => true | PlainObject => false end.

(** A timeline created by [transitionTo] together with the promise that
    [transitionTo] returned for it.  [to_position] is the goal of the tween
    on [camera.position]; [to_target] is the goal of the tween that calls
    [camera.lookAt], when that tween was added. *)
Record Timeline := mkTimeline {
  status : Status;
  to_position : Vector3;
  to_target : option Vector3;
  tween_duration : Q;
  tween_ease : string;
  hooks : CameraTransitionOptions;
  promise : PromiseState
}.

Record Camera := mkCamera {
  position : Vector3;
  looking_at : Vector3;
  aspect : Q
}.

Inductive Event :=
| HookCalled (callback : nat)
| ParallaxTween (offsetX offsetY : Q).

(** The controller ([camera], [activeTween]), the engine's timelines (a
    timeline is known by its index), the static state of [ReducedMotion],
    and what user callbacks and fire-and-forget tweens were started. *)
Record World := mkWorld {
  camera : Camera;
  activeTween : option nat;
  timelines : list Timeline;
  motion : ReducedMotion.Statics;
  log : list Event
}.

Definition create (c : Camera) : World :=
  mkWorld c None [] ReducedMotion.initial [].

Definition set_status (s : Status) (t : Timeline) : Timeline :=
  mkTimeline s (to_position t) (to_target t) (tween_duration t)
    (tween_ease t) (hooks t) (promise t).

(** [if (this.activeTween) { this.activeTween.kill(); this.activeTween = null; }] *)
Definition kill_active (w : World) : World :=
  match activeTween w with
  | None => w
  | Some id =>
    mkWorld (camera w) None (alter (set_status Killed) id (timelines w))
      (motion w) (log w)
  end.

(** [onStart?.()], [onUpdate?.()], [onComplete?.()]: the call is recorded;
    a user callback is taken not to call back into the controller. *)
Definition call_hook (h : option nat) (l : list Event) : list Event :=
  match h with Some c => l ++ [HookCalled c] | None => l end.

(** [transitionTo(position, target, options = {})]; the result is the
    index of the new timeline, which also names the returned promise.

    The executor of [new Promise] creates the timeline and adds the tween on
    [camera.position]; it then builds [tempTarget = { x: 0, y: 0, z: 0 }]
    and calls [this.camera.getWorldDirection(tempTarget)].  If that call
    throws, the [Promise] constructor rejects the promise and the rest of
    the executor, the second tween and [this.activeTween = timeline], does
    not run; the timeline exists all the same and the engine plays it. *)
Definition transitionTo (b : ReducedMotion.Browser)
    (pos target : Vector3) (options : CameraTransitionOptions) (w : World)
  : nat * World :=
  let w1 := kill_active w in
  let d := match duration options with Some d => d | None => 6 # 10 end in
  let e := match ease options with Some e => e | None => "power2.inOut"%string end in
  let '(adjustedDuration, ms) :=
    ReducedMotion.getAdjustedDuration b (motion w1) d (Some (1 # 100)) in
  let id := length (timelines w1) in
  let tempTarget := PlainObject in
  if getWorldDirection tempTarget then
    let timeline :=
      mkTimeline Running pos (Some target) adjustedDuration e options
        Pending in
    (id, mkWorld (camera w1) (Some id) (timelines w1 ++ [timeline]) ms
           (log w1))
  else
    let timeline :=
      mkTimeline Running pos None adjustedDuration e options
        (reject Pending) in
    (id, mkWorld (camera w1) (activeTween w1) (timelines w1 ++ [timeline]) ms
           (log w1)).

(** [setPosition(position, target?)] *)
Definition setPosition (pos : Vector3) (target : option Vector3) (w : World)
  : World :=
  let w1 := kill_active w in
  let look := match target with
              | Some t => t
              | None => looking_at (camera w1)
              end in
  mkWorld (mkCamera pos look (aspect (camera w1))) (activeTween w1)
    (timelines w1) (motion w1) (log w1).

(** [getTarget()] passes a fresh [Vector3] to [getWorldDirection]; only
    whether the call completes is kept. *)
Definition getTarget_completes : bool := getWorldDirection Vector3Instance.

(** [isTransitioning()] *)
Definition isTransitioning (w : World) : bool :=
  match activeTween w with
  | None => false
  | Some id =>
    match timelines w !! id with
    | Some t => match status t with Running => true | _ => false end
    | None => false
    end
  end.

(** [cancelTransition()] *)
Definition cancelTransition (w : World) : World := kill_active w.

(** [applyParallax(pointerX, pointerY, strength = 0.02)]: the tween is
    started; it writes nothing before the engine renders it. *)
Definition applyParallax (pointerX pointerY : Q) (strength : option Q)
    (w : World) : World :=
  if isTransitioning w then w
  else
    let s := match strength with Some s => s | None => 2 # 100 end in
    mkWorld (camera w) (activeTween w) (timelines w) (motion w)
      (log w ++ [ParallaxTween (pointerX * s) (pointerY * s)]).

(** [updateAspect(width, height)] *)
Definition updateAspect (width height : Q) (w : World) : World :=
  mkWorld (mkCamera (position (camera w)) (looking_at (camera w))
             (width / height))
    (activeTween w) (timelines w) (motion w) (log w).

(** [dispose()] *)
Definition dispose (w : World) : World := cancelTransition w.

(** *** The animation engine

    The engine drives only timelines that are still playing: a timeline
    that was killed or has completed receives no further callback.  The
    values a frame writes are the engine's: the eased values of the tweens,
    or others where a later tween on the same object has taken a property
    over; they are an input of the step. *)

Definition playing (id : nat) (w : World) : option Timeline :=
  match timelines w !! id with
  | Some t => match status t with Running => Some t | _ => None end
  | None => None
  end.

(** What a frame of timeline [tl] leaves in the camera: the position tween
    writes [camera.position]; the other tween, if the timeline has it,
    calls [camera.lookAt]. *)
Definition render (tl : Timeline) (p t : Vector3) (c : Camera) : Camera :=
  mkCamera p
    (match to_target tl with Some _ => t | None => looking_at c end)
    (aspect c).

(** The engine starts timeline [id]: the [onStart] hook runs. *)
Definition engine_start (id : nat) (w : World) : World :=
  match playing id w with
  | None => w
  | Some t =>
    mkWorld (camera w) (activeTween w) (timelines w) (motion w)
      (call_hook (onStart (hooks t)) (log w))
  end.

(** The engine renders a frame of timeline [id], then the timeline's
    [onUpdate] hook runs. *)
Definition engine_update (id : nat) (p t : Vector3) (w : World) : World :=
  match playing id w with
  | None => w
  | Some tl =>
    mkWorld (render tl p t (camera w)) (activeTween w) (timelines w)
      (motion w) (call_hook (onUpdate (hooks tl)) (log w))
  end.

(** Timeline [id] reaches its end: the last frame is rendered, then the
    timeline's [onComplete] runs:
    [this.activeTween = null; onComplete?.(); resolve();]. *)
Definition engine_complete (id : nat) (p t : Vector3) (w : World) : World :=
  match playing id w with
  | None => w
  | Some tl =>
    let done := mkTimeline Completed (to_position tl) (to_target tl)
                  (tween_duration tl) (tween_ease tl) (hooks tl)
                  (resolve (promise tl)) in
    mkWorld (render tl p t (camera w)) None (<[id := done]> (timelines w))
      (motion w) (call_hook (onComplete (hooks tl)) (log w))
  end.

Definition is_parallax (e : Event) : bool :=
  match e with ParallaxTween _ _ => true | HookCalled _ => false end.

(** The engine renders a frame of a tween started by [applyParallax]. *)
Definition engine_parallax (p : Vector3) (w : World) : World :=
  if existsb is_parallax (log w) then
    mkWorld (mkCamera p (looking_at (camera w)) (aspect (camera w)))
      (activeTween w) (timelines w) (motion w) (log w)
  else w.

(** Everything that can happen to a controller. *)
Inductive Step :=
| DoTransitionTo (b : ReducedMotion.Browser) (pos target : Vector3)
    (options : CameraTransitionOptions)
| DoSetPosition (pos : Vector3) (target : option Vector3)
| DoCancelTransition
| DoApplyParallax (pointerX pointerY : Q) (strength : option Q)
| DoUpdateAspect (width height : Q)
| DoDispose
| EngineStart (id : nat)
| EngineUpdate (id : nat) (p t : Vector3)
| EngineComplete (id : nat) (p t : Vector3)
| EngineParallax (p : Vector3).

Definition step (w : World) (s : Step) : World :=
  match s with
  | DoTransitionTo b pos target options =>
      snd (transitionTo b pos target options w)
  | DoSetPosition pos target => setPosition pos target w
  | DoCancelTransition => cancelTransition w
  | DoApplyParallax px py s => applyParallax px py s w
  | DoUpdateAspect wd ht => updateAspect wd ht w
  | DoDispose => dispose w
  | EngineStart id => engine_start id w
  | EngineUpdate id p t => engine_update id p t w
  | EngineComplete id p t => engine_complete id p t w
  | EngineParallax p => engine_parallax p w
  end.

Definition run (steps : list Step) (w : World) : World :=
  fold_left step steps w.

(** Timeline [id] is an active transition: the engine is playing it. *)
Definition active (id : nat) (w : World) : Prop :=
  exists t, timelines w !! id = Some t /\ status t = Running.

Definition is_running (t : Timeline) : bool :=
  match status t with Running => true | _ => false end.

(** How many transitions are active. *)
Definition active_count (w : World) : nat :=
  length (List.filter is_running (timelines w)).

(** A step that is not the engine completing timeline [id]. *)
Definition leaves_playing (id : nat) (s : Step) : bool :=
  match s with
  | EngineComplete j _ _ => negb (j =? id)
  | _ => true
  end.

(** *** What holds in every state a controller reaches *)

Local Open Scope nat_scope.

(** [transitionTo] never records its timeline, so nothing is ever killed;
    every timeline has the position tween only and a rejected promise. *)
Record Inv (w : World) : Prop := mkInv {
  never_recorded : activeTween w = None;
  position_only :
    forall id t, timelines w !! id = Some t ->
      to_target t = None /\ promise t = Rejected /\ status t <> Killed
}.

Lemma Inv_create c : Inv (create c).
Proof. split; [reflexivity | intros id t H; discriminate]. Qed.

Lemma kill_active_idle w : activeTween w = None -> kill_active w = w.
Proof. intros H. unfold kill_active. rewrite H. reflexivity. Qed.

Lemma isTransitioning_idle w : activeTween w = None -> isTransitioning w = false.
Proof. intros H. unfold isTransitioning. rewrite H. reflexivity. Qed.

(** What [transitionTo] comes to when no timeline is recorded. *)
Lemma transitionTo_idle b pos target options w :
  activeTween w = None ->
  exists d e ms,
    transitionTo b pos target options w =
    (length (timelines w),
     mkWorld (camera w) None
       (timelines w ++
        [mkTimeline Running pos None d e options Rejected]) ms (log w)).
Proof.
  intros H. unfold transitionTo. rewrite (kill_active_idle w H).
  destruct (ReducedMotion.getAdjustedDuration _ _ _ _) as [d ms].
  simpl. rewrite H. eexists _, _, _. reflexivity.
Qed.

Lemma playing_Some id w t :
  playing id w = Some t <-> timelines w !! id = Some t /\ status t = Running.
Proof.
  unfold playing. destruct (timelines w !! id) as [t'|].
  - destruct (status t') eqn:E; split.
    + intros [= <-]. easy.
    + intros [[= <-] _]. reflexivity.
    + discriminate.
    + intros [[= <-] H]. congruence.
    + discriminate.
    + intros [[= <-] H]. congruence.
  - split; [discriminate | intros [H _]; discriminate].
Qed.

Lemma engine_complete_lookup id p v w tl j :
  playing id w = Some tl ->
  timelines (engine_complete id p v w) !! j =
  if decide (j = id)
  then Some (mkTimeline Completed (to_position tl) (to_target tl)
               (tween_duration tl) (tween_ease tl) (hooks tl)
               (resolve (promise tl)))
  else timelines w !! j.
Proof.
  intros Hp. unfold engine_complete. rewrite Hp. simpl.
  apply playing_Some in Hp as [Hl _]. apply lookup_lt_Some in Hl.
  destruct (decide (j = id)) as [->|N].
  - apply list_lookup_insert_eq, Hl.
  - apply list_lookup_insert_ne. congruence.
Qed.

Lemma Inv_same_timelines w w' :
  timelines w' = timelines w -> activeTween w' = activeTween w ->
  Inv w -> Inv w'.
Proof.
  intros Ht Ha [H1 H2]. split; [congruence|]. rewrite Ht. exact H2.
Qed.

Lemma Inv_transitionTo b pos target options w :
  Inv w -> Inv (snd (transitionTo b pos target options w)).
Proof.
  intros [H1 H2].
  destruct (transitionTo_idle b pos target options w H1)
    as (d & e & ms & ->). simpl.
  split; [reflexivity|]. simpl. intros id t Hl.
  apply lookup_app_Some in Hl as [Hl|[_ Hl]]; [apply (H2 id t Hl)|].
  apply list_lookup_singleton_Some in Hl as [_ <-]. simpl. easy.
Qed.

Lemma Inv_engine_complete id p v w : Inv w -> Inv (engine_complete id p v w).
Proof.
  intros HI. destruct (playing id w) as [tl|] eqn:Hp.
  2:{ unfold engine_complete. rewrite Hp. exact HI. }
  pose proof (engine_complete_lookup id p v w tl) as HL.
  destruct HI as [H1 H2]. split.
  - unfold engine_complete. rewrite Hp. reflexivity.
  - intros j t Hj. rewrite HL in Hj by exact Hp.
    destruct (decide (j = id)) as [->|Hne]; [|apply (H2 j t Hj)].
    injection Hj as <-. simpl.
    apply playing_Some in Hp as [Hl _].
    destruct (H2 id tl Hl) as (A & B & _). rewrite A, B. easy.
Qed.

Lemma Inv_step w s : Inv w -> Inv (step w s).
Proof.
  intros HI. pose proof (never_recorded w HI) as Hn.
  destruct s; simpl.
  - apply Inv_transitionTo, HI.
  - unfold setPosition. rewrite (kill_active_idle w Hn).
    apply (Inv_same_timelines w); easy.
  - unfold cancelTransition. rewrite (kill_active_idle w Hn). exact HI.
  - unfold applyParallax. destruct (isTransitioning w); [exact HI|].
    apply (Inv_same_timelines w); easy.
  - apply (Inv_same_timelines w); easy.
  - unfold dispose, cancelTransition. rewrite (kill_active_idle w Hn).
    exact HI.
  - unfold engine_start. destruct (playing id w); [|exact HI].
    apply (Inv_same_timelines w); easy.
  - unfold engine_update. destruct (playing id w); [|exact HI].
    apply (Inv_same_timelines w); easy.
  - apply Inv_engine_complete, HI.
  - unfold engine_parallax. destruct (existsb _ _); [|exact HI].
    apply (Inv_same_timelines w); easy.
Qed.

Lemma Inv_run steps w : Inv w -> Inv (run steps w).
Proof.
  revert w. induction steps as [|s steps IH]; intros w HI; simpl; [exact HI|].
  apply IH, Inv_step, HI.
Qed.

(** Only the engine completing a timeline takes it out of play, and no
    step touches its hooks or settles its promise anew. *)
Lemma step_leaves_playing w s id t :
  Inv w -> timelines w !! id = Some t -> leaves_playing id s = true ->
  timelines (step w s) !! id = Some t.
Proof.
  intros HI Hl Hk. pose proof (never_recorded w HI) as Hn.
  destruct s; simpl in Hk |- *.
  - destruct (transitionTo_idle b pos target options w Hn)
      as (d & e & ms & ->). simpl. apply lookup_app_l_Some, Hl.
  - unfold setPosition. rewrite (kill_active_idle w Hn). exact Hl.
  - unfold cancelTransition. rewrite (kill_active_idle w Hn). exact Hl.
  - unfold applyParallax. destruct (isTransitioning w); exact Hl.
  - exact Hl.
  - unfold dispose, cancelTransition. rewrite (kill_active_idle w Hn).
    exact Hl.
  - unfold engine_start. destruct (playing id0 w); exact Hl.
  - unfold engine_update. destruct (playing id0 w); exact Hl.
  - apply negb_true_iff, Nat.eqb_neq in Hk.
    destruct (playing id0 w) as [tl|] eqn:Hp.
    + rewrite (engine_complete_lookup id0 p t0 w tl id Hp).
      rewrite decide_False by congruence. exact Hl.
    + unfold engine_complete. rewrite Hp. exact Hl.
  - unfold engine_parallax. destruct (existsb _ _); exact Hl.
Qed.


(** A timeline keeps its place, its hooks and its promise under every step;
    only its status can change. *)
Lemma step_keeps_promise w s id t :
  Inv w -> timelines w !! id = Some t ->
  exists t', timelines (step w s) !! id = Some t' /\
             hooks t' = hooks t /\ promise t' = promise t.
Proof.
  intros HI Hl.
  destruct (leaves_playing id s) eqn:Hk.
  - exists t. split; [|easy]. apply step_leaves_playing; assumption.
  - destruct s; try discriminate. simpl in Hk.
    apply negb_false_iff, Nat.eqb_eq in Hk. subst id0. simpl.
    destruct (playing id w) as [tl|] eqn:Hp.
    + rewrite (engine_complete_lookup id p t0 w tl id Hp).
      rewrite decide_True by reflexivity.
      apply playing_Some in Hp as [Hl' _]. rewrite Hl in Hl'.
      injection Hl' as <-. eexists. split; [reflexivity|]. simpl.
      split; [reflexivity|].
      destruct (position_only w HI id t Hl) as (_ & -> & _). reflexivity.
    + unfold engine_complete. rewrite Hp. exists t. easy.
Qed.

Lemma run_keeps_promise more : forall w id t,
  Inv w -> timelines w !! id = Some t ->
  exists t', timelines (run more w) !! id = Some t' /\
             hooks t' = hooks t /\ promise t' = promise t.
Proof.
  induction more as [|s more IH]; intros w id t HI Hl.
  - exists t. easy.
  - destruct (step_keeps_promise w s id t HI Hl) as (t1 & Hl1 & Hh1 & Hp1).
    destruct (IH (step w s) id t1 (Inv_step w s HI) Hl1)
      as (t2 & Hl2 & Hh2 & Hp2).
    exists t2. simpl. split; [exact Hl2|]. split; congruence.
Qed.

Lemma active_count_snoc ts t :
  length (List.filter is_running (ts ++ [t])) =
  length (List.filter is_running ts) + (if is_running t then 1 else 0).
Proof.
  rewrite List.filter_app, length_app. simpl.
  destruct (is_running t); reflexivity.
Qed.

(** C7, on the code: [transitionTo] and [setPosition] cancel nothing.  The
    executor of [transitionTo] throws before [this.activeTween = timeline],
    so in every state a controller reaches no timeline is recorded and none
    has been killed.  A [transitionTo] call therefore leaves every active
    transition active and adds one: the number of active transitions grows
    by one with each call.  [setPosition] places the camera at once, and
    the transitions that were active stay active. *)
Theorem transitions_are_never_cancelled (c : Camera) (steps : list Step) :
  let w := run steps (create c) in
  activeTween w = None /\
  (forall id t, timelines w !! id = Some t -> status t <> Killed) /\
  (forall b pos target options,
     let r := transitionTo b pos target options w in
     fst r = length (timelines w) /\
     activeTween (snd r) = None /\
     active (fst r) (snd r) /\
     (forall i, active i w -> active i (snd r)) /\
     active_count (snd r) = S (active_count w)) /\
  (forall pos target,
     let w' := setPosition pos target w in
     position (camera w') = pos /\
     (forall i, active i w <-> active i w') /\
     active_count w' = active_count w).
Proof.
  intros w. pose proof (Inv_run steps (create c) (Inv_create c)) as HI.
  fold w in HI. pose proof (never_recorded w HI) as Hn.
  split; [exact Hn|]. split; [|split].
  - intros id t Hl. apply (position_only w HI id t Hl).
  - intros b pos target options r. subst r.
    destruct (transitionTo_idle b pos target options w Hn)
      as (d & e & ms & ->). simpl.
    split; [reflexivity|]. split; [reflexivity|]. split; [|split].
    + eexists. split.
      * simpl. rewrite lookup_app_r by lia. rewrite Nat.sub_diag.
        reflexivity.
      * reflexivity.
    + intros i (t & Hl & Hr). exists t. split; [|exact Hr]. simpl.
      apply lookup_app_l_Some, Hl.
    + unfold active_count. simpl. rewrite active_count_snoc. simpl. lia.
  - intros pos target w'. subst w'. unfold setPosition.
    rewrite (kill_active_idle w Hn). simpl.
    split; [reflexivity|]. split; [|reflexivity]. intros i. reflexivity.
Qed.

Lemma transitions_are_never_cancelled_witness :
  let c := mkCamera (mkVector3 0 0 5) (mkVector3 0 0 0) 1%Q in
  let b := ReducedMotion.mkBrowser true false in
  let w := run [DoTransitionTo b (mkVector3 1 2 3) (mkVector3 0 0 0)
                  no_options] (create c) in
  let r := transitionTo b (mkVector3 4 5 6) (mkVector3 0 0 0) no_options w in
  active 0 (snd r) /\ active 1 (snd r) /\ active_count (snd r) = 2 /\
  isTransitioning (snd r) = false.
Proof.
  cbv zeta.
  destruct (transitions_are_never_cancelled
              (mkCamera (mkVector3 0 0 5) (mkVector3 0 0 0) 1%Q)
              [DoTransitionTo (ReducedMotion.mkBrowser true false)
                 (mkVector3 1 2 3) (mkVector3 0 0 0) no_options])
    as (_ & _ & H & _).
  destruct (H (ReducedMotion.mkBrowser true false) (mkVector3 4 5 6)
              (mkVector3 0 0 0) no_options)
    as (_ & _ & Hnew & Hold & Hcount).
  split; [|split; [|split]].
  - apply Hold. eexists. split; reflexivity.
  - exact Hnew.
  - exact Hcount.
  - reflexivity.
Defined.

(** C8, on the code: the promise [transitionTo] returns is never resolved.
    The call creates a playing timeline for the requested position that
    carries the caller's hooks, but the executor throws before it ends, so
    the promise is rejected when the call returns.  It stays rejected
    whatever happens afterwards; when the timeline completes, [onComplete]
    runs and [resolve()] is called on the rejected promise, to no effect. *)
Theorem transitionTo_promise_is_rejected (c : Camera) (steps : list Step)
    (b : ReducedMotion.Browser) (pos target : Vector3)
    (options : CameraTransitionOptions) (more : list Step) :
  let w := run steps (create c) in
  let r := transitionTo b pos target options w in
  let w' := run more (snd r) in
  (exists t, timelines (snd r) !! fst r = Some t /\
             status t = Running /\ to_position t = pos /\
             to_target t = None /\ hooks t = options /\
             promise t = Rejected) /\
  (exists t, timelines w' !! fst r = Some t /\
             hooks t = options /\ promise t = Rejected) /\
  (forall p v, active (fst r) w' ->
     let w'' := step w' (EngineComplete (fst r) p v) in
     exists t, timelines w'' !! fst r = Some t /\
               status t = Completed /\ promise t = Rejected /\
               log w'' = call_hook (onComplete options) (log w')).
Proof.
  intros w r w'.
  pose proof (Inv_run steps (create c) (Inv_create c)) as HI0.
  fold w in HI0.
  pose proof (Inv_transitionTo b pos target options w HI0) as HI.
  fold r in HI.
  assert (Hnew : exists d e,
            timelines (snd r) !! fst r =
            Some (mkTimeline Running pos None d e options Rejected)).
  { subst r.
    destruct (transitionTo_idle b pos target options w
                (never_recorded w HI0)) as (d & e & ms & ->). simpl.
    exists d, e. rewrite lookup_app_r by lia. rewrite Nat.sub_diag.
    reflexivity. }
  destruct Hnew as (d & e & Hl).
  destruct (run_keeps_promise more (snd r) (fst r) _ HI Hl)
    as (t' & Hl' & Hh' & Hp'). fold w' in Hl'. simpl in Hh', Hp'.
  split; [|split].
  - eexists. split; [exact Hl|]. simpl. easy.
  - exists t'. easy.
  - intros p v (t & Ht & Hr) w''. subst w''.
    rewrite Hl' in Ht. injection Ht as <-.
    assert (Hp : playing (fst r) w' = Some t')
      by (apply playing_Some; easy).
    simpl. rewrite (engine_complete_lookup _ p v w' t' (fst r) Hp).
    rewrite decide_True by reflexivity.
    eexists. split; [reflexivity|]. simpl. split; [reflexivity|].
    split; [rewrite Hp'; reflexivity|].
    unfold engine_complete. rewrite Hp. simpl. rewrite Hh'. reflexivity.
Qed.

Lemma transitionTo_promise_is_rejected_witness :
  let c := mkCamera (mkVector3 0 0 5) (mkVector3 0 0 0) 1%Q in
  let b := ReducedMotion.mkBrowser true false in
  let w := run [DoTransitionTo b (mkVector3 1 2 3) (mkVector3 0 0 0)
                  (mkOptions None None None None (Some 9));
                EngineStart 0;
                EngineUpdate 0 (mkVector3 0 1 4) (mkVector3 0 0 0);
                EngineComplete 0 (mkVector3 1 2 3) (mkVector3 0 0 0)]
             (create c) in
  exists t, timelines w !! 0 = Some t /\ status t = Completed /\
            promise t = Rejected /\ log w = [HookCalled 9].
Proof.
  cbv zeta.
  destruct (transitionTo_promise_is_rejected
              (mkCamera (mkVector3 0 0 5) (mkVector3 0 0 0) 1%Q) []
              (ReducedMotion.mkBrowser true false)
              (mkVector3 1 2 3) (mkVector3 0 0 0)
              (mkOptions None None None None (Some 9))
              [EngineStart 0;
               EngineUpdate 0 (mkVector3 0 1 4) (mkVector3 0 0 0)])
    as (_ & _ & H).
  destruct (H (mkVector3 1 2 3) (mkVector3 0 0 0))
    as (t & Hl & Hs & Hp & Hlog).
  - eexists. split; reflexivity.
  - exists t. split; [exact Hl|]. split; [exact Hs|]. split; [exact Hp|].
    exact Hlog.
Defined.

End CameraController.

(* ===================================================================== *)
(** ** AssetLoader.ts *)
(* ===================================================================== *)

Module AssetLoader.

Local Open Scope nat_scope.

(** [loadModel] and [loadTexture] are the same code over two caches and two
    underlying loaders. *)
Inductive AssetKind := Model | Texture.

#[local] Instance AssetKind_eq_dec : EqDecision AssetKind.
Proof. solve_decision. Defined.

(** A loaded [GLTF] or [THREE.Texture], known by the identity of the object
    the underlying loader produced. *)
Definition Asset := nat.

(** The errors that reach a caller or a callback: the cause the underlying
    loader reported, [new Error(`Failed to load ...`)] built by the loading
    manager's handler, and [new Error(errorMessage)] built after the loop. *)
Inductive Error :=
| LoadFailure (cause : nat)
| FailedToLoad (url : string)
| Exhausted (k : AssetKind) (url : string) (maxRetries : nat).

(** Where a call of [loadModel]/[loadTexture] stands.  An [async] function
    runs until it reaches an [await] and continues when the awaited promise
    settles; the two [await]s are the underlying load and the backoff
    delay. *)
Inductive TaskState :=
| AwaitingLoad (attempt : nat) (request : nat)
| AwaitingDelay (attempt : nat) (timer : nat)
| Fulfilled (a : Asset)
| Rejected (e : Error).

(** One call: its arguments, the local [lastError], and its state. *)
Record Task := mkTask {
  kind : AssetKind;
  url : string;
  maxRetries : nat;
  lastError : option Error;
  state : TaskState
}.

(** One call of the underlying [gltfLoader.load] / [textureLoader.load]. *)
Record Request := mkRequest {
  req_kind : AssetKind;
  req_url : string;
  req_task : nat;
  req_attempt : nat;
  req_settled : bool
}.

(** One call of [delay(ms)]. *)
Record Timer := mkTimer {
  timer_task : nat;
  timer_ms : nat;
  timer_fired : bool
}.

Inductive Notice :=
| Warned (k : AssetKind) (u : string) (attempt limit : nat) (e : Error)
| ProgressCallback (callback : nat) (u : string) (loaded total progress : Q)
| LoadCallback (callback : nat)
| ErrorCallback (callback : nat) (u : string) (e : Error).

(** The loader instance, the calls made on it so far, and what they asked
    of the outside: requests to the underlying loaders, timers, console
    warnings and error-callback invocations. *)
Record Loader := mkLoader {
  modelCache : gmap string Asset;
  textureCache : gmap string Asset;
  onProgressCallback : option nat;
  onLoadCallback : option nat;
  onErrorCallback : option nat;
  tasks : list Task;
  requests : list Request;
  timers : list Timer;
  notices : list Notice
}.

Definition create : Loader := mkLoader ∅ ∅ None None None [] [] [] [].

Definition cache_of (k : AssetKind) (s : Loader) : gmap string Asset :=
  match k with Model => modelCache s | Texture => textureCache s end.

(** [this.modelCache.set(url, gltf)] / [this.textureCache.set(url, texture)] *)
Definition cache_set (k : AssetKind) (u : string) (a : Asset) (s : Loader)
  : Loader :=
  match k with
  | Model =>
    mkLoader (<[u := a]> (modelCache s)) (textureCache s)
      (onProgressCallback s) (onLoadCallback s) (onErrorCallback s)
      (tasks s) (requests s) (timers s) (notices s)
  | Texture =>
    mkLoader (modelCache s) (<[u := a]> (textureCache s))
      (onProgressCallback s) (onLoadCallback s) (onErrorCallback s)
      (tasks s) (requests s) (timers s) (notices s)
  end.

(** [setOnProgress(callback)], [setOnLoad(callback)], [setOnError(callback)] *)
Definition setOnProgress (callback : nat) (s : Loader) : Loader :=
  mkLoader (modelCache s) (textureCache s)
    (Some callback) (onLoadCallback s) (onErrorCallback s)
    (tasks s) (requests s) (timers s) (notices s).

Definition setOnLoad (callback : nat) (s : Loader) : Loader :=
  mkLoader (modelCache s) (textureCache s)
    (onProgressCallback s) (Some callback) (onErrorCallback s)
    (tasks s) (requests s) (timers s) (notices s).

Definition setOnError (callback : nat) (s : Loader) : Loader :=
  mkLoader (modelCache s) (textureCache s)
    (onProgressCallback s) (onLoadCallback s) (Some callback)
    (tasks s) (requests s) (timers s) (notices s).

Definition notify (n : Notice) (s : Loader) : Loader :=
  mkLoader (modelCache s) (textureCache s)
    (onProgressCallback s) (onLoadCallback s) (onErrorCallback s)
    (tasks s) (requests s) (timers s) (notices s ++ [n]).

(** The handlers the constructor installs on the [LoadingManager]; the
    manager calls them when it sees fit. *)
Definition manager_onProgress (u : string) (loaded total : Q) (s : Loader)
  : Loader :=
  match onProgressCallback s with
  | Some cb =>
    notify (ProgressCallback cb u loaded total
              (if Qle_bool total 0 then 0%Q else (loaded / total)%Q)) s
  | None => s
  end.

Definition manager_onLoad (s : Loader) : Loader :=
  match onLoadCallback s with
  | Some cb => notify (LoadCallback cb) s
  | None => s
  end.

Definition manager_onError (u : string) (s : Loader) : Loader :=
  match onErrorCallback s with
  | Some cb => notify (ErrorCallback cb u (FailedToLoad u)) s
  | None => s
  end.

(** [getCachedModel(url)] and [getCachedTexture(url)] *)
Definition getCached (k : AssetKind) (u : string) (s : Loader)
  : option Asset := cache_of k s !! u.

Definition with_tasks (ts : list Task) (s : Loader) : Loader :=
  mkLoader (modelCache s) (textureCache s)
    (onProgressCallback s) (onLoadCallback s) (onErrorCallback s)
    ts (requests s) (timers s) (notices s).

Definition with_requests (rs : list Request) (s : Loader) : Loader :=
  mkLoader (modelCache s) (textureCache s)
    (onProgressCallback s) (onLoadCallback s) (onErrorCallback s)
    (tasks s) rs (timers s) (notices s).

Definition with_timers (tms : list Timer) (s : Loader) : Loader :=
  mkLoader (modelCache s) (textureCache s)
    (onProgressCallback s) (onLoadCallback s) (onErrorCallback s)
    (tasks s) (requests s) tms (notices s).

Definition set_state (st : TaskState) (t : Task) : Task :=
  mkTask (kind t) (url t) (maxRetries t) (lastError t) st.

Definition set_lastError (e : Error) (t : Task) : Task :=
  mkTask (kind t) (url t) (maxRetries t) (Some e) (state t).

(** Store task [tid]: a new call takes the next free index. *)
Definition put_task (tid : nat) (t : Task) (s : Loader) : Loader :=
  if tid <? length (tasks s) then with_tasks (<[tid := t]> (tasks s)) s
  else with_tasks (tasks s ++ [t]) s.

(** The code after the loop: ["All retries failed"]. *)
Definition all_retries_failed (tid : nat) (t : Task) (s : Loader) : Loader :=
  let err := Exhausted (kind t) (url t) (maxRetries t) in
  let s1 := match onErrorCallback s with
            | Some cb =>
              notify (ErrorCallback cb (url t)
                        (match lastError t with Some e => e | None => err end))
                     s
            | None => s
            end in
  put_task tid (set_state (Rejected err) t) s1.

(** The head of [for (let attempt = 0; attempt < maxRetries; attempt++)]
    reached with the given [attempt]: either the body starts the
    underlying load and awaits it, or the loop is left. *)
Definition loop_head (tid : nat) (t : Task) (attempt : nat) (s : Loader)
  : Loader :=
  if attempt <? maxRetries t then
    let rid := length (requests s) in
    let s1 := with_requests
                (requests s ++ [mkRequest (kind t) (url t) tid attempt false])
                s in
    put_task tid (set_state (AwaitingLoad attempt rid) t) s1
  else all_retries_failed tid t s.

(** [async loadModel(url, maxRetries = 3)] and
    [async loadTexture(url, maxRetries = 3)], up to the first [await]. *)
Definition load (k : AssetKind) (u : string) (limit : option nat)
    (s : Loader) : Loader :=
  let n := match limit with Some n => n | None => 3 end in
  let tid := length (tasks s) in
  match cache_of k s !! u with
  | Some a => put_task tid (mkTask k u n None (Fulfilled a)) s
  | None => loop_head tid (mkTask k u n None (AwaitingLoad 0 0)) 0 s
  end.

Definition loadModel := load Model.
Definition loadTexture := load Texture.

Definition settle (rid : nat) (s : Loader) : Loader :=
  with_requests
    (alter (fun r => mkRequest (req_kind r) (req_url r) (req_task r)
                       (req_attempt r) true) rid (requests s)) s.

(** The task that awaits request [rid], if the request is still pending. *)
Definition awaiting_request (rid : nat) (s : Loader)
  : option (nat * Task * nat) :=
  match requests s !! rid with
  | Some r =>
    if req_settled r then None
    else
      match tasks s !! req_task r with
      | Some t =>
        match state t with
        | AwaitingLoad attempt rid' =>
          if rid' =? rid then Some (req_task r, t, attempt) else None
        | _ => None
        end
      | None => None
      end
  | None => None
  end.

(** The underlying loader calls [onLoad]: the awaited promise resolves and
    the call continues with [cache.set(url, asset); return asset]. *)
Definition load_succeeds (rid : nat) (a : Asset) (s : Loader) : Loader :=
  match awaiting_request rid s with
  | Some (tid, t, _) =>
    put_task tid (set_state (Fulfilled a) t)
      (cache_set (kind t) (url t) a (settle rid s))
  | None => s
  end.

(** The underlying loader calls [onError]: the awaited promise rejects and
    the call continues in the [catch] block. *)
Definition load_fails (rid : nat) (cause : nat) (s : Loader) : Loader :=
  match awaiting_request rid s with
  | Some (tid, t, attempt) =>
    let e := LoadFailure cause in
    let t1 := set_lastError e t in
    let s1 := notify (Warned (kind t) (url t) (attempt + 1) (maxRetries t) e)
                (settle rid s) in
    if attempt <? maxRetries t - 1 then
      let tm := length (timers s1) in
      let s2 := with_timers
                  (timers s1 ++ [mkTimer tid (2 ^ attempt * 1000) false]) s1 in
      put_task tid (set_state (AwaitingDelay attempt tm) t1) s2
    else loop_head tid t1 (attempt + 1) s1
  | None => s
  end.

(** The timer of a backoff delay fires: the call continues with
    [attempt++] and the loop test. *)
Definition timer_fires (tm : nat) (s : Loader) : Loader :=
  match timers s !! tm with
  | Some x =>
    if timer_fired x then s
    else
      match tasks s !! timer_task x with
      | Some t =>
        match state t with
        | AwaitingDelay attempt tm' =>
          if tm' =? tm then
            loop_head (timer_task x) t (attempt + 1)
              (with_timers
                 (<[tm := mkTimer (timer_task x) (timer_ms x) true]>
                    (timers s)) s)
          else s
        | _ => s
        end
      | None => s
      end
  | None => s
  end.

(** What can happen to a loader: a client calls it, or the outside world
    settles something a call awaits. *)
Inductive Step :=
| CallLoadModel (u : string) (limit : option nat)
| CallLoadTexture (u : string) (limit : option nat)
| CallSetOnProgress (callback : nat)
| CallSetOnLoad (callback : nat)
| CallSetOnError (callback : nat)
| ManagerProgress (u : string) (loaded total : Q)
| ManagerLoad
| ManagerError (u : string)
| LoadSucceeds (request : nat) (a : Asset)
| LoadFails (request : nat) (cause : nat)
| TimerFires (timer : nat).

Definition step (s : Loader) (e : Step) : Loader :=
  match e with
  | CallLoadModel u limit => loadModel u limit s
  | CallLoadTexture u limit => loadTexture u limit s
  | CallSetOnProgress cb => setOnProgress cb s
  | CallSetOnLoad cb => setOnLoad cb s
  | CallSetOnError cb => setOnError cb s
  | ManagerProgress u loaded total => manager_onProgress u loaded total s
  | ManagerLoad => manager_onLoad s
  | ManagerError u => manager_onError u s
  | LoadSucceeds r a => load_succeeds r a s
  | LoadFails r c => load_fails r c s
  | TimerFires tm => timer_fires tm s
  end.

Definition run (steps : list Step) (s : Loader) : Loader :=
  fold_left step steps s.

(** *** Observations *)


(** What the caller of task [tid] has received so far. *)
Definition outcome (tid : nat) (s : Loader) : option TaskState :=
  state <$> tasks s !! tid.


(** *** Calls that miss the cache *)

Lemma put_task_new t s :
  put_task (length (tasks s)) t s = with_tasks (tasks s ++ [t]) s.
Proof. unfold put_task. rewrite Nat.ltb_irrefl. reflexivity. Qed.

Lemma put_task_old tid t s :
  tid < length (tasks s) ->
  put_task tid t s = with_tasks (<[tid := t]> (tasks s)) s.
Proof.
  intros H. unfold put_task.
  destruct (Nat.ltb_spec tid (length (tasks s))); [reflexivity|lia].
Qed.

(** A call for a URL that is not cached starts one underlying load and
    awaits it; nothing else changes. *)
Lemma load_miss k u s :
  cache_of k s !! u = None ->
  load k u None s =
  with_tasks
    (tasks s ++ [mkTask k u 3 None (AwaitingLoad 0 (length (requests s)))])
    (with_requests
       (requests s ++ [mkRequest k u (length (tasks s)) 0 false]) s).
Proof.
  intros H. unfold load. rewrite H. unfold loop_head. simpl.
  unfold put_task. simpl. rewrite Nat.ltb_irrefl. reflexivity.
Qed.

(** A call for a cached URL starts no load and is fulfilled at once. *)
Lemma load_hit k u a s :
  cache_of k s !! u = Some a ->
  load k u None s =
  with_tasks (tasks s ++ [mkTask k u 3 None (Fulfilled a)]) s.
Proof. intros H. unfold load. rewrite H. apply put_task_new. Qed.









(** *** A load that keeps failing *)



(** One [loadTexture(u)] call whose three underlying loads fail with the
    causes [c0], [c1], [c2]; the timers of the two backoff delays fire in
    between. *)
Definition failing_schedule (u : string) (c0 c1 c2 : nat) : list Step :=
  [ CallLoadTexture u None;
    LoadFails 0 c0; TimerFires 0;
    LoadFails 1 c1; TimerFires 1;
    LoadFails 2 c2 ].


(** *** What the loading manager reports does not disturb a call *)














(** *** What the loading manager reports reaches the same callback *)












End AssetLoader.

(* ===================================================================== *)
(** ** SceneManager (transition protocol) *)
(* ===================================================================== *)

Module SceneManager.

Local Open Scope nat_scope.

Definition SceneId := string.

(** Modelled from the spec: [SceneManager.ts] is not among the sources
    (only its planned place in the tree and its collaborators are); these
    are the three states of section 4.7, [Idle(sceneId)],
    [Initializing(targetSceneId)] and [Transitioning(fromId, toId, progress)]. *)
Inductive State :=
| Idle (sceneId : SceneId)
| Initializing (targetSceneId : SceneId)
| Transitioning (fromId toId : SceneId) (progress : Q).

(** Modelled from the spec: the lifecycle calls and notices the protocol of
    section 4.7 makes on its collaborators (scene [init], [mount],
    [dispose], the camera transition, and the surfaced init failure). *)
Inductive Effect :=
| SceneInit (id : SceneId)
| SceneMount (id : SceneId)
| SceneDispose (id : SceneId)
| CameraTransition (toId : SceneId)
| InitFailureSurfaced (id : SceneId).

(** Modelled from the spec: the manager of section 4.7 with the
    [previousSceneId] of section 3.  [target_ready] records that step 3
    (the target scene's [init]) has finished and step 4 has been started;
    [started] and [ended] count the transitions entered and left, and [log]
    keeps the effects in order. *)
Record Manager := mkManager {
  state : State;
  previousSceneId : option SceneId;
  target_ready : bool;
  started : nat;
  ended : nat;
  log : list Effect
}.

(** Modelled from the spec: "Initial state: [Initializing] for the first
    scene at application start". *)
Definition start (first : SceneId) : Manager :=
  mkManager (Initializing first) None false 0 0 [SceneInit first].

(** Modelled from the spec: [currentSceneId] is the mounted scene; it stays
    the outgoing scene until step 5 sets it to the target. *)
Definition currentSceneId (m : Manager) : option SceneId :=
  match state m with
  | Idle a => Some a
  | Transitioning a _ _ => Some a
  | Initializing _ => None
  end.

(** Modelled from the spec: [isTransitioning] is true from step 2 to
    step 5. *)
Definition isTransitioning (m : Manager) : bool :=
  match state m with Transitioning _ _ _ => true | _ => false end.

(** Modelled from the spec: the number of transitions in flight. *)
Definition active_transitions (m : Manager) : nat := started m - ended m.

(** Modelled from the spec: what a navigation request answers; a rejected
    request is "silently ignored, not an exception" (section 7). *)
Inductive NavResult := Accepted | RejectedNoOp.

(** Modelled from the spec: a navigation request, steps 1 and 2 of
    section 4.7.  It is rejected as a no-op while [Transitioning] or when
    [toId] is the current scene, and (step 6: "callers must wait for
    [Idle]") whenever the manager is not [Idle]; otherwise the manager
    enters [Transitioning] and starts the target scene's [init]. *)
Definition navigate (toId : SceneId) (m : Manager) : NavResult * Manager :=
  match state m with
  | Transitioning _ _ _ => (RejectedNoOp, m)
  | Initializing _ => (RejectedNoOp, m)
  | Idle a =>
    if decide (toId = a) then (RejectedNoOp, m)
    else
      (Accepted,
       mkManager (Transitioning a toId 0%Q) (previousSceneId m) false
         (S (started m)) (ended m) (log m ++ [SceneInit toId]))
  end.

(** Modelled from the spec: [transitionProgress] is "clamped [0,1]"
    (section 3). *)
Definition clamp01 (p : Q) : Q := Qmax 0%Q (Qmin 1%Q p).

(** Modelled from the spec: the asynchronous completions of section 4.7.
    The target's [init] resolves (step 4: camera transition, dispose of the
    outgoing scene and mount of the target are started together) or fails
    (step 3: the transition is aborted and the outgoing scene stays); the
    camera reports progress (clamped, never decreasing) and completes
    (step 5). *)
Inductive Completion :=
| InitResolved
| InitFailed
| CameraProgress (p : Q)
| CameraCompleted.

(** Modelled from the spec: how the manager of section 4.7 reacts to a
    completion.  A completion that does not belong to the current phase
    changes nothing. *)
Definition complete (c : Completion) (m : Manager) : Manager :=
  match state m, c with
  | Initializing t, InitResolved =>
      mkManager (Idle t) (previousSceneId m) false (started m) (ended m)
        (log m ++ [SceneMount t])
  | Transitioning a b p, InitResolved =>
      if target_ready m then m
      else mkManager (Transitioning a b p) (previousSceneId m) true
             (started m) (ended m)
             (log m ++ [CameraTransition b; SceneDispose a; SceneMount b])
  | Transitioning a b p, InitFailed =>
      if target_ready m then m
      else mkManager (Idle a) (previousSceneId m) false
             (started m) (S (ended m)) (log m ++ [InitFailureSurfaced b])
  | Transitioning a b p, CameraProgress q =>
      if target_ready m
      then mkManager (Transitioning a b (Qmax p (clamp01 q)))
             (previousSceneId m) true (started m) (ended m) (log m)
      else m
  | Transitioning a b p, CameraCompleted =>
      if target_ready m
      then mkManager (Idle b) (Some a) false (started m) (S (ended m)) (log m)
      else m
  | _, _ => m
  end.

(** Modelled from the spec: everything that can reach the manager, a
    navigation request or one of the completions above. *)
Inductive Event :=
| Navigate (toId : SceneId)
| Completes (c : Completion).

Definition step (m : Manager) (e : Event) : Manager :=
  match e with
  | Navigate toId => snd (navigate toId m)
  | Completes c => complete c m
  end.

Definition run (events : list Event) (m : Manager) : Manager :=
  fold_left step events m.

(** The number of requests of a burst, issued back to back, that were
    accepted. *)
Fixpoint accepted (toIds : list SceneId) (m : Manager) : nat :=
  match toIds with
  | [] => 0
  | t :: rest =>
    match navigate t m with
    | (Accepted, m') => S (accepted rest m')
    | (RejectedNoOp, m') => accepted rest m'
    end
  end.

(** *** The invariant *)

Definition consistent (m : Manager) : Prop :=
  started m = ended m + (if isTransitioning m then 1 else 0).

Lemma consistent_start first : consistent (start first).
Proof. reflexivity. Qed.

Lemma consistent_step m e : consistent m -> consistent (step m e).
Proof.
  unfold consistent, isTransitioning. intros H.
  destruct e as [toId|c]; simpl.
  - unfold navigate. destruct (state m) eqn:E; simpl; rewrite ?E; try exact H.
    destruct (decide (toId = sceneId)); simpl; rewrite ?E; lia.
  - unfold complete.
    destruct (state m) eqn:E, c; simpl; rewrite ?E; try exact H;
      destruct (target_ready m); simpl; rewrite ?E; lia.
Qed.

Lemma consistent_run events m : consistent m -> consistent (run events m).
Proof.
  revert m. induction events as [|e events IH]; intros m H; [exact H|].
  simpl. apply IH, consistent_step, H.
Qed.

Lemma navigate_while_transitioning toId m :
  isTransitioning m = true -> navigate toId m = (RejectedNoOp, m).
Proof.
  unfold isTransitioning, navigate. destruct (state m); easy.
Qed.

Lemma navigate_to_current toId m :
  currentSceneId m = Some toId -> navigate toId m = (RejectedNoOp, m).
Proof.
  unfold currentSceneId, navigate. destruct (state m); try easy.
  intros [= ->]. rewrite decide_True by reflexivity. reflexivity.
Qed.

Lemma navigate_keeps_current toId m :
  currentSceneId (snd (navigate toId m)) = currentSceneId m.
Proof.
  unfold navigate, currentSceneId. destruct (state m) eqn:E; simpl;
    rewrite ?E; try reflexivity.
  destruct (decide (toId = sceneId)); simpl; rewrite ?E; reflexivity.
Qed.

Lemma navigate_accepted toId m m' :
  navigate toId m = (Accepted, m') ->
  isTransitioning m = false /\ isTransitioning m' = true.
Proof.
  unfold navigate, isTransitioning. destruct (state m); try discriminate.
  destruct (decide (toId = sceneId)); [discriminate|].
  intros [= <-]. easy.
Qed.

Lemma burst_while_transitioning toIds : forall m,
  isTransitioning m = true ->
  accepted toIds m = 0 /\ run (map Navigate toIds) m = m.
Proof.
  induction toIds as [|t rest IH]; intros m H; [easy|].
  simpl. rewrite (navigate_while_transitioning t m H). simpl. apply IH, H.
Qed.

Lemma burst_accepts_at_most_one toIds : forall m,
  accepted toIds m <= 1 /\
  currentSceneId (run (map Navigate toIds) m) = currentSceneId m.
Proof.
  induction toIds as [|t rest IH]; intros m; [simpl; split; [lia|easy]|].
  simpl. destruct (navigate t m) as [[] m'] eqn:E; simpl.
  - destruct (navigate_accepted t m m' E) as [_ Ht].
    destruct (burst_while_transitioning rest m' Ht) as [-> ->].
    split; [lia|]. change m' with (snd (Accepted, m')). rewrite <- E.
    apply navigate_keeps_current.
  - destruct (IH m') as [Ha Hc]. split; [exact Ha|]. rewrite Hc.
    change m' with (snd (RejectedNoOp, m')). rewrite <- E.
    apply navigate_keeps_current.
Qed.

(** C2: whatever events a manager has seen, at most one transition is in
    flight; a request made while [Transitioning], or for the current scene,
    is rejected and leaves the manager as it was; and of any burst of
    requests issued back to back at most one is accepted, later ones change
    nothing, and the current scene stays the same throughout the burst. *)
Theorem at_most_one_scene_transition (first : SceneId)
    (events : list Event) (burst : list SceneId) (toId : SceneId) :
  let m := run events (start first) in
  active_transitions m <= 1 /\
  (isTransitioning m = true -> navigate toId m = (RejectedNoOp, m)) /\
  (currentSceneId m = Some toId -> navigate toId m = (RejectedNoOp, m)) /\
  accepted burst m <= 1 /\
  active_transitions (run (map Navigate burst) m) <= 1 /\
  currentSceneId (run (map Navigate burst) m) = currentSceneId m /\
  (isTransitioning m = true -> run (map Navigate burst) m = m).
Proof.
  intros m.
  assert (HC : forall evs, active_transitions (run evs m) <= 1).
  { intros evs. unfold active_transitions.
    pose proof (consistent_run evs m
                  (consistent_run events _ (consistent_start first))) as H.
    unfold consistent in H. destruct (isTransitioning (run evs m)); lia. }
  split; [apply (HC [])|].
  split; [apply navigate_while_transitioning|].
  split; [apply navigate_to_current|].
  split; [apply burst_accepts_at_most_one|].
  split; [apply HC|].
  split; [apply burst_accepts_at_most_one|].
  intros H. apply (burst_while_transitioning burst m H).
Qed.

Lemma at_most_one_scene_transition_witness :
  let m := run [Completes InitResolved; Navigate "about"] (start "landing") in
  navigate "projects" m = (RejectedNoOp, m) /\
  run (map Navigate ["projects"; "contact"]) m = m.
Proof.
  cbv zeta.
  destruct (at_most_one_scene_transition "landing"
              [Completes InitResolved; Navigate "about"]
              ["projects"; "contact"] "projects")
    as (_ & Hreject & _ & _ & _ & _ & Hburst).
  split; [apply Hreject | apply Hburst]; reflexivity.
Defined.

End SceneManager.

(* ===================================================================== *)
(** ** PerformanceMonitor.ts: samples, throttling, reading back *)
(* ===================================================================== *)

Module PerformanceMonitorFacts.

Import PerformanceMonitor.

(** The FPS value [update] derives from a frame time. *)
Definition fps_of_frameTime (ft : Q) : Q :=
  if Qltb 0 ft then 1000 / ft else 60.

Lemma sample_fps_of f m :
  sample_fps f m = fps_of_frameTime (sample_frameTime f m).
Proof. reflexivity. Qed.

Lemma Qltb_true x y : Qltb x y = true -> x < y.
Proof.
  unfold Qltb. intros H. apply negb_true_iff in H.
  apply Qnot_le_lt. intros Hle. apply Qle_bool_iff in Hle. congruence.
Qed.

Lemma Qltb_false x y : Qltb x y = false -> y <= x.
Proof.
  unfold Qltb. intros H. apply negb_false_iff in H.
  apply Qle_bool_iff, H.
Qed.

Lemma fps_of_frameTime_pos ft : 0 < fps_of_frameTime ft.
Proof.
  unfold fps_of_frameTime. destruct (Qltb 0 ft) eqn:E; [|reflexivity].
  apply Qltb_true in E. apply Qlt_shift_div_l; [exact E|].
  rewrite Qmult_0_l. reflexivity.
Qed.

Lemma tl_map {A B} (g : A -> B) (l : list A) : tl (map g l) = map g (tl l).
Proof. destruct l; reflexivity. Qed.

Lemma derived_perform m c :
  fpsHistory m = map fps_of_frameTime (frameTimeHistory m) ->
  fpsHistory (perform m c) =
    map fps_of_frameTime (frameTimeHistory (perform m c)).
Proof.
  intros H. destruct c as [f|t|b]; simpl; [|reflexivity|exact H].
  destruct (update_histories f m) as (Hft & Hfps & _).
  rewrite Hft, Hfps, H, sample_fps_of.
  destruct (Nat.ltb _ _); rewrite <- ?tl_map, map_app; reflexivity.
Qed.

(** Every FPS sample is the image of the frame-time sample at the same
    position under [ft > 0 ? 1000 / ft : 60]; so the two histories line up
    and every FPS sample is positive, also when the clock stalls or runs
    backwards. *)
Theorem fps_history_derived_from_frame_times (t0 : Q) (calls : list Call) :
  let m := run calls (create t0) in
  fpsHistory m = map fps_of_frameTime (frameTimeHistory m) /\
  Forall (fun fps => 0 < fps) (fpsHistory m).
Proof.
  intros m.
  assert (H : fpsHistory m = map fps_of_frameTime (frameTimeHistory m)).
  { subst m. generalize (create t0), (eq_refl : fpsHistory (create t0) =
      map fps_of_frameTime (frameTimeHistory (create t0))).
    induction calls as [|c calls IH]; intros m0 H0; [exact H0|].
    simpl. apply IH, derived_perform, H0. }
  split; [exact H|]. rewrite H. apply Forall_forall. intros x Hx.
  apply list_elem_of_In, in_map_iff in Hx as (ft & <- & _).
  apply fps_of_frameTime_pos.
Qed.

(** *** Throttled warnings *)

(** The clock readings (of [validateBudgets]) at which a run printed
    budget warnings. *)
Fixpoint bursts (calls : list Call) (m : Monitor) : list Q :=
  match calls with
  | [] => []
  | c :: rest =>
    match c with
    | CUpdate f =>
      match snd (fst (update f m)) with
      | [] => bursts rest (perform m c)
      | _ => now_validate f :: bursts rest (perform m c)
      end
    | _ => bursts rest (perform m c)
    end
  end.

(** Each burst comes at least [gap] after the one before. *)
Fixpoint spaced (gap last : Q) (times : list Q) : Prop :=
  match times with
  | [] => True
  | t :: rest => last + gap <= t /\ spaced gap t rest
  end.

Lemma validateBudgets_throttle t metrics m :
  let r := validateBudgets t metrics m in
  warningThrottleTime (snd r) = warningThrottleTime m /\
  match fst r with
  | [] => lastWarningTime (snd r) = lastWarningTime m
  | _ => lastWarningTime (snd r) = t /\
         lastWarningTime m + warningThrottleTime m <= t
  end.
Proof.
  unfold validateBudgets.
  destruct (Qltb (t - lastWarningTime m) (warningThrottleTime m)) eqn:E;
    [easy|].
  apply Qltb_false in E.
  assert (Hle : lastWarningTime m + warningThrottleTime m <= t).
  { apply (Qplus_le_l _ _ (- lastWarningTime m)).
    rewrite <- Qplus_assoc, (Qplus_comm (warningThrottleTime m)),
      Qplus_assoc, Qplus_opp_r, Qplus_0_l. exact E. }
  match goal with |- context [match ?w with [] => _ | _ => _ end] =>
    destruct w end; simpl; easy.
Qed.

Lemma update_throttle f m :
  warningThrottleTime (snd (update f m)) = warningThrottleTime m /\
  match snd (fst (update f m)) with
  | [] => lastWarningTime (snd (update f m)) = lastWarningTime m
  | _ => lastWarningTime (snd (update f m)) = now_validate f /\
         lastWarningTime m + warningThrottleTime m <= now_validate f
  end.
Proof.
  unfold update. cbv zeta.
  match goal with |- context [validateBudgets ?t ?mt ?m1] =>
    pose proof (validateBudgets_throttle t mt m1) as Hv;
    destruct (validateBudgets t mt m1) as [ws m2] end.
  cbv zeta in Hv. simpl in *. exact Hv.
Qed.

Lemma bursts_spaced calls : forall m,
  spaced (warningThrottleTime m) (lastWarningTime m) (bursts calls m).
Proof.
  induction calls as [|c calls IH]; intros m; simpl; [exact I|].
  destruct c as [f|t|b].
  - destruct (update_throttle f m) as [Ht Hw].
    specialize (IH (perform m (CUpdate f))). simpl in IH. rewrite Ht in IH.
    destruct (snd (fst (update f m))).
    + rewrite Hw in IH. exact IH.
    + destruct Hw as [Hw Hle]. rewrite Hw in IH. split; [exact Hle|exact IH].
  - apply (IH (perform m (CReset t))).
  - apply (IH (perform m (CSetLanding b))).
Qed.

(** Budget warnings are throttled: in any sequence of calls on a new
    monitor, the first burst of warnings comes no earlier than clock
    reading 5000 and every later burst at least 5000 ms after the previous
    one; [reset] does not reopen the window. *)
Theorem warning_bursts_are_throttled (t0 : Q) (calls : list Call) :
  spaced 5000 0 (bursts calls (create t0)).
Proof. apply (bursts_spaced calls (create t0)). Qed.

(** *** Reading the metrics back *)

Definition with_frameTime (ft : Q) (x : PerformanceMetrics)
  : PerformanceMetrics :=
  mkMetrics (currentFPS x) (averageFPS x) (medianFPS x) (minFPS x) (maxFPS x)
    (drawCalls x) (triangles x) (geometries x) (textures x) (programs x)
    (memoryMB x) ft.

Lemma last_snoc_tl {A} (l : list A) (x d : A) :
  l <> [] -> List.last (tl (l ++ [x])) d = x.
Proof.
  destruct l as [|a l]; [easy|]. intros _. simpl.
  destruct l as [|b l]; [reflexivity|]. apply (last_last (b :: l)).
Qed.

(** Right after an [update], [getMetrics] (with the same renderer
    counters) returns what [update] returned, except that its [frameTime]
    is the raw frame time where [update] reports it rounded to two
    decimals. *)
Theorem getMetrics_after_update (t0 : Q) (calls : list Call) (f : Frame) :
  let m := run calls (create t0) in
  let r := update f m in
  getMetrics (renderer f) (snd r) =
    Some (with_frameTime (sample_frameTime f m) (fst (fst r))).
Proof.
  intros m r.
  destruct (well_formed_run calls (create t0) (well_formed_create t0))
    as (Hs & Hl & Hb). fold m in Hs, Hl, Hb.
  destruct (update_histories f m) as (Hft & Hfps & _). fold r in Hft, Hfps.
  assert (Hne : fpsHistory (snd r) <> []) by (apply update_nonempty; easy).
  assert (Hlf : List.last (fpsHistory (snd r)) 0 = sample_fps f m).
  { rewrite Hfps. destruct (Nat.ltb _ _) eqn:E.
    - apply last_snoc_tl. intros Hnil. apply Nat.ltb_lt in E.
      rewrite Hs, length_app, Hl, Hnil in E. simpl in E. lia.
    - apply last_last. }
  assert (Hlt : List.last (frameTimeHistory (snd r)) 0 = sample_frameTime f m).
  { rewrite Hft. destruct (Nat.ltb _ _) eqn:E.
    - apply last_snoc_tl. intros Hnil. apply Nat.ltb_lt in E.
      rewrite Hs, length_app, Hnil in E. simpl in E. lia.
    - apply last_last. }
  unfold getMetrics. rewrite Hlf, Hlt.
  destruct (fpsHistory (snd r)) eqn:E; [easy|]. rewrite <- E. clear E.
  f_equal. subst r. unfold update in *. cbv zeta in *.
  match goal with |- context [validateBudgets ?t ?mt ?m1] =>
    pose proof (validateBudgets_histories t mt m1) as Hv;
    destruct (validateBudgets t mt m1) as [ws m2] end.
  cbv zeta in Hv. simpl in *. destruct Hv as (_ & -> & _). reflexivity.
Qed.

End PerformanceMonitorFacts.

(* ===================================================================== *)
(** ** ResourceDisposer.ts: failures, scenes, batches *)
(* ===================================================================== *)

Module ResourceDisposerFacts.

Import ResourceDisposer.

Local Open Scope nat_scope.

(** *** Failing [dispose()] calls *)

Section Failures.

Variable faulty : Handle -> bool.

(** What a guarded [dispose()] leaves in the log. *)
Definition guarded_log (k : Kind) (h : Handle) (msg : string) : list Event :=
  Dispose k h :: (if faulty h then [ConsoleError msg] else []).

Definition material_log (m : Material) : list Event :=
  flat_map (fun kv : string * PropValue =>
              match snd kv with
              | VTexture t => guarded_log KTexture t "Error disposing texture:"
              | VOther => []
              end) (mat_props m)
  ++ guarded_log KMaterial (mat_id m) "Error disposing material:".

Definition own_log (o : Object3D) : list Event :=
  match geometry o with
  | Present g => guarded_log KGeometry g "Error disposing geometry:"
  | _ => []
  end ++
  match material o with
  | Present (Single m) => material_log m
  | Present (Multi ms) => flat_map material_log ms
  | _ => []
  end.

(** The whole log of one [disposeObject3D] call, in post-order. *)
Fixpoint full_log (o : Object3D) : list Event :=
  flat_map full_log (children o) ++ own_log o ++ [RemovedFromParent (uuid o)].

(** [e] always completes, appends exactly [evs], detaches nothing. *)
Definition appends (e : Eff) (evs : list Event) : Prop :=
  forall w, e w = (Normal, mkWorld (log w ++ evs) (detached w)).

Lemma appends_skip : appends skip [].
Proof. intros [l d]. unfold skip. simpl. rewrite app_nil_r. reflexivity. Qed.

Lemma appends_seq a b e1 e2 :
  appends a e1 -> appends b e2 -> appends (a >> b) (e1 ++ e2).
Proof.
  intros Ha Hb w. unfold seq. rewrite Ha, Hb. simpl.
  rewrite app_assoc. reflexivity.
Qed.

Lemma appends_for_each {A} (f : A -> Eff) (g : A -> list Event) l :
  (forall x, appends (f x) (g x)) -> appends (for_each f l) (flat_map g l).
Proof.
  intros Hf. induction l as [|x l IH]; simpl.
  - apply appends_skip.
  - apply appends_seq; [apply Hf | exact IH].
Qed.

Lemma appends_guarded a evs k h msg :
  appends a evs ->
  appends (try_catch (a >> call_dispose faulty k h) (console_error msg))
          (evs ++ guarded_log k h msg).
Proof.
  intros Ha w. unfold try_catch, seq, call_dispose, console_error, emit,
    guarded_log. rewrite Ha. simpl.
  destruct (faulty h); simpl; rewrite <- ?app_assoc; reflexivity.
Qed.

Lemma appends_guarded_alone k h msg :
  appends (try_catch (call_dispose faulty k h) (console_error msg))
          (guarded_log k h msg).
Proof.
  intros w. unfold try_catch, call_dispose, console_error, emit, guarded_log.
  destruct (faulty h); simpl; rewrite <- ?app_assoc; reflexivity.
Qed.

Lemma appends_disposeGeometry g :
  appends (disposeGeometry faulty (Some g))
          (guarded_log KGeometry g "Error disposing geometry:").
Proof. apply appends_guarded_alone. Qed.

Lemma appends_disposeTexture t :
  appends (disposeTexture faulty (Some t))
          (guarded_log KTexture t "Error disposing texture:").
Proof. apply appends_guarded_alone. Qed.

Lemma appends_one_material mat :
  appends
    (try_catch
       (for_each
          (fun kv : string * PropValue =>
             match snd kv with
             | VTexture t => disposeTexture faulty (Some t)
             | VOther => skip
             end)
          (mat_props mat) >>
        call_dispose faulty KMaterial (mat_id mat))
       (console_error "Error disposing material:"))
    (material_log mat).
Proof.
  unfold material_log. apply appends_guarded. apply appends_for_each.
  intros [k v]. simpl. destruct v.
  - apply appends_guarded_alone.
  - apply appends_skip.
Qed.

Lemma appends_dispose_own o : appends (dispose_own faulty o) (own_log o).
Proof.
  unfold dispose_own, own_log. apply appends_seq.
  - destruct (geometry o); simpl;
      [apply appends_skip | apply appends_skip | apply appends_guarded_alone].
  - destruct (material o) as [| |[m|ms]]; simpl; try apply appends_skip.
    + rewrite <- (app_nil_r (material_log m)).
      apply appends_seq; [apply appends_one_material | apply appends_skip].
    + apply appends_for_each. apply appends_one_material.
Qed.

(** A first visit, with the log in full. *)
Definition logged (o : Object3D) (w : World) : Prop :=
  disposeObject3D_node faulty o w =
  (Normal, mkWorld (log w ++ full_log o)
             (detached w ∪ list_to_set (uuids o))).

Lemma logged_children cs :
  Forall (fun c => forall w,
            NoDup (uuids c) ->
            (forall u, u ∈ uuids c -> u ∉ detached w) ->
            logged c w) cs ->
  forall gone w,
    NoDup (flat_map uuids cs) ->
    (forall u, u ∈ flat_map uuids cs -> u ∉ detached w) ->
    (forall u, u ∈ flat_map uuids cs -> u ∉ gone) ->
    for_each (visit faulty gone) cs w =
    (Normal, mkWorld (log w ++ flat_map full_log cs)
               (detached w ∪ list_to_set (flat_map uuids cs))).
Proof.
  induction 1 as [|c cs Hc _ IH]; intros gone w Hnd Hw Hg; simpl.
  - unfold skip. destruct w as [l d]. simpl. rewrite app_nil_r.
    f_equal. f_equal. set_solver.
  - simpl in Hnd, Hw, Hg. apply NoDup_app in Hnd as (Hnc & Hdisj & Hncs).
    assert (Hroot : uuid c ∈ uuids c) by (destruct c; simpl; left).
    unfold seq, visit at 1.
    destruct (decide (uuid c ∈ gone)) as [Hin|_].
    { exfalso. apply (Hg (uuid c)); [set_solver | exact Hin]. }
    rewrite (Hc w Hnc) by (intros u Hu; apply Hw; set_solver).
    rewrite (IH gone _ Hncs).
    + simpl. rewrite <- app_assoc. f_equal. f_equal.
      rewrite list_to_set_app_L. set_solver.
    + intros u Hu. simpl. specialize (Hdisj u).
      assert (u ∉ detached w) by (apply Hw; set_solver). set_solver.
    + intros u Hu. apply Hg. set_solver.
Qed.

Lemma logged_node o : forall w,
  NoDup (uuids o) ->
  (forall u, u ∈ uuids o -> u ∉ detached w) ->
  logged o w.
Proof.
  induction o as [u g m cs IH] using Object3D_nested_ind.
  intros w Hnd Hw. simpl in Hnd, Hw.
  apply NoDup_cons in Hnd as (Hu & Hnd).
  unfold logged. rewrite node_unfold. unfold try_catch, seq at 1.
  cbn [children uuid].
  rewrite (logged_children cs IH (detached w) w Hnd)
    by (intros x Hx; apply Hw; set_solver).
  unfold seq. rewrite (appends_dispose_own _ _). unfold removeFromParent.
  simpl. rewrite <- !app_assoc. f_equal. f_equal. set_solver.
Qed.

End Failures.

Definition console_errors (es : list Event) : list string :=
  omap (fun e => match e with ConsoleError m => Some m | _ => None end) es.

Definition removals (es : list Event) : list nat :=
  omap (fun e => match e with RemovedFromParent o => Some o | _ => None end) es.

(** The objects of a graph in post-order. *)
Fixpoint postorder_uuids (o : Object3D) : list nat :=
  flat_map postorder_uuids (children o) ++ [uuid o].

Lemma omap_flat_map {A B C} (f : B -> option C) (g : A -> list B) l :
  omap f (flat_map g l) = flat_map (fun x => omap f (g x)) l.
Proof.
  induction l as [|x l IH]; [reflexivity|].
  simpl. rewrite omap_app, IH. reflexivity.
Qed.

Lemma flat_map_ext_Forall {A B} (f g : A -> list B) l :
  Forall (fun x => f x = g x) l -> flat_map f l = flat_map g l.
Proof. induction 1 as [|x l E _ IH]; simpl; [reflexivity|]. rewrite E, IH. reflexivity. Qed.

Lemma guarded_errors faulty k h msg :
  length (console_errors (guarded_log faulty k h msg)) =
  length (filter (fun c => faulty (snd c) = true) [(k, h)]).
Proof.
  unfold guarded_log. destruct (faulty h) eqn:E.
  - rewrite filter_cons_True by exact E. reflexivity.
  - rewrite filter_cons_False by (simpl; congruence). reflexivity.
Qed.

Lemma material_errors faulty m :
  length (console_errors (material_log faulty m)) =
  length (filter (fun c => faulty (snd c) = true) (material_refs m)).
Proof.
  unfold material_log, material_refs, console_errors.
  rewrite omap_app, filter_app, !length_app. f_equal.
  - induction (mat_props m) as [|[k v] ps IH]; [reflexivity|].
    simpl. rewrite omap_app, length_app, IH. destruct v; simpl; [|reflexivity].
    unfold guarded_log. destruct (faulty t) eqn:E.
    + rewrite filter_cons_True by exact E. reflexivity.
    + rewrite filter_cons_False by (simpl; congruence). reflexivity.
  - apply guarded_errors.
Qed.

Lemma own_errors faulty o :
  length (console_errors (own_log faulty o)) =
  length (filter (fun c => faulty (snd c) = true) (own_refs o)).
Proof.
  unfold own_log, own_refs, console_errors.
  rewrite omap_app, filter_app, !length_app. f_equal.
  - destruct (geometry o); try reflexivity. apply guarded_errors.
  - destruct (material o) as [| |[m|ms]]; try reflexivity.
    + apply material_errors.
    + induction ms as [|m ms IH]; [reflexivity|].
      simpl. rewrite omap_app, filter_app, !length_app, IH. f_equal.
      apply material_errors.
Qed.

Lemma full_errors faulty o :
  length (console_errors (full_log faulty o)) =
  length (filter (fun c => faulty (snd c) = true) (postorder_refs o)).
Proof.
  induction o as [u g m cs IH] using Object3D_nested_ind.
  simpl. unfold console_errors in *.
  rewrite !omap_app, filter_app, !length_app. simpl. rewrite Nat.add_0_r.
  f_equal; [|apply own_errors].
  induction IH as [|c cs Hc _ IHcs]; [reflexivity|].
  simpl. rewrite omap_app, filter_app, !length_app, Hc, IHcs. reflexivity.
Qed.

Lemma removals_app es1 es2 :
  removals (es1 ++ es2) = removals es1 ++ removals es2.
Proof. unfold removals. apply omap_app. Qed.

Lemma guarded_removals faulty k h msg :
  removals (guarded_log faulty k h msg) = [].
Proof. unfold guarded_log. destruct (faulty h); reflexivity. Qed.

Lemma material_removals faulty m : removals (material_log faulty m) = [].
Proof.
  unfold material_log. rewrite removals_app, guarded_removals, app_nil_r.
  induction (mat_props m) as [|[k v] ps IH]; [reflexivity|].
  simpl. rewrite removals_app, IH, app_nil_r.
  destruct v; [apply guarded_removals | reflexivity].
Qed.

Lemma own_removals faulty o : removals (own_log faulty o) = [].
Proof.
  unfold own_log. rewrite removals_app.
  assert (G : removals match geometry o with
                       | Present g =>
                         guarded_log faulty KGeometry g
                           "Error disposing geometry:"
                       | _ => []
                       end = []).
  { destruct (geometry o); try reflexivity. apply guarded_removals. }
  rewrite G. simpl.
  destruct (material o) as [| |[m|ms]]; try reflexivity.
  - apply material_removals.
  - induction ms as [|m ms IH]; [reflexivity|].
    simpl. rewrite removals_app, material_removals. exact IH.
Qed.

Lemma full_removals faulty o :
  removals (full_log faulty o) = postorder_uuids o.
Proof.
  induction o as [u g m cs IH] using Object3D_nested_ind.
  simpl. rewrite !removals_app, own_removals. simpl. f_equal.
  induction IH as [|c cs Hc _ IHcs]; [reflexivity|].
  simpl. rewrite removals_app, Hc, IHcs. reflexivity.
Qed.

(** Failures are isolated: whichever [dispose()] methods throw, one call of
    [disposeObject3D] on a graph of distinct objects completes, writes one
    console error per call that threw and no other, and still detaches
    every object of the graph, children before parents. *)
Theorem dispose_failures_are_isolated (faulty : Handle -> bool)
    (o : Object3D) :
  NoDup (uuids o) ->
  let r := disposeObject3D faulty (Some o) fresh in
  fst r = Normal /\
  length (console_errors (log (snd r))) =
    length (filter (fun c => faulty (snd c) = true) (postorder_refs o)) /\
  removals (log (snd r)) = postorder_uuids o /\
  detached (snd r) = list_to_set (uuids o).
Proof.
  intros Hnd r. subst r. simpl.
  rewrite (logged_node faulty o fresh Hnd) by (intros u _; set_solver).
  simpl. split; [reflexivity|]. split; [apply full_errors|].
  split; [apply full_removals|]. set_solver.
Qed.

Lemma dispose_failures_are_isolated_witness :
  length (console_errors
            (log (snd (disposeObject3D (fun h => Nat.eqb h 101)
                         (Some nested_two_levels) fresh)))) = 1.
Proof.
  apply (dispose_failures_are_isolated (fun h => Nat.eqb h 101)
           nested_two_levels).
  simpl. repeat (constructor; [set_solver|]). constructor.
Defined.

(** *** [disposeMesh] and [disposeScene] *)

Lemma calls_guarded faulty k h msg :
  dispose_calls (guarded_log faulty k h msg) = [(k, h)].
Proof. unfold guarded_log. destruct (faulty h); reflexivity. Qed.

Lemma calls_material faulty m :
  dispose_calls (material_log faulty m) = material_refs m.
Proof.
  unfold material_log, material_refs.
  rewrite dispose_calls_app, calls_guarded. f_equal.
  induction (mat_props m) as [|[k v] ps IH]; [reflexivity|].
  cbn [flat_map omap list_omap snd]. rewrite dispose_calls_app, IH.
  destruct v; [rewrite calls_guarded|]; reflexivity.
Qed.

Lemma calls_own faulty o : dispose_calls (own_log faulty o) = own_refs o.
Proof.
  unfold own_log, own_refs. rewrite dispose_calls_app. f_equal.
  - destruct (geometry o); try reflexivity. apply calls_guarded.
  - destruct (material o) as [| |[m|ms]]; try reflexivity.
    + apply calls_material.
    + induction ms as [|m ms IH]; [reflexivity|].
      simpl. rewrite dispose_calls_app, calls_material, IH. reflexivity.
Qed.

Lemma calls_full faulty o : dispose_calls (full_log faulty o) = postorder_refs o.
Proof.
  induction o as [u g m cs IH] using Object3D_nested_ind.
  simpl. rewrite !dispose_calls_app, calls_own. simpl. rewrite app_nil_r.
  f_equal. induction IH as [|c cs Hc _ IHcs]; [reflexivity|].
  simpl. rewrite dispose_calls_app, Hc, IHcs. reflexivity.
Qed.

Lemma calls_full_children faulty cs :
  dispose_calls (flat_map (full_log faulty) cs) = flat_map postorder_refs cs.
Proof.
  induction cs as [|c cs IH]; [reflexivity|].
  simpl. rewrite dispose_calls_app, calls_full, IH. reflexivity.
Qed.

(** [disposeMesh] frees the mesh's geometry and material and nothing else. *)
Lemma appends_disposeMesh faulty o :
  appends (disposeMesh faulty (Some o)) (own_log faulty o).
Proof.
  intros w. unfold disposeMesh, try_catch.
  assert (H : appends
            (disposeGeometry faulty (truthy (geometry o)) >>
             disposeMaterial faulty (truthy (material o)))
            (own_log faulty o)).
  { pose proof (appends_dispose_own faulty o) as H0.
    unfold dispose_own in H0. intros w0. rewrite <- H0.
    unfold seq. destruct (geometry o), (material o); reflexivity. }
  rewrite H. reflexivity.
Qed.

Section Scenes.

Variable faulty : Handle -> bool.

(** [scene.clear()]: every child still attached leaves the scene. *)
Definition scene_clear (scene : Object3D) : Eff :=
  fun w => (Normal,
            mkWorld (log w)
              (detached w ∪ list_to_set (map uuid (children scene)))).

(** [static disposeScene(scene)] *)
Definition disposeScene (scene : option Object3D) : Eff :=
  match scene with
  | None => skip
  | Some s =>
    try_catch
      (fun w =>
         let gone := detached w in
         (for_each
            (fun child =>
               if decide (uuid child ∈ gone) then skip
               else disposeObject3D_node faulty child)
            (children s) >>
          scene_clear s) w)
      (console_error "Error disposing scene:")
  end.

Lemma disposeScene_run s w :
  NoDup (flat_map uuids (children s)) ->
  (forall u, u ∈ flat_map uuids (children s) -> u ∉ detached w) ->
  disposeScene (Some s) w =
  (Normal, mkWorld (log w ++ flat_map (full_log faulty) (children s))
             (detached w ∪ list_to_set (flat_map uuids (children s)))).
Proof.
  intros Hnd Hw. unfold disposeScene, try_catch, seq.
  fold (visit faulty (detached w)).
  rewrite (logged_children faulty (children s)) by
    (try assumption;
     apply Forall_forall; intros c _ w0 Hn Hd; apply logged_node; assumption).
  unfold scene_clear. simpl. f_equal. f_equal.
  assert (forall c, c ∈ children s -> uuid c ∈ flat_map uuids (children s)).
  { intros c Hc. apply list_elem_of_In, in_flat_map.
    exists c. split; [apply list_elem_of_In, Hc | destruct c; simpl; left; reflexivity]. }
  apply set_eq. intros x. rewrite !elem_of_union, !elem_of_list_to_set.
  rewrite list_elem_of_fmap. split; [|tauto].
  intros [H1|(c & -> & Hc)]; [exact H1|]. right. apply H, Hc.
Qed.

End Scenes.

(** [disposeScene] frees every descendant of the scene in post-order and
    detaches the children, but never touches the scene object itself: its
    own resource slots receive no [dispose()] and it stays attached.  So
    [disposeObject3D] on the same object makes the same calls followed by
    those for the object's own slots. *)
Theorem disposeScene_spares_the_scene (faulty : Handle -> bool)
    (s : Object3D) :
  NoDup (uuids s) ->
  let r := disposeScene faulty (Some s) fresh in
  fst r = Normal /\
  dispose_calls (log (snd r)) = flat_map postorder_refs (children s) /\
  detached (snd r) = list_to_set (flat_map uuids (children s)) /\
  (uuid s ∉ detached (snd r)) /\
  dispose_calls (log (snd (disposeObject3D faulty (Some s) fresh))) =
    dispose_calls (log (snd r)) ++ own_refs s.
Proof.
  intros Hnd r. subst r.
  assert (Hnd' := Hnd). destruct s as [u g m cs]. simpl in Hnd'.
  apply NoDup_cons in Hnd' as (Hu & Hcs).
  rewrite (disposeScene_run faulty (mkObject3D u g m cs) fresh Hcs)
    by (intros x _; set_solver).
  cbn [fst snd log detached children uuid fresh].
  rewrite app_nil_l, calls_full_children.
  split; [reflexivity|]. split; [reflexivity|]. split; [set_solver|].
  split; [set_solver|].
  cbn [disposeObject3D].
  rewrite (logged_node faulty _ fresh Hnd) by (intros x _; set_solver).
  unfold fresh. cbn [fst snd log]. rewrite app_nil_l, calls_full.
  reflexivity.
Qed.

Lemma disposeScene_spares_the_scene_witness :
  dispose_calls
    (log (snd (disposeScene (fun _ => false) (Some nested_two_levels) fresh)))
  = [ (KTexture, 102); (KMaterial, 202); (KTexture, 101); (KMaterial, 201) ].
Proof.
  apply (disposeScene_spares_the_scene (fun _ => false) nested_two_levels).
  simpl. repeat (constructor; [set_solver|]). constructor.
Defined.

(** *** [disposeAll] *)

(** An object as [disposeAll] sniffs it: which of the marker keys it has,
    and the views the selected disposer reads.  An object that carries a
    marker is taken to have the fields of that three.js class. *)
Record Resource := mkResource {
  isScene : bool;
  isMesh : bool;
  isObject3D : bool;
  isGeometry : bool;
  isBufferGeometry : bool;
  isMaterial : bool;
  isTexture : bool;
  isWebGLRenderTarget : bool;
  as_object3D : Object3D;
  self : Handle;
  own_props : list (string * PropValue)
}.

(** One argument of [disposeAll(...resources: Array<any>)]. *)
Inductive JsValue :=
| Falsy
| TruthyPrimitive
| Object (x : Resource).

(** The log of a batch: what the disposers of the previous sections log,
    and the [dispose()] calls received by render targets. *)
Inductive BatchEvent :=
| Disposer (e : Event)
| RenderTargetDispose (h : Handle).

Record BatchWorld := mkBatchWorld {
  blog : list BatchEvent;
  bdetached : gset nat
}.

Definition BatchEff := BatchWorld -> Outcome * BatchWorld.

Definition fresh_batch : BatchWorld := mkBatchWorld [] ∅.

(** Run a disposer inside a batch: its events are appended in order. *)
Definition lift (e : Eff) : BatchEff :=
  fun b =>
    let r := e (mkWorld [] (bdetached b)) in
    (fst r,
     mkBatchWorld (blog b ++ map Disposer (log (snd r))) (detached (snd r))).

Section Batch.

Variable faulty : Handle -> bool.

(** [static disposeRenderTarget(renderTarget)] *)
Definition disposeRenderTarget (renderTarget : option Handle) : BatchEff :=
  match renderTarget with
  | None => fun b => (Normal, b)
  | Some h =>
    fun b =>
      let called := blog b ++ [RenderTargetDispose h] in
      (Normal,
       mkBatchWorld
         (if faulty h
          then called ++
               [Disposer (ConsoleError "Error disposing render target:")]
          else called)
         (bdetached b))
  end.

(** The callback of [resources.forEach] in [disposeAll].  The [in]
    operator throws a [TypeError] on a primitive. *)
Definition dispose_one (resource : JsValue) : BatchEff :=
  match resource with
  | Falsy => fun b => (Normal, b)
  | TruthyPrimitive => fun b => (Thrown, b)
  | Object x =>
    if isScene x then lift (disposeScene faulty (Some (as_object3D x)))
    else if isMesh x then lift (disposeMesh faulty (Some (as_object3D x)))
    else if isObject3D x
         then lift (disposeObject3D faulty (Some (as_object3D x)))
    else if isGeometry x || isBufferGeometry x
         then lift (disposeGeometry faulty (Some (self x)))
    else if isMaterial x
         then lift (disposeMaterial faulty
                      (Some (Single (mkMaterial (self x) (own_props x)))))
    else if isTexture x then lift (disposeTexture faulty (Some (self x)))
    else if isWebGLRenderTarget x then disposeRenderTarget (Some (self x))
    else fun b => (Normal, b)
  end.

(** [static disposeAll(...resources)]: no [try] around the loop. *)
Fixpoint disposeAll (resources : list JsValue) : BatchEff :=
  match resources with
  | [] => fun b => (Normal, b)
  | r :: rest =>
    fun b => match dispose_one r b with
             | (Normal, b') => disposeAll rest b'
             | (Thrown, b') => (Thrown, b')
             end
  end.

Definition is_primitive (v : JsValue) : bool :=
  match v with TruthyPrimitive => true | _ => false end.

Lemma lift_appends e evs b :
  appends e evs ->
  lift e b = (Normal, mkBatchWorld (blog b ++ map Disposer evs) (bdetached b)).
Proof. intros H. unfold lift. rewrite H. reflexivity. Qed.

(** No disposer lets an exception out. *)
Lemma dispose_one_object_completes x b :
  fst (dispose_one (Object x) b) = Normal.
Proof.
  unfold dispose_one.
  destruct (isScene x).
  { unfold lift. simpl. unfold try_catch.
    match goal with |- context [match ?t with _ => _ end] =>
      destruct t as [[] ?] end; reflexivity. }
  destruct (isMesh x).
  { rewrite (lift_appends _ _ b (appends_disposeMesh faulty _)). reflexivity. }
  destruct (isObject3D x).
  { unfold lift. simpl.
    destruct (visit_total faulty (as_object3D x)
                (mkWorld [] (bdetached b))) as (w' & E & _).
    rewrite E. reflexivity. }
  destruct (isGeometry x || isBufferGeometry x).
  { rewrite (lift_appends _ _ b (appends_disposeGeometry faulty _)).
    reflexivity. }
  destruct (isMaterial x).
  { unfold lift. simpl. unfold seq.
    rewrite (appends_one_material faulty (mkMaterial (self x) (own_props x))).
    reflexivity. }
  destruct (isTexture x).
  { rewrite (lift_appends _ _ b (appends_disposeTexture faulty _)).
    reflexivity. }
  destruct (isWebGLRenderTarget x); reflexivity.
Qed.

Lemma disposeAll_completes rs : forall b,
  forallb (fun v => negb (is_primitive v)) rs = true ->
  fst (disposeAll rs b) = Normal.
Proof.
  induction rs as [|r rs IH]; intros b H; [reflexivity|].
  simpl in H. apply andb_true_iff in H as [Hr Hrs]. simpl.
  destruct r as [| |x]; try discriminate.
  - simpl. apply IH, Hrs.
  - pose proof (dispose_one_object_completes x b) as Hx.
    destruct (dispose_one (Object x) b) as [[] b']; [|discriminate].
    apply IH, Hrs.
Qed.

Lemma disposeAll_app rs1 rs2 b :
  fst (disposeAll rs1 b) = Normal ->
  disposeAll (rs1 ++ rs2) b = disposeAll rs2 (snd (disposeAll rs1 b)).
Proof.
  revert b. induction rs1 as [|r rs1 IH]; intros b H; [reflexivity|].
  simpl in *. destruct (dispose_one r b) as [[] b']; [|discriminate].
  apply IH, H.
Qed.

End Batch.

(** The [dispose()] calls a batch made through the disposers. *)
Definition batch_calls (es : list BatchEvent) : list (Kind * Handle) :=
  dispose_calls
    (omap (fun e => match e with Disposer d => Some d | _ => None end) es).

Lemma batch_calls_lifted evs :
  batch_calls (map Disposer evs) = dispose_calls evs.
Proof.
  unfold batch_calls. f_equal. induction evs as [|e evs IH]; [reflexivity|].
  simpl. f_equal. exact IH.
Qed.

(** [disposeAll] has no [try]: a truthy primitive among the arguments (a
    string, a non-zero number, [true]) makes it throw, after the resources
    before it have been disposed and before any resource after it is
    looked at.  [null], [undefined] and other falsy arguments are skipped. *)
Theorem disposeAll_throws_on_primitive (faulty : Handle -> bool)
    (before after : list JsValue) (b : BatchWorld) :
  forallb (fun v => negb (is_primitive v)) before = true ->
  fst (disposeAll faulty before b) = Normal /\
  disposeAll faulty (before ++ TruthyPrimitive :: after) b =
    (Thrown, snd (disposeAll faulty before b)) /\
  disposeAll faulty (before ++ Falsy :: after) b =
    disposeAll faulty (before ++ after) b.
Proof.
  intros H. pose proof (disposeAll_completes faulty before b H) as Hn.
  split; [exact Hn|]. rewrite !disposeAll_app by exact Hn.
  split; reflexivity.
Qed.

Lemma disposeAll_throws_on_primitive_witness :
  let tex := mkResource false false false false false false true false
               lone_mesh 7 [] in
  fst (disposeAll (fun _ => false) [Object tex; TruthyPrimitive; Object tex]
         fresh_batch) = Thrown /\
  batch_calls
    (blog (snd (disposeAll (fun _ => false)
                  [Object tex; TruthyPrimitive; Object tex] fresh_batch)))
  = [(KTexture, 7)].
Proof.
  cbv zeta.
  destruct (disposeAll_throws_on_primitive (fun _ => false)
              [Object (mkResource false false false false false false true
                         false lone_mesh 7 [])]
              [Object (mkResource false false false false false false true
                         false lone_mesh 7 [])]
              fresh_batch eq_refl) as (_ & E & _).
  simpl app in E. rewrite E. split; reflexivity.
Defined.

(** [disposeAll] hands an object with the [isMesh] marker to [disposeMesh]
    even though it is an [Object3D] too: only the mesh's own geometry and
    material are freed; its children are not visited and it is not detached
    from its parent.  The same object without the [isMesh] marker goes to
    [disposeObject3D] and is disposed with all its descendants. *)
Theorem disposeAll_mesh_is_shallow (faulty : Handle -> bool)
    (mesh group : Resource) :
  isScene mesh = false -> isMesh mesh = true ->
  isScene group = false -> isMesh group = false -> isObject3D group = true ->
  as_object3D group = as_object3D mesh ->
  NoDup (uuids (as_object3D mesh)) ->
  let rm := disposeAll faulty [Object mesh] fresh_batch in
  let rg := disposeAll faulty [Object group] fresh_batch in
  fst rm = Normal /\
  batch_calls (blog (snd rm)) = own_refs (as_object3D mesh) /\
  bdetached (snd rm) = ∅ /\
  batch_calls (blog (snd rg)) = postorder_refs (as_object3D mesh) /\
  bdetached (snd rg) = list_to_set (uuids (as_object3D mesh)).
Proof.
  intros Hs Hm Hgs Hgm Hgo Hsame Hnd rm rg. subst rm rg.
  cbn [disposeAll dispose_one]. rewrite Hs, Hm, Hgs, Hgm, Hgo, Hsame.
  rewrite (lift_appends _ _ fresh_batch (appends_disposeMesh faulty _)).
  unfold lift. cbn [disposeObject3D fresh_batch bdetached blog].
  pose proof (logged_node faulty (as_object3D mesh) (mkWorld [] ∅) Hnd) as L.
  unfold logged in L. rewrite L by (intros u _; set_solver).
  cbn [fst snd log detached app blog bdetached].
  rewrite !batch_calls_lifted, calls_own, calls_full.
  repeat split; try reflexivity. set_solver.
Qed.

Lemma disposeAll_mesh_is_shallow_witness :
  let mesh := mkResource false true true false false false false false
                nested_two_levels 0 [] in
  batch_calls
    (blog (snd (disposeAll (fun _ => false) [Object mesh] fresh_batch)))
  = [(KTexture, 100); (KMaterial, 200)].
Proof.
  cbv zeta.
  apply (disposeAll_mesh_is_shallow (fun _ => false)
           (mkResource false true true false false false false false
              nested_two_levels 0 [])
           (mkResource false false true false false false false false
              nested_two_levels 0 [])); try reflexivity.
  simpl. repeat (constructor; [set_solver|]). constructor.
Defined.

End ResourceDisposerFacts.

(* ===================================================================== *)
(** ** CameraController.ts: what the controller can and cannot do to a
       running transition *)
(* ===================================================================== *)

Module CameraControllerFacts.
Import CameraController.
Local Open Scope nat_scope.



(** [applyParallax] is never suspended: in every state a controller
    reaches [isTransitioning()] answers false, also right after a
    [transitionTo] call whose timeline is playing, so [applyParallax]
    always starts its tween, with the offsets pointer times strength
    (strength 0.02 unless given); the call itself changes neither the
    camera nor the timelines. *)
Theorem parallax_is_never_suspended (c : Camera) (steps : list Step)
    (pointerX pointerY : Q) (strength : option Q) :
  let w := run steps (create c) in
  let s := match strength with Some s => s | None => (2 # 100)%Q end in
  let tween := ParallaxTween (pointerX * s) (pointerY * s) in
  isTransitioning w = false /\
  applyParallax pointerX pointerY strength w =
    mkWorld (camera w) (activeTween w) (timelines w) (motion w)
      (log w ++ [tween]) /\
  (forall b pos target options,
     let r := transitionTo b pos target options w in
     active (fst r) (snd r) /\
     isTransitioning (snd r) = false /\
     log (applyParallax pointerX pointerY strength (snd r)) =
       log (snd r) ++ [tween]).
Proof.
  intros w s tween.
  pose proof (Inv_run steps (create c) (Inv_create c)) as HI. fold w in HI.
  pose proof (isTransitioning_idle w (never_recorded w HI)) as Hi.
  split; [exact Hi|]. split.
  - unfold applyParallax. rewrite Hi. reflexivity.
  - intros b pos target options r.
    pose proof (Inv_transitionTo b pos target options w HI) as HI'.
    fold r in HI'.
    pose proof (isTransitioning_idle _ (never_recorded _ HI')) as Hi'.
    split; [|split; [exact Hi'|]].
    + subst r.
      destruct (transitionTo_idle b pos target options w
                  (never_recorded w HI)) as (d & e & ms & ->). simpl.
      eexists. split.
      * simpl. rewrite lookup_app_r by lia. rewrite Nat.sub_diag.
        reflexivity.
      * reflexivity.
    + unfold applyParallax. rewrite Hi'. reflexivity.
Qed.

End CameraControllerFacts.

(* ===================================================================== *)
(** ** AssetLoader.ts: what every schedule preserves *)
(* ===================================================================== *)

Module AssetLoaderFacts.

Import AssetLoader.

Local Open Scope nat_scope.

(** The task each request was issued for, in the order of issue. *)
Definition issued_for (s : Loader) : list nat := map req_task (requests s).

Definition same_caches (s s' : Loader) : Prop :=
  modelCache s' = modelCache s /\ textureCache s' = textureCache s.

(** How one step may move an existing call forward, and the request (for
    that call) it may issue on the way. *)
Definition advance (tid : nat) (t t' : Task) (extra : list nat) : Prop :=
  kind t' = kind t /\ url t' = url t /\ maxRetries t' = maxRetries t /\
  match state t, state t' with
  | AwaitingLoad a _, Fulfilled _ => extra = []
  | AwaitingLoad a _, AwaitingDelay a' _ =>
      a' = a /\ extra = [] /\ a + 1 < maxRetries t
  | AwaitingLoad a _, AwaitingLoad a' _ =>
      a' = a + 1 /\ extra = [tid] /\ a' < maxRetries t
  | AwaitingLoad a _, Rejected _ => extra = []
  | AwaitingDelay a _, AwaitingLoad a' _ =>
      a' = a + 1 /\ extra = [tid] /\ a' < maxRetries t
  | AwaitingDelay a _, Rejected _ => extra = []
  | _, _ => False
  end.

(** How a new call may start. *)
Definition starts (tid : nat) (t : Task) (extra : list nat) : Prop :=
  match state t with
  | AwaitingLoad a _ => a = 0 /\ extra = [tid] /\ 0 < maxRetries t
  | AwaitingDelay _ _ => False
  | Fulfilled _ => extra = []
  | Rejected _ => extra = []
  end.

(** The caches after a step: untouched, or one entry written by a load
    that succeeded with asset [a] for the call's URL. *)
Definition cache_effect (e : Step) (k : AssetKind) (u : string)
    (s s' : Loader) : Prop :=
  same_caches s s' \/
  exists rid a,
    e = LoadSucceeds rid a /\
    cache_of k s' = <[u := a]> (cache_of k s) /\
    (forall k', k' <> k -> cache_of k' s' = cache_of k' s).

Inductive effect (e : Step) (s s' : Loader) : Prop :=
| effect_none :
    tasks s' = tasks s -> issued_for s' = issued_for s ->
    same_caches s s' -> effect e s s'
| effect_new (t : Task) (extra : list nat) :
    tasks s' = tasks s ++ [t] ->
    issued_for s' = issued_for s ++ extra ->
    starts (length (tasks s)) t extra ->
    same_caches s s' -> effect e s s'
| effect_update (tid : nat) (t t' : Task) (extra : list nat) :
    tasks s !! tid = Some t ->
    tasks s' = <[tid := t']> (tasks s) ->
    issued_for s' = issued_for s ++ extra ->
    advance tid t t' extra ->
    cache_effect e (kind t) (url t) s s' ->
    effect e s s'.

Lemma same_caches_refl s : same_caches s s.
Proof. split; reflexivity. Qed.

Lemma issued_for_settle rid s : issued_for (settle rid s) = issued_for s.
Proof.
  unfold issued_for, settle. simpl.
  apply list_eq. intros i. change (map req_task) with (fmap (M:=list) req_task).
  rewrite !list_lookup_fmap.
  destruct (decide (rid = i)) as [->|Hne].
  - rewrite list_lookup_alter_eq. destruct (requests s !! i); reflexivity.
  - rewrite list_lookup_alter_ne by exact Hne. reflexivity.
Qed.

Lemma awaiting_request_Some rid s tid t a :
  awaiting_request rid s = Some (tid, t, a) ->
  tasks s !! tid = Some t /\ state t = AwaitingLoad a rid.
Proof.
  unfold awaiting_request.
  destruct (requests s !! rid) as [r|]; [|discriminate].
  destruct (req_settled r); [discriminate|].
  destruct (tasks s !! req_task r) as [t0|] eqn:Et; [|discriminate].
  destruct (state t0) as [a0 r0| | |] eqn:Es; try discriminate.
  destruct (Nat.eqb_spec r0 rid); [|discriminate].
  intros [= <- <- <-]. subst. easy.
Qed.

(** The loop head, reached by an existing call. *)
Lemma loop_head_existing e tid t0 t a s0 s :
  tasks s0 !! tid = Some t0 ->
  tasks s = tasks s0 -> issued_for s = issued_for s0 -> same_caches s0 s ->
  kind t = kind t0 -> url t = url t0 -> maxRetries t = maxRetries t0 ->
  (forall t', kind t' = kind t -> url t' = url t ->
              maxRetries t' = maxRetries t ->
     (forall a' r', state t' = AwaitingLoad a' r' -> a' = a) ->
     (forall a' m', state t' <> AwaitingDelay a' m') ->
     (forall x, state t' <> Fulfilled x) ->
     forall extra,
       match state t' with
       | AwaitingLoad _ _ => extra = [tid] /\ a < maxRetries t
       | _ => extra = []
       end ->
       advance tid t0 t' extra) ->
  effect e s0 (loop_head tid t a s).
Proof.
  intros Hl Ht Hi [Hm Hx] Hk Hu Hn Hadv.
  assert (Hlt : tid < length (tasks s)).
  { rewrite Ht. apply lookup_lt_Some in Hl. exact Hl. }
  unfold loop_head. destruct (Nat.ltb_spec a (maxRetries t)) as [Hlt'|Hge].
  - rewrite put_task_old by exact Hlt.
    apply (effect_update e s0 _ tid t0
             (set_state (AwaitingLoad a (length (requests s))) t) [tid]).
    + exact Hl.
    + simpl. rewrite Ht. reflexivity.
    + unfold issued_for in *. simpl. rewrite map_app, Hi. reflexivity.
    + apply Hadv; simpl; try easy.
      intros a' r' [= <- _]. reflexivity.
    + left. split; simpl; assumption.
  - unfold all_retries_failed.
    assert (Hput : forall s1, tasks s1 = tasks s ->
              issued_for s1 = issued_for s -> same_caches s s1 ->
              effect e s0
                (put_task tid
                   (set_state (Rejected (Exhausted (kind t) (url t)
                                           (maxRetries t))) t) s1)).
    { intros s1 Ht1 Hi1 [Hm1 Hx1].
      rewrite put_task_old by (rewrite Ht1; exact Hlt).
      apply (effect_update e s0 _ tid t0
               (set_state (Rejected (Exhausted (kind t) (url t)
                                       (maxRetries t))) t) []).
      - exact Hl.
      - simpl. rewrite Ht1, Ht. reflexivity.
      - unfold issued_for in *. simpl. rewrite app_nil_r, Hi1, Hi. reflexivity.
      - apply Hadv; simpl; try easy.
      - left. split; simpl; congruence. }
    cbv zeta. destruct (onErrorCallback s); apply Hput; try reflexivity;
      split; reflexivity.
Qed.

Lemma effect_load k u limit s (e : Step) : effect e s (load k u limit s).
Proof.
  unfold load. set (n := match limit with Some n => n | None => 3 end).
  destruct (cache_of k s !! u) as [a|] eqn:Hc.
  - rewrite put_task_new.
    apply (effect_new e s _ (mkTask k u n None (Fulfilled a)) []);
      try reflexivity.
    + unfold issued_for. simpl. rewrite app_nil_r. reflexivity.
    + split; reflexivity.
  - unfold loop_head. cbn [maxRetries].
    destruct (Nat.ltb_spec 0 n) as [Hlt|Hge].
    + unfold put_task. cbn [tasks with_requests with_tasks].
      rewrite Nat.ltb_irrefl.
      apply (effect_new e s _
               (set_state (AwaitingLoad 0 (length (requests s)))
                  (mkTask k u n None (AwaitingLoad 0 0)))
               [length (tasks s)]); try reflexivity.
      * unfold issued_for. simpl. rewrite map_app. reflexivity.
      * simpl. easy.
      * split; reflexivity.
    + unfold all_retries_failed.
      assert (Hput : forall s1, tasks s1 = tasks s ->
                issued_for s1 = issued_for s -> same_caches s s1 ->
                effect e s
                  (put_task (length (tasks s))
                     (set_state (Rejected (Exhausted k u n))
                        (mkTask k u n None (AwaitingLoad 0 0))) s1)).
      { intros s1 Ht1 Hi1 Hc1. rewrite <- Ht1, put_task_new.
        apply (effect_new e s _
                 (set_state (Rejected (Exhausted k u n))
                    (mkTask k u n None (AwaitingLoad 0 0))) []).
        - simpl. rewrite Ht1. reflexivity.
        - unfold issued_for in *. simpl. rewrite app_nil_r. exact Hi1.
        - reflexivity.
        - destruct Hc1. split; simpl; assumption. }
      cbv zeta. cbn [kind url maxRetries lastError].
      destruct (onErrorCallback s); apply Hput; try reflexivity;
        split; reflexivity.
Qed.

Lemma effect_load_succeeds rid a s :
  effect (LoadSucceeds rid a) s (load_succeeds rid a s).
Proof.
  unfold load_succeeds.
  destruct (awaiting_request rid s) as [[[tid t] att]|] eqn:E.
  2:{ apply effect_none; try reflexivity. apply same_caches_refl. }
  apply awaiting_request_Some in E as [Hl Hs].
  assert (Hlt : tid < length (tasks s)) by (apply lookup_lt_Some in Hl; exact Hl).
  rewrite put_task_old by (destruct (kind t); simpl; exact Hlt).
  apply (effect_update _ s _ tid t (set_state (Fulfilled a) t) []).
  - exact Hl.
  - destruct (kind t); reflexivity.
  - rewrite app_nil_r. rewrite <- (issued_for_settle rid s).
    destruct (kind t); reflexivity.
  - unfold advance. simpl. rewrite Hs. easy.
  - right. exists rid, a. split; [reflexivity|].
    destruct (kind t); simpl; (split; [reflexivity|]);
      intros [] Hne; try reflexivity; contradiction.
Qed.

Lemma effect_load_fails e rid c s : effect e s (load_fails rid c s).
Proof.
  unfold load_fails.
  destruct (awaiting_request rid s) as [[[tid t] att]|] eqn:E.
  2:{ apply effect_none; try reflexivity. apply same_caches_refl. }
  apply awaiting_request_Some in E as [Hl Hs].
  assert (Hlt : tid < length (tasks s)) by (apply lookup_lt_Some in Hl; exact Hl).
  cbv zeta. cbn [maxRetries set_lastError].
  destruct (Nat.ltb_spec att (maxRetries t - 1)) as [Hr|Hr].
  - rewrite put_task_old by exact Hlt.
    eapply (effect_update e s _ tid t _ []).
    + exact Hl.
    + reflexivity.
    + rewrite app_nil_r. rewrite <- (issued_for_settle rid s). reflexivity.
    + unfold advance. simpl. rewrite Hs. repeat split; lia.
    + left. split; reflexivity.
  - apply (loop_head_existing e tid t); try reflexivity; try assumption.
    + rewrite <- (issued_for_settle rid s). reflexivity.
    + split; reflexivity.
    + intros t' Hk Hu Hn Ha Hd Hf extra Hex. unfold advance.
      simpl in Hk, Hu, Hn. rewrite Hk, Hu, Hn, Hs.
      repeat split; try reflexivity.
      destruct (state t') as [a' r'|a' m'|x|err] eqn:Es.
      * specialize (Ha a' r' eq_refl). subst a'.
        destruct Hex as [-> Hlt']. simpl in Hlt'. easy.
      * destruct (Hd a' m' eq_refl).
      * destruct (Hf x eq_refl).
      * exact Hex.
Qed.

Lemma effect_timer_fires e tm s : effect e s (timer_fires tm s).
Proof.
  unfold timer_fires.
  assert (Hnone : effect e s s)
    by (apply effect_none; try reflexivity; apply same_caches_refl).
  destruct (timers s !! tm) as [x|]; [|exact Hnone].
  destruct (timer_fired x); [exact Hnone|].
  destruct (tasks s !! timer_task x) as [t|] eqn:Hl; [|exact Hnone].
  destruct (state t) as [| att tm' | |] eqn:Hs; try exact Hnone.
  destruct (Nat.eqb_spec tm' tm) as [->|]; [|exact Hnone].
  apply (loop_head_existing e (timer_task x) t); try reflexivity;
    try assumption.
  - split; reflexivity.
  - intros t' Hk Hu Hn Ha Hd Hf extra Hex. unfold advance.
    rewrite Hk, Hu, Hn, Hs. repeat split; try reflexivity.
    destruct (state t') as [a' r'|a' m'|y|err] eqn:Es.
    + specialize (Ha a' r' eq_refl). subst a'.
      destruct Hex as [-> Hlt']. easy.
    + destruct (Hd a' m' eq_refl).
    + destruct (Hf y eq_refl).
    + exact Hex.
Qed.

(** Every step is one of the three effects. *)
Lemma step_effect s e : effect e s (step s e).
Proof.
  assert (Hnone : forall s', tasks s' = tasks s -> requests s' = requests s ->
            modelCache s' = modelCache s -> textureCache s' = textureCache s ->
            effect e s s').
  { intros s' Ht Hr Hm Hx. apply effect_none; [exact Ht| |split; assumption].
    unfold issued_for. rewrite Hr. reflexivity. }
  destruct e; simpl.
  - apply effect_load.
  - apply effect_load.
  - apply Hnone; reflexivity.
  - apply Hnone; reflexivity.
  - apply Hnone; reflexivity.
  - unfold manager_onProgress. destruct (onProgressCallback s);
      apply Hnone; reflexivity.
  - unfold manager_onLoad. destruct (onLoadCallback s);
      apply Hnone; reflexivity.
  - unfold manager_onError. destruct (onErrorCallback s);
      apply Hnone; reflexivity.
  - apply effect_load_succeeds.
  - apply effect_load_fails.
  - apply effect_timer_fires.
Qed.

(** *** The retry limit *)

(** How many underlying loads have been started for call [tid]. *)
Definition attempts_of (tid : nat) (s : Loader) : nat :=
  count_occ Nat.eq_dec (issued_for s) tid.

Definition task_ok (s : Loader) (tid : nat) (t : Task) : Prop :=
  match state t with
  | AwaitingLoad a _ => attempts_of tid s = a + 1 /\ a < maxRetries t
  | AwaitingDelay a _ => attempts_of tid s = a + 1 /\ a + 1 < maxRetries t
  | _ => attempts_of tid s <= maxRetries t
  end.

Record counted (s : Loader) : Prop := mkCounted {
  tasks_counted : forall tid t, tasks s !! tid = Some t -> task_ok s tid t;
  issued_known : Forall (fun k => k < length (tasks s)) (issued_for s)
}.

Lemma counted_create : counted create.
Proof. split; [intros tid t H; discriminate | constructor]. Qed.

Lemma count_unknown (l : list nat) n :
  Forall (fun k => k < n) l -> count_occ Nat.eq_dec l n = 0.
Proof.
  intros H. apply count_occ_not_In. intros Hin.
  rewrite Forall_forall in H. apply list_elem_of_In, H in Hin. lia.
Qed.

Lemma count_extra (l extra : list nat) tid tid' :
  tid' <> tid -> extra = [] \/ extra = [tid] ->
  count_occ Nat.eq_dec (l ++ extra) tid' = count_occ Nat.eq_dec l tid'.
Proof.
  intros Hne [->| ->]; rewrite count_occ_app; simpl; [lia|].
  destruct (Nat.eq_dec tid tid'); [congruence|lia].
Qed.

Lemma starts_extra tid t extra : starts tid t extra -> extra = [] \/ extra = [tid].
Proof.
  unfold starts. destruct (state t); tauto.
Qed.

Lemma advance_extra tid t t' extra :
  advance tid t t' extra -> extra = [] \/ extra = [tid].
Proof.
  unfold advance. intros (_ & _ & _ & H).
  destruct (state t), (state t'); tauto.
Qed.

Lemma counted_effect e s s' : effect e s s' -> counted s -> counted s'.
Proof.
  intros Heff [Hok Hknown]. destruct Heff as
    [Ht Hi _ | t extra Ht Hi Hst _ | tid t t' extra Hl Ht Hi Hadv _].
  - split.
    + intros tid t. rewrite Ht. intros H. specialize (Hok tid t H).
      unfold task_ok, attempts_of in *. rewrite Hi. exact Hok.
    + rewrite Ht, Hi. exact Hknown.
  - pose proof (starts_extra _ _ _ Hst) as Hex.
    split.
    + intros tid t0. rewrite Ht. intros H.
      apply lookup_app_Some in H as [H|[Hge H]].
      * specialize (Hok tid t0 H). apply lookup_lt_Some in H.
        unfold task_ok, attempts_of in *. rewrite Hi.
        rewrite (count_extra _ extra (length (tasks s))) by (lia || exact Hex).
        exact Hok.
      * apply list_lookup_singleton_Some in H as [Hz <-].
        assert (tid = length (tasks s)) as -> by lia.
        unfold task_ok, attempts_of. rewrite Hi, count_occ_app.
        rewrite (count_unknown _ _ Hknown). unfold starts in Hst.
        destruct (state t).
        -- destruct Hst as (-> & -> & Hlt). simpl.
           destruct (Nat.eq_dec _ _); [lia|congruence].
        -- destruct Hst.
        -- subst extra. simpl. lia.
        -- subst extra. simpl. lia.
    + rewrite Ht, Hi, length_app. simpl. apply Forall_app. split.
      * eapply Forall_impl; [exact Hknown|]. simpl. intros; lia.
      * destruct Hex as [->| ->]; repeat constructor. lia.
  - pose proof (advance_extra _ _ _ _ Hadv) as Hex.
    assert (Hlt : tid < length (tasks s)) by (apply lookup_lt_Some in Hl; exact Hl).
    split.
    + intros tid0 t0. rewrite Ht. intros H.
      destruct (decide (tid0 = tid)) as [->|Hne].
      * rewrite list_lookup_insert_eq in H by exact Hlt. injection H as <-.
        specialize (Hok tid t Hl). unfold task_ok, attempts_of in *.
        rewrite Hi, count_occ_app.
        destruct Hadv as (_ & _ & Hmax & Hadv). rewrite Hmax.
        destruct (state t), (state t'); try tauto;
          repeat match goal with
                 | H : _ /\ _ |- _ => destruct H
                 end; subst; simpl;
          try destruct (Nat.eq_dec _ _); try congruence; lia.
      * rewrite list_lookup_insert_ne in H by congruence.
        specialize (Hok tid0 t0 H). unfold task_ok, attempts_of in *.
        rewrite Hi, (count_extra _ extra tid) by assumption. exact Hok.
    + rewrite Ht, Hi, length_insert. apply Forall_app. split; [exact Hknown|].
      destruct Hex as [->| ->]; repeat constructor. exact Hlt.
Qed.

Lemma counted_run steps : forall s, counted s -> counted (run steps s).
Proof.
  induction steps as [|e steps IH]; intros s H; [exact H|].
  simpl. apply IH. apply (counted_effect e s); [apply step_effect | exact H].
Qed.

(** Under every schedule of calls, settlements, timers and manager
    reports, no call starts more underlying loads than its retry limit;
    while a call awaits its load number [attempt] exactly [attempt + 1]
    loads have been started for it. *)
Theorem retry_limit_is_never_exceeded (steps : list Step) (tid : nat)
    (t : Task) :
  let s := run steps create in
  tasks s !! tid = Some t ->
  attempts_of tid s <= maxRetries t /\
  (forall a r, state t = AwaitingLoad a r -> attempts_of tid s = a + 1).
Proof.
  intros s H.
  pose proof (tasks_counted _ (counted_run steps create counted_create) tid t H)
    as Hok.
  unfold task_ok in Hok. fold s in Hok. split.
  - destruct (state t); lia.
  - intros a r E. rewrite E in Hok. lia.
Qed.

Lemma retry_limit_is_never_exceeded_witness :
  attempts_of 0 (run (failing_schedule "t.png" 1 2 3) create) <= 3.
Proof.
  edestruct (retry_limit_is_never_exceeded (failing_schedule "t.png" 1 2 3) 0)
    as [H _]; [vm_compute; reflexivity | exact H].
Defined.

(** *** Settled calls and the caches *)

Definition settled (t : Task) : Prop :=
  match state t with Fulfilled _ | Rejected _ => True | _ => False end.

Lemma settled_effect e s s' tid t :
  effect e s s' -> tasks s !! tid = Some t -> settled t ->
  tasks s' !! tid = Some t.
Proof.
  intros Heff H Hs. destruct Heff as
    [Ht _ _ | t0 extra Ht _ _ _ | tid0 t0 t' extra Hl Ht _ Hadv _].
  - rewrite Ht. exact H.
  - rewrite Ht. apply lookup_app_l_Some, H.
  - rewrite Ht. destruct (decide (tid0 = tid)) as [->|Hne].
    + rewrite H in Hl. injection Hl as <-.
      unfold advance in Hadv. unfold settled in Hs.
      destruct (state t); tauto.
    + rewrite list_lookup_insert_ne by exact Hne. exact H.
Qed.

(** A call settles once: after it is fulfilled or rejected, no later event
    (a late or repeated settlement of its requests, a timer, another call)
    changes its result. *)
Theorem settled_call_is_final (steps : list Step) (s : Loader) (tid : nat)
    (t : Task) :
  tasks s !! tid = Some t -> settled t ->
  tasks (run steps s) !! tid = Some t.
Proof.
  revert s. induction steps as [|e steps IH]; intros s H Hs; [exact H|].
  simpl. apply IH; [|exact Hs].
  apply (settled_effect e s); [apply step_effect | exact H | exact Hs].
Qed.

Lemma settled_call_is_final_witness :
  outcome 0 (run [LoadFails 2 9; TimerFires 1; LoadSucceeds 2 5]
               (run (failing_schedule "t.png" 1 2 3) create))
  = Some (Rejected (Exhausted Texture "t.png" 3)).
Proof.
  unfold outcome.
  rewrite (settled_call_is_final [LoadFails 2 9; TimerFires 1; LoadSucceeds 2 5]
             (run (failing_schedule "t.png" 1 2 3) create) 0
             (mkTask Texture "t.png" 3 (Some (LoadFailure 3))
                (Rejected (Exhausted Texture "t.png" 3))));
    [reflexivity | vm_compute; reflexivity | exact I].
Defined.

Lemma cache_step e s k u :
  (forall a, cache_of k s !! u = Some a ->
             is_Some (cache_of k (step s e) !! u)) /\
  (forall a, cache_of k (step s e) !! u = Some a ->
             cache_of k s !! u = Some a \/ exists rid, e = LoadSucceeds rid a).
Proof.
  assert (Hsame : same_caches s (step s e) ->
                  cache_of k (step s e) = cache_of k s).
  { intros [Hm Hx]. destruct k; simpl; assumption. }
  destruct (step_effect s e) as
    [_ _ Hc | t extra _ _ _ Hc | tid t t' extra _ _ _ _ Hc];
    try (rewrite (Hsame Hc); split; [intros a H; rewrite H; eauto | tauto]).
  destruct Hc as [Hc|(rid & a0 & -> & Hk & Hother)].
  { rewrite (Hsame Hc). split; [intros a H; rewrite H; eauto | tauto]. }
  destruct (AssetKind_eq_dec k (kind t)) as [->|Hne].
  - rewrite Hk. destruct (decide (url t = u)) as [->|Hu].
    + rewrite lookup_insert_eq. split; [eauto|].
      intros a [= <-]. right. eauto.
    + rewrite lookup_insert_ne by exact Hu.
      split; [intros a H; rewrite H; eauto | tauto].
  - rewrite (Hother k Hne). split; [intros a H; rewrite H; eauto | tauto].
Qed.

(** The load functions never evict: a cached URL stays cached under every
    schedule (a later load may replace its asset), and an asset found in a
    cache was either there before or delivered by a successful underlying
    load of the schedule; failures and timers never write a cache. *)
Theorem cache_only_grows (steps : list Step) (s : Loader) (k : AssetKind)
    (u : string) :
  (is_Some (cache_of k s !! u) ->
   is_Some (cache_of k (run steps s) !! u)) /\
  (forall a, cache_of k (run steps s) !! u = Some a ->
     cache_of k s !! u = Some a \/ exists rid, In (LoadSucceeds rid a) steps).
Proof.
  revert s. induction steps as [|e steps IH]; intros s.
  - split; [tauto | intros a H; left; exact H].
  - simpl. destruct (IH (step s e)) as [IH1 IH2].
    destruct (cache_step e s k u) as [C1 C2]. split.
    + intros [a Ha]. apply IH1, (C1 a Ha).
    + intros a Ha. destruct (IH2 a Ha) as [H|(rid & Hin)].
      * destruct (C2 a H) as [H'|(rid & ->)]; [left; exact H'|].
        right. exists rid. left. reflexivity.
      * right. exists rid. right. exact Hin.
Qed.

(** *** preloadAssets, clearCache and getMemoryUsage *)

(** [preloadAssets(models, textures)] up to its [await]: [models.map] calls
    [loadModel(url)] for every model URL in order, then [textures.map] calls
    [loadTexture(url)] for every texture URL; each call runs to its own
    first [await] before the next one starts. *)
Definition preloadAssets (models textures : list string) (s : Loader)
  : Loader :=
  fold_left (fun s u => loadTexture u None s) textures
    (fold_left (fun s u => loadModel u None s) models s).

(** [clearCache()]: every cached model and texture is handed to the
    ResourceDisposer, and both maps are cleared.  The first component lists
    what is handed over (models first); within a kind the model keeps no
    insertion order. *)
Definition clearCache (s : Loader) : list (AssetKind * Asset) * Loader :=
  (map (fun p => (Model, snd p)) (map_to_list (modelCache s)) ++
   map (fun p => (Texture, snd p)) (map_to_list (textureCache s)),
   mkLoader ∅ ∅
     (onProgressCallback s) (onLoadCallback s) (onErrorCallback s)
     (tasks s) (requests s) (timers s) (notices s)).

(** [getMemoryUsage()]: [{ models, textures, total }]. *)
Definition getMemoryUsage (s : Loader) : nat * nat * nat :=
  (size (modelCache s), size (textureCache s),
   size (modelCache s) + size (textureCache s)).

Definition uncached (k : AssetKind) (s : Loader) (us : list string)
  : list string :=
  filter (fun u => cache_of k s !! u = None) us.

Definition target (r : Request) : AssetKind * string :=
  (req_kind r, req_url r).

Definition callee (t : Task) : AssetKind * string := (kind t, url t).

(** A call made for a cached URL is fulfilled with the cached asset before
    it returns. *)
Definition served_from_cache (s : Loader) (t : Task) : Prop :=
  forall a, cache_of (kind t) s !! url t = Some a -> state t = Fulfilled a.

Lemma load_each k us : forall s,
  let s' := fold_left (fun s u => load k u None s) us s in
  same_caches s s' /\
  exists newt new,
    tasks s' = tasks s ++ newt /\
    map callee newt = map (pair k) us /\
    Forall (served_from_cache s) newt /\
    requests s' = requests s ++ new /\
    map target new = map (pair k) (uncached k s us).
Proof.
  induction us as [|u us IH]; intros s; cbv zeta.
  - simpl. split; [apply same_caches_refl|].
    exists [], []. rewrite !app_nil_r. repeat split. constructor.
  - cbn [fold_left].
    destruct (IH (load k u None s))
      as (Hc & newt & new & Ht & Hnt & Hserved & Hr & Hn).
    assert (Hstep : same_caches s (load k u None s) /\
              tasks (load k u None s) = tasks s ++
                [mkTask k u 3 None
                   match cache_of k s !! u with
                   | Some a => Fulfilled a
                   | None => AwaitingLoad 0 (length (requests s))
                   end] /\
              requests (load k u None s) = requests s ++
                match cache_of k s !! u with
                | Some a => []
                | None => [mkRequest k u (length (tasks s)) 0 false]
                end).
    { destruct (cache_of k s !! u) as [a|] eqn:E.
      - rewrite (load_hit k u a s E). simpl. rewrite app_nil_r.
        repeat split; reflexivity.
      - rewrite (load_miss k u s E). simpl. repeat split; reflexivity. }
    destruct Hstep as (Hc1 & Ht1 & Hr1).
    assert (Hk : forall k', cache_of k' (load k u None s) = cache_of k' s).
    { destruct Hc1 as [Hm Hx]. intros []; simpl; assumption. }
    split.
    { destruct Hc as [A B], Hc1 as [A1 B1]. split; congruence. }
    eexists (_ :: newt), (_ ++ new). split; [|split; [|split; [|split]]].
    + rewrite Ht, Ht1, <- app_assoc. reflexivity.
    + simpl. f_equal. exact Hnt.
    + constructor.
      * unfold served_from_cache. simpl. intros a Ha. rewrite Ha. reflexivity.
      * eapply Forall_impl; [exact Hserved|]. simpl.
        intros t Hs a Ha. apply Hs. rewrite Hk. exact Ha.
    + rewrite Hr, Hr1, <- app_assoc. reflexivity.
    + unfold uncached in *. rewrite Hk in Hn.
      destruct (cache_of k s !! u) as [a|] eqn:E.
      * rewrite filter_cons_False by (rewrite E; discriminate). exact Hn.
      * rewrite filter_cons_True by exact E. simpl. f_equal. exact Hn.
Qed.

(** [preloadAssets] starts every load before any of them settles: one call
    per listed URL, models first, and one underlying load per listed URL
    that is not cached at that moment, in the same order.  A URL listed
    twice is loaded twice, a cached URL is not loaded and its call is
    fulfilled from the cache at once; the caches are not touched. *)
Theorem preloadAssets_starts_all_loads (models textures : list string)
    (s : Loader) :
  let s' := preloadAssets models textures s in
  same_caches s s' /\
  exists newt new,
    tasks s' = tasks s ++ newt /\
    map callee newt = map (pair Model) models ++ map (pair Texture) textures /\
    Forall (served_from_cache s) newt /\
    requests s' = requests s ++ new /\
    map target new = map (pair Model) (uncached Model s models) ++
                     map (pair Texture) (uncached Texture s textures).
Proof.
  cbv zeta. unfold preloadAssets, loadModel, loadTexture.
  destruct (load_each Model models s)
    as (Hc1 & nt1 & n1 & Ht1 & Hk1 & Hs1 & Hr1 & Hn1).
  set (s1 := fold_left (fun s u => load Model u None s) models s) in *.
  destruct (load_each Texture textures s1)
    as (Hc2 & nt2 & n2 & Ht2 & Hk2 & Hs2 & Hr2 & Hn2).
  cbv zeta in *.
  assert (Hk : forall k', cache_of k' s1 = cache_of k' s).
  { destruct Hc1 as [Hm Hx]. intros []; simpl; assumption. }
  split.
  { destruct Hc1 as [A B], Hc2 as [A1 B1]. split; congruence. }
  exists (nt1 ++ nt2), (n1 ++ n2). split; [|split; [|split; [|split]]].
  - rewrite Ht2, Ht1, <- app_assoc. reflexivity.
  - rewrite map_app, Hk1, Hk2. reflexivity.
  - apply Forall_app. split; [exact Hs1|].
    eapply Forall_impl; [exact Hs2|]. simpl.
    intros t Hs a Ha. apply Hs. rewrite Hk. exact Ha.
  - rewrite Hr2, Hr1, <- app_assoc. reflexivity.
  - rewrite map_app, Hn1, Hn2. unfold uncached. rewrite Hk. reflexivity.
Qed.

(** [clearCache] hands every cached asset, and nothing else, to the
    disposer and leaves both caches empty, so that [getMemoryUsage] reports
    zero and the next call for any URL starts an underlying load again. *)
Theorem clearCache_empties_both_caches (s : Loader) (k : AssetKind)
    (u : string) (a : Asset) :
  let s' := snd (clearCache s) in
  getCached k u s' = None /\
  getMemoryUsage s' = (0, 0, 0) /\
  ((k, a) ∈ fst (clearCache s) <-> exists v, getCached k v s = Some a) /\
  length (requests (load k u None s')) = length (requests s) + 1.
Proof.
  cbv zeta. split; [|split; [|split]].
  - destruct k; reflexivity.
  - reflexivity.
  - unfold clearCache, getCached. cbn [fst]. rewrite elem_of_app.
    rewrite !list_elem_of_fmap. split.
    + intros [([v b] & [= Hk <-] & Hin)|([v b] & [= Hk <-] & Hin)];
        subst k; exists v; apply elem_of_map_to_list in Hin; exact Hin.
    + intros (v & Hv). destruct k; [left|right]; exists (v, a);
        (split; [reflexivity|]); apply elem_of_map_to_list; exact Hv.
  - rewrite load_miss by (destruct k; reflexivity).
    simpl. rewrite length_app. reflexivity.
Qed.

(** [clearCache] cancels nothing: a call that awaits an underlying load when
    the caches are cleared still awaits it afterwards, and when that load
    succeeds the call is fulfilled and its asset is written into the
    cleared cache. *)
Theorem load_in_flight_survives_clearCache (s : Loader) (rid tid : nat)
    (t : Task) (attempt : nat) (x : Asset) :
  awaiting_request rid s = Some (tid, t, attempt) ->
  let s1 := snd (clearCache s) in
  awaiting_request rid s1 = Some (tid, t, attempt) /\
  getCached (kind t) (url t) (step s1 (LoadSucceeds rid x)) = Some x /\
  outcome tid (step s1 (LoadSucceeds rid x)) = Some (Fulfilled x) /\
  getMemoryUsage (step s1 (LoadSucceeds rid x)) = (
    match kind t with Model => 1 | Texture => 0 end,
    match kind t with Model => 0 | Texture => 1 end, 1).
Proof.
  intros H. cbv zeta.
  assert (H1 : awaiting_request rid (snd (clearCache s)) =
               Some (tid, t, attempt)) by exact H.
  split; [exact H1|].
  cbn [step]. unfold load_succeeds. rewrite H1.
  apply awaiting_request_Some in H as [Hl Hs].
  assert (Hlt : tid < length (tasks s)) by (apply lookup_lt_Some in Hl; exact Hl).
  rewrite put_task_old by (destruct (kind t); simpl; exact Hlt).
  unfold getCached, outcome, getMemoryUsage.
  split; [|split].
  - destruct (kind t); simpl; apply lookup_insert_eq.
  - destruct (kind t); simpl; rewrite list_lookup_insert_eq by exact Hlt;
      reflexivity.
  - destruct (kind t); simpl;
      rewrite ?insert_empty, ?map_size_singleton, ?map_size_empty;
      reflexivity.
Qed.

Lemma load_in_flight_survives_clearCache_witness :
  let s := run [CallLoadModel "m.glb" None] create in
  getCached Model "m.glb"
    (step (snd (clearCache s)) (LoadSucceeds 0 7)) = Some 7.
Proof.
  cbv zeta.
  destruct (load_in_flight_survives_clearCache
              (run [CallLoadModel "m.glb" None] create) 0 0
              (mkTask Model "m.glb" 3 None (AwaitingLoad 0 0)) 0 7)
    as (_ & H & _); [reflexivity | exact H].
Defined.

End AssetLoaderFacts.

(** * InputHandler

    [src/core/InputHandler.ts]: one object per canvas that turns pointer,
    keyboard, wheel and touch events into a pointer state, a set of pressed
    keys and an accumulated scroll delta.  The model keeps the object, the
    listeners it has registered on the canvas and on the window, and how
    many events had their default action prevented.  Numbers are rationals
    and their arithmetic is exact, where the code rounds the result of each
    operation to a double; [toLowerCase] is JavaScript's
    [String.prototype.toLowerCase] and is left abstract. *)

Module InputHandler.

Record PointerState := mkPointerState {
  x : Q;
  y : Q;
  deltaX : Q;
  deltaY : Q;
  isDown : bool
}.

Record KeyboardState := mkKeyboardState {
  keysPressed : gset string;
  lastKey : option string
}.

(** What [canvas.getBoundingClientRect()] returns. *)
Record DOMRect := mkDOMRect {
  rect_left : Q;
  rect_top : Q;
  rect_width : Q;
  rect_height : Q
}.

Inductive Target := Canvas | Window.

(** The ten arrow functions of the class.  Each is bound once, by the
    constructor, so that a bound handler is known by the function it
    binds. *)
Inductive Handler :=
| HandlePointerMove | HandlePointerDown | HandlePointerUp | HandlePointerLeave
| HandleKeyDown | HandleKeyUp
| HandleWheel
| HandleTouchStart | HandleTouchMove | HandleTouchEnd.

#[local] Instance Handler_eq_dec : EqDecision Handler.
Proof. solve_decision. Defined.

#[local] Instance Target_eq_dec : EqDecision Target.
Proof. solve_decision. Defined.

(** An entry of an event target's listener list. *)
Record Listener := mkListener {
  on_target : Target;
  event_name : string;
  callback : Handler;
  passive : option bool
}.

(** The fields of an [InputHandler].  [boundHandlers] is a [Map] and keeps
    its insertion order; [raycaster] holds the coordinates and the camera
    of the last [setFromCamera]. *)
Record InputHandler := mkInputHandler {
  pointer : PointerState;
  keyboard : KeyboardState;
  scrollDelta : Q;
  raycaster : option (Q * Q * nat);
  boundHandlers : list (string * Handler)
}.

Record Page := mkPage {
  this : InputHandler;
  listeners : list Listener;
  prevented : nat
}.

(** The events the browser delivers.  Pointer, wheel and touch events are
    delivered to the canvas and bubble to the window; key events are
    delivered to the window.  An event carries what its handler reads from
    it, and the rectangle the canvas has at that moment. *)
Inductive DomEvent :=
| PointerMove (rect : DOMRect) (clientX clientY : Q)
| PointerDown
| PointerUp
| PointerLeave
| KeyDown (key : string)
| KeyUp (key : string)
| Wheel (wheelDeltaY : Q)
| TouchStart (rect : DOMRect) (touches : list (Q * Q))
| TouchMove (rect : DOMRect) (touches : list (Q * Q))
| TouchEnd.

Definition event_type (e : DomEvent) : string :=
  match e with
  | PointerMove _ _ _ => "pointermove"
  | PointerDown => "pointerdown"
  | PointerUp => "pointerup"
  | PointerLeave => "pointerleave"
  | KeyDown _ => "keydown"
  | KeyUp _ => "keyup"
  | Wheel _ => "wheel"
  | TouchStart _ _ => "touchstart"
  | TouchMove _ _ => "touchmove"
  | TouchEnd => "touchend"
  end.

Definition reaches (e : DomEvent) (t : Target) : bool :=
  match e, t with
  | (KeyDown _ | KeyUp _), Canvas => false
  | _, _ => true
  end.

(** [((clientX - rect.left) / rect.width) * 2 - 1] *)
Definition ndc_x (rect : DOMRect) (clientX : Q) : Q :=
  ((clientX - rect_left rect) / rect_width rect) * 2 - 1.

(** [-((clientY - rect.top) / rect.height) * 2 + 1] *)
Definition ndc_y (rect : DOMRect) (clientY : Q) : Q :=
  - ((clientY - rect_top rect) / rect_height rect) * 2 + 1.

Definition with_pointer (p : PointerState) (h : InputHandler)
  : InputHandler :=
  mkInputHandler p (keyboard h) (scrollDelta h) (raycaster h)
    (boundHandlers h).

Definition with_keyboard (k : KeyboardState) (h : InputHandler)
  : InputHandler :=
  mkInputHandler (pointer h) k (scrollDelta h) (raycaster h)
    (boundHandlers h).

Definition handlePointerMove (rect : DOMRect) (clientX clientY : Q)
    (h : InputHandler) : InputHandler :=
  let prevX := x (pointer h) in
  let prevY := y (pointer h) in
  let nx := ndc_x rect clientX in
  let ny := ndc_y rect clientY in
  with_pointer
    (mkPointerState nx ny (nx - prevX) (ny - prevY) (isDown (pointer h))) h.

Definition set_isDown (b : bool) (h : InputHandler) : InputHandler :=
  with_pointer
    (mkPointerState (x (pointer h)) (y (pointer h)) (deltaX (pointer h))
       (deltaY (pointer h)) b) h.

Definition handlePointerDown : InputHandler -> InputHandler := set_isDown true.
Definition handlePointerUp : InputHandler -> InputHandler := set_isDown false.
Definition handlePointerLeave : InputHandler -> InputHandler :=
  set_isDown false.

Section Keys.

Variable toLowerCase : string -> string.

Definition handleKeyDown (key : string) (h : InputHandler) : InputHandler :=
  with_keyboard
    (mkKeyboardState ({[ toLowerCase key ]} ∪ keysPressed (keyboard h))
       (Some (toLowerCase key))) h.

Definition handleKeyUp (key : string) (h : InputHandler) : InputHandler :=
  with_keyboard
    (mkKeyboardState (keysPressed (keyboard h) ∖ {[ toLowerCase key ]})
       (lastKey (keyboard h))) h.

(** [handleWheel], [handleTouchStart] and [handleTouchMove] call
    [e.preventDefault()]: the first component says so. *)
Definition handleWheel (wheelDeltaY : Q) (h : InputHandler)
  : bool * InputHandler :=
  (true,
   mkInputHandler (pointer h) (keyboard h) (scrollDelta h + wheelDeltaY)
     (raycaster h) (boundHandlers h)).

Definition handleTouchStart (rect : DOMRect) (touches : list (Q * Q))
    (h : InputHandler) : bool * InputHandler :=
  (true,
   match touches with
   | touch :: _ =>
     with_pointer
       (mkPointerState (ndc_x rect (fst touch)) (ndc_y rect (snd touch))
          (deltaX (pointer h)) (deltaY (pointer h)) true) h
   | [] => h
   end).

Definition handleTouchMove (rect : DOMRect) (touches : list (Q * Q))
    (h : InputHandler) : bool * InputHandler :=
  (true,
   match touches with
   | touch :: _ =>
     let prevX := x (pointer h) in
     let prevY := y (pointer h) in
     let nx := ndc_x rect (fst touch) in
     let ny := ndc_y rect (snd touch) in
     with_pointer
       (mkPointerState nx ny (nx - prevX) (ny - prevY) (isDown (pointer h))) h
   | [] => h
   end).

Definition handleTouchEnd (h : InputHandler) : InputHandler :=
  with_pointer
    (mkPointerState (x (pointer h)) (y (pointer h)) 0 0 false) h.

(** [getPointerState()] and [getKeyboardState()] return copies. *)
Definition getPointerState (h : InputHandler) : PointerState := pointer h.
Definition getKeyboardState (h : InputHandler) : KeyboardState := keyboard h.

Definition isKeyPressed (key : string) (h : InputHandler) : bool :=
  bool_decide (toLowerCase key ∈ keysPressed (keyboard h)).

(** [getScrollDelta()]: get and consume. *)
Definition getScrollDelta (h : InputHandler) : Q * InputHandler :=
  (scrollDelta h,
   mkInputHandler (pointer h) (keyboard h) 0 (raycaster h) (boundHandlers h)).

Definition getRaycaster (camera : nat) (h : InputHandler) : InputHandler :=
  mkInputHandler (pointer h) (keyboard h) (scrollDelta h)
    (Some (x (pointer h), y (pointer h), camera)) (boundHandlers h).

Definition resetDeltas (h : InputHandler) : InputHandler :=
  with_pointer
    (mkPointerState (x (pointer h)) (y (pointer h)) 0 0 (isDown (pointer h)))
    h.

(** *** Listeners *)

(** [Map.prototype.set]: an existing key keeps its place. *)
Fixpoint map_set (k : string) (v : Handler) (m : list (string * Handler))
  : list (string * Handler) :=
  match m with
  | [] => [(k, v)]
  | (k', v') :: m' =>
    if String.eqb k' k then (k', v) :: m' else (k', v') :: map_set k v m'
  end.

(** The third argument of [addListener]: an event target, an options
    object, or nothing (then the canvas). *)
Inductive ListenerArg :=
| NoArg
| ATarget (t : Target)
| AOptions (passive : bool).

Definition same_listener (t : Target) (event : string) (cb : Handler)
    (l : Listener) : bool :=
  bool_decide (on_target l = t) && String.eqb (event_name l) event &&
  bool_decide (callback l = cb).

(** [target.addEventListener(event, handler, options)]: a listener that is
    already registered is not registered again. *)
Definition addEventListener (t : Target) (event : string) (cb : Handler)
    (options : option bool) (ls : list Listener) : list Listener :=
  if existsb (same_listener t event cb) ls then ls
  else ls ++ [mkListener t event cb options].

Definition removeEventListener (t : Target) (event : string) (cb : Handler)
    (ls : list Listener) : list Listener :=
  List.filter (fun l => negb (same_listener t event cb l)) ls.

Definition addListener (event : string) (handler : Handler)
    (target : ListenerArg) (options : option bool) (p : Page) : Page :=
  let eventTarget := match target with ATarget t => t | _ => Canvas end in
  let eventOptions := match target with
                      | ATarget _ => options
                      | AOptions o => Some o
                      | NoArg => options
                      end in
  mkPage
    (mkInputHandler (pointer (this p)) (keyboard (this p))
       (scrollDelta (this p)) (raycaster (this p))
       (map_set event handler (boundHandlers (this p))))
    (addEventListener eventTarget event handler eventOptions (listeners p))
    (prevented p).

Definition setupEventListeners (p : Page) : Page :=
  let p := addListener "pointermove" HandlePointerMove NoArg None p in
  let p := addListener "pointerdown" HandlePointerDown NoArg None p in
  let p := addListener "pointerup" HandlePointerUp NoArg None p in
  let p := addListener "pointerleave" HandlePointerLeave NoArg None p in
  let p := addListener "keydown" HandleKeyDown (ATarget Window) None p in
  let p := addListener "keyup" HandleKeyUp (ATarget Window) None p in
  let p := addListener "wheel" HandleWheel (AOptions false) None p in
  let p := addListener "touchstart" HandleTouchStart (AOptions false) None p in
  let p := addListener "touchmove" HandleTouchMove (AOptions false) None p in
  addListener "touchend" HandleTouchEnd NoArg None p.

(** [new InputHandler(canvas)] on a page without listeners. *)
Definition create : Page :=
  setupEventListeners
    (mkPage
       (mkInputHandler (mkPointerState 0 0 0 0 false)
          (mkKeyboardState ∅ None) 0 None [])
       [] O).

(** The body of a handler, run on the event it was registered for; the
    first component is whether it called [preventDefault]. *)
Definition invoke (cb : Handler) (e : DomEvent) (h : InputHandler)
  : bool * InputHandler :=
  match cb, e with
  | HandlePointerMove, PointerMove rect cx cy =>
      (false, handlePointerMove rect cx cy h)
  | HandlePointerDown, _ => (false, handlePointerDown h)
  | HandlePointerUp, _ => (false, handlePointerUp h)
  | HandlePointerLeave, _ => (false, handlePointerLeave h)
  | HandleKeyDown, KeyDown key => (false, handleKeyDown key h)
  | HandleKeyUp, KeyUp key => (false, handleKeyUp key h)
  | HandleWheel, Wheel d => handleWheel d h
  | HandleTouchStart, TouchStart rect touches =>
      handleTouchStart rect touches h
  | HandleTouchMove, TouchMove rect touches => handleTouchMove rect touches h
  | HandleTouchEnd, _ => (false, handleTouchEnd h)
  | _, _ => (false, h)
  end.

(** The browser delivers [e]: every listener registered for its type on a
    target it reaches runs, in registration order.  [preventDefault] counts
    unless the listener is passive. *)
Definition deliver_to (e : DomEvent) (p : Page) (l : Listener) : Page :=
  if String.eqb (event_name l) (event_type e) && reaches e (on_target l) then
    let '(pd, h) := invoke (callback l) e (this p) in
    let honoured := pd && negb (bool_decide (passive l = Some true)) in
    mkPage h (listeners p) (if honoured then S (prevented p) else prevented p)
  else p.

Definition dispatch (e : DomEvent) (p : Page) : Page :=
  fold_left (deliver_to e) (listeners p) p.

(** [dispose()] *)
Definition dispose (p : Page) : Page :=
  let ls :=
    fold_left
      (fun ls '(event, handler) =>
         if String.eqb event "keydown" || String.eqb event "keyup"
         then removeEventListener Window event handler ls
         else removeEventListener Canvas event handler ls)
      (boundHandlers (this p)) (listeners p) in
  mkPage
    (mkInputHandler (pointer (this p))
       (mkKeyboardState ∅ (lastKey (keyboard (this p))))
       (scrollDelta (this p)) (raycaster (this p)) [])
    ls (prevented p).

(** What happens to a handler: the browser delivers an event, or the
    application calls a method. *)
Inductive Action :=
| Deliver (e : DomEvent)
| CallGetScrollDelta
| CallGetRaycaster (camera : nat)
| CallResetDeltas
| CallDispose.

Definition on_this (f : InputHandler -> InputHandler) (p : Page) : Page :=
  mkPage (f (this p)) (listeners p) (prevented p).

Definition step (p : Page) (a : Action) : Page :=
  match a with
  | Deliver e => dispatch e p
  | CallGetScrollDelta => on_this (fun h => snd (getScrollDelta h)) p
  | CallGetRaycaster c => on_this (getRaycaster c) p
  | CallResetDeltas => on_this resetDeltas p
  | CallDispose => dispose p
  end.

Definition run (acts : list Action) (p : Page) : Page :=
  fold_left step acts p.

End Keys.

End InputHandler.

(** ** InputHandler: properties *)

Module InputHandlerFacts.
Import InputHandler.

(** The listeners and the handler map the constructor leaves behind. *)
Definition attached_listeners : list Listener :=
  [ mkListener Canvas "pointermove" HandlePointerMove None;
    mkListener Canvas "pointerdown" HandlePointerDown None;
    mkListener Canvas "pointerup" HandlePointerUp None;
    mkListener Canvas "pointerleave" HandlePointerLeave None;
    mkListener Window "keydown" HandleKeyDown None;
    mkListener Window "keyup" HandleKeyUp None;
    mkListener Canvas "wheel" HandleWheel (Some false);
    mkListener Canvas "touchstart" HandleTouchStart (Some false);
    mkListener Canvas "touchmove" HandleTouchMove (Some false);
    mkListener Canvas "touchend" HandleTouchEnd None ].

Definition attached_handlers : list (string * Handler) :=
  map (fun l => (event_name l, callback l)) attached_listeners.

Definition is_dispose (a : Action) : bool :=
  match a with CallDispose => true | _ => false end.

(** The events whose handler calls [preventDefault]. *)
Definition prevents_default (a : Action) : bool :=
  match a with
  | Deliver (Wheel _) | Deliver (TouchStart _ _) | Deliver (TouchMove _ _) =>
      true
  | _ => false
  end.

(** Where an event places the pointer: the canvas rectangle and the client
    coordinates of the pointer or of the first touch. *)
Definition located (e : DomEvent) : option (DOMRect * Q * Q) :=
  match e with
  | PointerMove r cx cy => Some (r, cx, cy)
  | TouchStart r (t :: _) => Some (r, fst t, snd t)
  | TouchMove r (t :: _) => Some (r, fst t, snd t)
  | _ => None
  end.

Definition is_move (e : DomEvent) : bool :=
  match e with PointerMove _ _ _ | TouchMove _ _ => true | _ => false end.

(** The scroll not yet read: the wheel deltas since the last
    [getScrollDelta]. *)
Definition unread_scroll (acts : list Action) : Q :=
  fold_left (fun acc a =>
               match a with
               | Deliver (Wheel d) => acc + d
               | CallGetScrollDelta => 0
               | _ => acc
               end) acts 0.




Lemma ndc_x_diff r a b :
  ~ rect_width r == 0 ->
  ndc_x r b - ndc_x r a == 2 * (b - a) / rect_width r.
Proof. intros H. unfold ndc_x. field. exact H. Qed.

Lemma ndc_y_diff r a b :
  ~ rect_height r == 0 ->
  ndc_y r b - ndc_y r a == - (2 * (b - a) / rect_height r).
Proof. intros H. unfold ndc_y. field. exact H. Qed.

Section Facts.

Variable toLowerCase : string -> string.

Record attached (p : Page) : Prop := mkAttached {
  attached_on_page : listeners p = attached_listeners;
  attached_in_map : boundHandlers (this p) = attached_handlers
}.

Record detached (p : Page) : Prop := mkDetached {
  nothing_on_page : listeners p = [];
  nothing_in_map : boundHandlers (this p) = [];
  no_key_pressed : keysPressed (keyboard (this p)) = ∅
}.

(** What an event does to a handler whose listeners are in place. *)
Definition react (e : DomEvent) (p : Page) : Page :=
  match e with
  | PointerMove r cx cy => on_this (handlePointerMove r cx cy) p
  | PointerDown => on_this handlePointerDown p
  | PointerUp => on_this handlePointerUp p
  | PointerLeave => on_this handlePointerLeave p
  | KeyDown k => on_this (handleKeyDown toLowerCase k) p
  | KeyUp k => on_this (handleKeyUp toLowerCase k) p
  | Wheel d =>
      mkPage (snd (handleWheel d (this p))) (listeners p) (S (prevented p))
  | TouchStart r ts =>
      mkPage (snd (handleTouchStart r ts (this p))) (listeners p)
        (S (prevented p))
  | TouchMove r ts =>
      mkPage (snd (handleTouchMove r ts (this p))) (listeners p)
        (S (prevented p))
  | TouchEnd => on_this handleTouchEnd p
  end.

Lemma attached_create : attached create.
Proof. split; reflexivity. Qed.

Lemma dispatch_attached e p : attached p -> dispatch toLowerCase e p = react e p.
Proof.
  intros [Hl Hb]. unfold dispatch. rewrite Hl.
  destruct p as [h ls n]. simpl in Hl. subst ls.
  destruct e; reflexivity.
Qed.

Lemma dispatch_detached e p : listeners p = [] -> dispatch toLowerCase e p = p.
Proof. intros H. unfold dispatch. rewrite H. reflexivity. Qed.

Lemma react_attached e p : attached p -> attached (react e p).
Proof.
  intros [Hl Hb]. destruct e; split; try exact Hl; try exact Hb;
    simpl; try exact Hb; destruct touches; exact Hb.
Qed.

Lemma dispose_attached p : attached p -> detached (dispose p).
Proof.
  intros [Hl Hb]. unfold dispose. rewrite Hl, Hb. split; reflexivity.
Qed.

Lemma dispose_detached p : detached p -> dispose p = p.
Proof.
  intros [Hl Hb Hk]. unfold dispose. rewrite Hl, Hb. simpl.
  destruct p as [[ptr [keys lk] sd rc bh] ls n]. simpl in *. subst.
  reflexivity.
Qed.

Lemma step_attached p a :
  attached p -> is_dispose a = false ->
  attached (step toLowerCase p a) /\
  step toLowerCase p a = match a with Deliver e => react e p | _ => step toLowerCase p a end.
Proof.
  intros Hp Ha. destruct a; try discriminate; simpl.
  - rewrite (dispatch_attached e p Hp). split; [|reflexivity].
    apply react_attached, Hp.
  - split; [|reflexivity]. destruct Hp as [Hl Hb]. split; assumption.
  - split; [|reflexivity]. destruct Hp as [Hl Hb]. split; assumption.
  - split; [|reflexivity]. destruct Hp as [Hl Hb]. split; assumption.
Qed.

Lemma run_then acts a p : run toLowerCase (acts ++ [a]) p = step toLowerCase (run toLowerCase acts p) a.
Proof. unfold run. rewrite fold_left_app. reflexivity. Qed.

Lemma run_attached acts : forall p,
  attached p -> existsb is_dispose acts = false -> attached (run toLowerCase acts p).
Proof.
  induction acts as [|a acts IH]; intros p Hp Hd; [exact Hp|].
  simpl in Hd. apply orb_false_iff in Hd as [Ha Hd].
  simpl. apply IH; [|exact Hd]. apply step_attached; assumption.
Qed.

Lemma step_settled p a : attached p \/ detached p ->
  attached (step toLowerCase p a) \/ detached (step toLowerCase p a).
Proof.
  intros [Hp|Hp].
  - destruct (is_dispose a) eqn:E.
    + destruct a; try discriminate. right. apply dispose_attached, Hp.
    + left. apply step_attached; assumption.
  - right. destruct a; simpl.
    + rewrite dispatch_detached by apply Hp. exact Hp.
    + destruct Hp as [Hl Hb Hk]. split; assumption.
    + destruct Hp as [Hl Hb Hk]. split; assumption.
    + destruct Hp as [Hl Hb Hk]. split; assumption.
    + rewrite dispose_detached by exact Hp. exact Hp.
Qed.

Lemma run_settled acts : forall p,
  attached p \/ detached p -> attached (run toLowerCase acts p) \/ detached (run toLowerCase acts p).
Proof.
  induction acts as [|a acts IH]; intros p Hp; [exact Hp|].
  simpl. apply IH, step_settled, Hp.
Qed.

(** *** Pointer *)

Lemma react_located e r cx cy p :
  located e = Some (r, cx, cy) ->
  x (pointer (this (react e p))) = ndc_x r cx /\
  y (pointer (this (react e p))) = ndc_y r cy /\
  (is_move e = true ->
   deltaX (pointer (this (react e p))) = ndc_x r cx - x (pointer (this p)) /\
   deltaY (pointer (this (react e p))) = ndc_y r cy - y (pointer (this p))).
Proof.
  destruct e; try discriminate; simpl.
  - intros [= <- <- <-]. repeat split.
  - destruct touches as [|t ts]; [discriminate|]. intros [= <- <- <-].
    simpl. repeat split; discriminate.
  - destruct touches as [|t ts]; [discriminate|]. intros [= <- <- <-].
    simpl. repeat split.
Qed.


(** The deltas of a move are relative to the event before it alone and
    follow the displacement: when two located events follow each other and
    the second is a pointer move or a touch move over the same rectangle,
    moving right never gives a negative [deltaX] nor moving left a positive
    one, and, the vertical axis being flipped, moving down never gives a
    positive [deltaY] nor moving up a negative one; an event at the same
    client position gives zero deltas.  Only the order of the two positions
    enters, not how the arithmetic rounds. *)
Theorem move_delta_follows_displacement (acts : list Action)
    (e1 e2 : DomEvent) (r : DOMRect) (ax ay bx by' : Q) :
  existsb is_dispose acts = false ->
  located e1 = Some (r, ax, ay) ->
  located e2 = Some (r, bx, by') ->
  is_move e2 = true ->
  0 < rect_width r -> 0 < rect_height r ->
  let p := getPointerState
             (this (run toLowerCase (acts ++ [Deliver e1; Deliver e2]) create)) in
  (ax <= bx -> 0 <= deltaX p) /\ (bx <= ax -> deltaX p <= 0) /\
  (ay <= by' -> deltaY p <= 0) /\ (by' <= ay -> 0 <= deltaY p) /\
  (bx == ax -> deltaX p == 0) /\ (by' == ay -> deltaY p == 0).
Proof.
  intros Hd H1 H2 Hm Hw Hh p. unfold p, getPointerState.
  change [Deliver e1; Deliver e2] with ([Deliver e1] ++ [Deliver e2]).
  rewrite app_assoc, !run_then. simpl.
  pose proof (run_attached acts create attached_create Hd) as Ha.
  rewrite (dispatch_attached e1 _ Ha).
  rewrite dispatch_attached by (apply react_attached, Ha).
  destruct (react_located e1 r ax ay (run toLowerCase acts create) H1)
    as (X1 & Y1 & _).
  destruct (react_located e2 r bx by'
              (react e1 (run toLowerCase acts create)) H2) as (_ & _ & D).
  destruct (D Hm) as [-> ->]. rewrite X1, Y1.
  assert (Hwn : ~ rect_width r == 0)
    by (intros E; rewrite E in Hw; discriminate).
  assert (Hhn : ~ rect_height r == 0)
    by (intros E; rewrite E in Hh; discriminate).
  rewrite (ndc_x_diff r ax bx Hwn), (ndc_y_diff r ay by' Hhn).
  assert (Sx : forall n, 0 <= n -> 0 <= 2 * n / rect_width r).
  { intros n Hn. apply Qle_shift_div_l; [exact Hw|]. lra. }
  assert (Sy : forall n, 0 <= n -> 0 <= 2 * n / rect_height r).
  { intros n Hn. apply Qle_shift_div_l; [exact Hh|]. lra. }
  assert (Nx : forall n, n <= 0 -> 2 * n / rect_width r <= 0).
  { intros n Hn. apply Qle_shift_div_r; [exact Hw|]. lra. }
  assert (Ny : forall n, n <= 0 -> 2 * n / rect_height r <= 0).
  { intros n Hn. apply Qle_shift_div_r; [exact Hh|]. lra. }
  split; [|split; [|split; [|split; [|split]]]].
  - intros H. apply Sx. lra.
  - intros H. apply Nx. lra.
  - intros H. pose proof (Sy (by' - ay)) as S. lra.
  - intros H. pose proof (Ny (by' - ay)) as S. lra.
  - intros H. pose proof (Sx (bx - ax)) as S. pose proof (Nx (bx - ax)) as N.
    lra.
  - intros H. pose proof (Sy (by' - ay)) as S. pose proof (Ny (by' - ay)) as N.
    lra.
Qed.

(** *** Scroll *)

Lemma scroll_run acts : forall p,
  attached p -> existsb is_dispose acts = false ->
  scrollDelta (this (run toLowerCase acts p)) =
  fold_left (fun acc a =>
               match a with
               | Deliver (Wheel d) => acc + d
               | CallGetScrollDelta => 0
               | _ => acc
               end) acts (scrollDelta (this p)) /\
  prevented (run toLowerCase acts p) =
  (prevented p + length (List.filter prevents_default acts))%nat.
Proof.
  induction acts as [|a acts IH]; intros p Hp Hd.
  - simpl. split; [reflexivity|lia].
  - simpl in Hd. apply orb_false_iff in Hd as [Ha Hd].
    destruct (step_attached p a Hp Ha) as [Hp' Hs].
    simpl. destruct (IH _ Hp' Hd) as [-> ->]. rewrite Hs.
    destruct a as [e| | | |]; try discriminate.
    + destruct e; simpl; try (split; [reflexivity|lia]);
        destruct touches; simpl; split; try reflexivity; lia.
    + simpl. split; [reflexivity|lia].
    + simpl. split; [reflexivity|lia].
    + simpl. split; [reflexivity|lia].
Qed.

(** [getScrollDelta] returns the sum of the wheel deltas delivered since it
    was last called (or since construction) and consumes it: a second call
    returns 0.  No other event or method touches the accumulated delta, and
    the default action is prevented for exactly the wheel, touch-start and
    touch-move events. *)
Theorem scroll_delta_accumulates_until_read (acts : list Action) :
  existsb is_dispose acts = false ->
  let p := run toLowerCase acts create in
  fst (getScrollDelta (this p)) = unread_scroll acts /\
  fst (getScrollDelta (snd (getScrollDelta (this p)))) = 0 /\
  prevented p = length (List.filter prevents_default acts).
Proof.
  intros Hd p.
  destruct (scroll_run acts create attached_create Hd) as [H1 H2].
  split; [exact H1|]. split; [reflexivity|exact H2].
Qed.

(** *** Keys *)

(** Scanning the history from the most recent action back, the first key
    event for [key], compared in lower case, decides whether it is held. *)
Fixpoint key_held (key : string) (history : list Action) : bool :=
  match history with
  | [] => false
  | Deliver (KeyDown k) :: older =>
    if decide (toLowerCase k = toLowerCase key) then true
    else key_held key older
  | Deliver (KeyUp k) :: older =>
    if decide (toLowerCase k = toLowerCase key) then false
    else key_held key older
  | _ :: older => key_held key older
  end.

(** The key of the most recent key-down, in lower case. *)
Fixpoint last_key_down (history : list Action) : option string :=
  match history with
  | [] => None
  | Deliver (KeyDown k) :: _ => Some (toLowerCase k)
  | _ :: older => last_key_down older
  end.

Lemma keys_step p a key :
  attached p -> is_dispose a = false ->
  isKeyPressed toLowerCase key (this (step toLowerCase p a)) =
  match a with
  | Deliver (KeyDown k) =>
    if decide (toLowerCase k = toLowerCase key) then true
    else isKeyPressed toLowerCase key (this p)
  | Deliver (KeyUp k) =>
    if decide (toLowerCase k = toLowerCase key) then false
    else isKeyPressed toLowerCase key (this p)
  | _ => isKeyPressed toLowerCase key (this p)
  end /\
  lastKey (keyboard (this (step toLowerCase p a))) =
  match a with
  | Deliver (KeyDown k) => Some (toLowerCase k)
  | _ => lastKey (keyboard (this p))
  end.
Proof.
  intros Hp Ha. destruct (step_attached p a Hp Ha) as [_ ->].
  unfold isKeyPressed.
  destruct a as [e| | | |]; try discriminate; try (split; reflexivity).
  destruct e; try (split; reflexivity); simpl.
  - split; [|reflexivity].
    destruct (decide (toLowerCase key0 = toLowerCase key)) as [E|N].
    + apply bool_decide_eq_true. set_solver.
    + apply bool_decide_ext. set_solver.
  - split; [|reflexivity].
    destruct (decide (toLowerCase key0 = toLowerCase key)) as [E|N].
    + apply bool_decide_eq_false. set_solver.
    + apply bool_decide_ext. set_solver.
  - destruct touches; split; reflexivity.
  - destruct touches; split; reflexivity.
Qed.

(** A key is reported pressed exactly when its most recent key event is a
    key-down, keys being compared in lower case: releasing ["A"] releases a
    key that went down as ["a"].  [lastKey] is the lower-cased key of the
    most recent key-down and survives the key's release. *)
Theorem key_pressed_iff_last_event_is_down (acts : list Action)
    (key : string) :
  existsb is_dispose acts = false ->
  let h := this (run toLowerCase acts create) in
  isKeyPressed toLowerCase key h = key_held key (rev acts) /\
  lastKey (getKeyboardState h) = last_key_down (rev acts).
Proof.
  induction acts as [|a acts IH] using rev_ind; intros Hd h.
  - split; reflexivity.
  - rewrite existsb_app in Hd. apply orb_false_iff in Hd as [Hd Ha].
    simpl in Ha. rewrite orb_false_r in Ha.
    destruct (IH Hd) as [IH1 IH2]. unfold h, getKeyboardState in *.
    rewrite run_then, rev_app_distr. simpl.
    pose proof (run_attached acts create attached_create Hd) as Hp.
    destruct (keys_step _ a key Hp Ha) as [-> ->].
    rewrite IH1, IH2.
    destruct a as [[]| | | |]; split; reflexivity.
Qed.

(** *** Disposal *)

(** In every state a handler can reach, [dispose] removes every listener
    the constructor registered, empties the handler map and releases all
    keys; afterwards no event the browser delivers changes the handler or
    has its default action prevented, and a second [dispose] changes
    nothing. *)
Theorem dispose_detaches_everything (acts : list Action)
    (events : list DomEvent) (key : string) :
  let p := dispose (run toLowerCase acts create) in
  listeners p = [] /\ boundHandlers (this p) = [] /\
  isKeyPressed toLowerCase key (this p) = false /\
  run toLowerCase (map Deliver events) p = p /\
  dispose p = p.
Proof.
  intros p.
  assert (Hp : detached p).
  { unfold p.
    destruct (run_settled acts create (or_introl attached_create)) as [H|H].
    - apply dispose_attached, H.
    - rewrite dispose_detached by exact H. exact H. }
  split; [apply Hp|]. split; [apply Hp|]. split; [|split].
  - unfold isKeyPressed. rewrite (no_key_pressed p Hp).
    apply bool_decide_eq_false. set_solver.
  - induction events as [|e events IH]; [reflexivity|].
    simpl. rewrite dispatch_detached by apply Hp. exact IH.
  - apply dispose_detached, Hp.
Qed.

End Facts.

(** [toLowerCase] on ASCII letters, for the examples. *)
Fixpoint ascii_toLowerCase (s : string) : string :=
  match s with
  | EmptyString => EmptyString
  | String c rest =>
    let n := Ascii.nat_of_ascii c in
    String (if ((65 <=? n) && (n <=? 90))%nat
            then Ascii.ascii_of_nat (n + 32) else c)
      (ascii_toLowerCase rest)
  end.


Lemma move_delta_follows_displacement_witness :
  let r := mkDOMRect 10 20 200 100 in
  0 <= deltaX (getPointerState
                 (this (run ascii_toLowerCase
                          [Deliver (TouchStart r [(50, 60)]);
                           Deliver (TouchMove r [(70, 60); (0, 0)])]
                          create))).
Proof.
  cbv zeta.
  destruct (move_delta_follows_displacement ascii_toLowerCase []
              (TouchStart (mkDOMRect 10 20 200 100) [(50, 60)])
              (TouchMove (mkDOMRect 10 20 200 100) [(70, 60); (0, 0)])
              (mkDOMRect 10 20 200 100) 50 60 70 60)
    as (H & _); [reflexivity .. | apply H; unfold Qle; simpl; lia].
Defined.

Lemma scroll_delta_accumulates_until_read_witness :
  fst (getScrollDelta
         (this (run ascii_toLowerCase
                  [Deliver (Wheel 3); CallGetScrollDelta; Deliver (Wheel 4);
                   Deliver PointerUp; Deliver (Wheel 5)] create)))
  = 0 + 4 + 5.
Proof.
  destruct (scroll_delta_accumulates_until_read ascii_toLowerCase
              [Deliver (Wheel 3); CallGetScrollDelta; Deliver (Wheel 4);
               Deliver PointerUp; Deliver (Wheel 5)])
    as (H & _); [reflexivity | exact H].
Defined.

Lemma key_pressed_iff_last_event_is_down_witness :
  isKeyPressed ascii_toLowerCase "a"
    (this (run ascii_toLowerCase
             [Deliver (KeyDown "a"); Deliver (KeyDown "Shift");
              Deliver (KeyUp "A")] create)) = false /\
  isKeyPressed ascii_toLowerCase "SHIFT"
    (this (run ascii_toLowerCase
             [Deliver (KeyDown "a"); Deliver (KeyDown "Shift");
              Deliver (KeyUp "A")] create)) = true.
Proof.
  split.
  - destruct (key_pressed_iff_last_event_is_down ascii_toLowerCase
                [Deliver (KeyDown "a"); Deliver (KeyDown "Shift");
                 Deliver (KeyUp "A")] "a") as (H & _);
      [reflexivity | exact H].
  - destruct (key_pressed_iff_last_event_is_down ascii_toLowerCase
                [Deliver (KeyDown "a"); Deliver (KeyDown "Shift");
                 Deliver (KeyUp "A")] "SHIFT") as (H & _);
      [reflexivity | exact H].
Defined.

End InputHandlerFacts.
